(** * Dangerous Mode: a verified model of the session engine

    Shallow embedding of [main.ts] (the Obsidian plug-in "Dangerous Mode"):
    the frontmatter-preserving wipe, the overlay intensity model, the two
    insertion channels and the single-flight idle-timeout handler.

    Conventions.
    - A JavaScript string is the list of its UTF-16 code units ([N]).
    - [Date.now()] values, document lengths and idle times are integral
      numbers of milliseconds or code units ([Z]); the overlay ratio [p] is
      an exact rational ([Q]).
    - The picked number of minutes is any Number, and so are the duration
      and the end of the session computed from it: these are IEEE 754
      binary64 values ([Double.double]), with the rounding and the overflow
      of the multiplication and the addition that produce them.
    - Each event handler is a function from the plug-in state to the plug-in
      state; the current time and the host's answers are arguments.
    - An [await] splits a handler: the part after it is a continuation kept
      in the state and resumed by the completion event.
    - What the plug-in does to its host (notices, vault calls, overlay
      classes, console output) is appended to a trace.

    The capture-phase input guards and the duration dialog are modelled on
    their own ([Guards], [Picker]); the layout of the dialog is left out. *)

From Stdlib Require Import String Ascii.
From Stdlib Require Import List Bool Arith NArith ZArith QArith Qround Qminmax.
From Stdlib Require Import Sorted Lia.
From Stdlib Require SpecFloat.
Import ListNotations.

(* ================================================================== *)
(** ** JavaScript strings *)

Module JsString.

Definition jsstring := list N.

Definition LF : N := 10%N.
Definition CR : N := 13%N.

(** An ASCII literal as code units. *)
Definition lit (s : string) : jsstring :=
  List.map N_of_ascii (list_ascii_of_string s).

Fixpoint eqb (a b : jsstring) : bool :=
  match a, b with
  | [], [] => true
  | x :: a', y :: b' => N.eqb x y && eqb a' b'
  | _, _ => false
  end.

(** ECMAScript [WhiteSpace] and [LineTerminator] code units, the set
    stripped by [String.prototype.trim]. *)
Definition is_space (c : N) : bool :=
  ((9 <=? c) && (c <=? 13) || (c =? 32) || (c =? 160) || (c =? 5760)
   || (8192 <=? c) && (c <=? 8202) || (c =? 8232) || (c =? 8233)
   || (c =? 8239) || (c =? 8287) || (c =? 12288) || (c =? 65279))%N.

Fixpoint trimStart (s : jsstring) : jsstring :=
  match s with
  | c :: s' => if is_space c then trimStart s' else s
  | [] => []
  end.

Definition trimEnd (s : jsstring) : jsstring := rev (trimStart (rev s)).

(** [s.trim()] *)
Definition trim (s : jsstring) : jsstring := trimEnd (trimStart s).

Definition cons_first (c : N) (ls : list jsstring) : list jsstring :=
  match ls with
  | l :: ls' => (c :: l) :: ls'
  | [] => [[c]]
  end.

(** [s.split(/\r?\n/)]: the separators are the leftmost matches of the
    pattern, so a carriage return directly before a line feed belongs to
    the separator. The result is never empty. *)
Fixpoint split_newlines (s : jsstring) : list jsstring :=
  match s with
  | [] => [[]]
  | c :: rest =>
      if (c =? LF)%N then [] :: split_newlines rest
      else
        match rest with
        | d :: rest' =>
            if ((c =? CR) && (d =? LF))%N then [] :: split_newlines rest'
            else cons_first c (split_newlines rest)
        | [] => [[c]]
        end
  end.

(** [ls.join(sep)] *)
Fixpoint join (sep : jsstring) (ls : list jsstring) : jsstring :=
  match ls with
  | [] => []
  | [l] => l
  | l :: ls' => l ++ sep ++ join sep ls'
  end.

(** [ls.slice(0, n)] *)
Definition slice0 (n : nat) (ls : list jsstring) : list jsstring :=
  firstn n ls.

(** [s.endsWith(suffix)] *)
Definition endsWith (s suffix : jsstring) : bool :=
  (length suffix <=? length s)%nat
  && eqb (skipn (length s - length suffix) s) suffix.

(** [s.length] *)
Definition jslength (s : jsstring) : Z := Z.of_nat (length s).

End JsString.

Import JsString.

(* ================================================================== *)
(** ** The frontmatter block *)

Module Frontmatter.

Definition delimiter : jsstring := lit "---".
Definition newline : jsstring := [LF].

(** [line.trim() === "---"] *)
Definition is_delimiter (line : jsstring) : bool :=
  JsString.eqb (trim line) delimiter.

(** The [for (let i = 1; i < lines.length; i++)] loop of
    [extractFrontmatterBlock]; [todo] bounds the iterations left and is
    [lines.length] at the call. *)
Fixpoint closing_loop (lines : list jsstring) (i todo : nat)
  : option jsstring :=
  match todo with
  | O => None
  | S todo' =>
      if (i <? length lines)%nat then
        if is_delimiter (nth i lines []) then
          let block := join newline (slice0 (i + 1) lines) in
          Some (if negb (endsWith block newline)
                then block ++ newline else block)
        else closing_loop lines (i + 1) todo'
      else None
  end.

Definition extractFrontmatterBlock (text : jsstring) : option jsstring :=
  let lines := split_newlines text in
  if (length lines =? 0)%nat then None
  else if negb (is_delimiter (nth 0 lines [])) then None
  else closing_loop lines 1 (length lines).

(** [extractFrontmatterBlock(raw)], or the empty string when it is
    [null]: the content [wipeTargetNote] writes back. *)
Definition preservedFrontmatter (raw : jsstring) : jsstring :=
  match extractFrontmatterBlock raw with
  | Some block => block
  | None => []
  end.

(** *** The header block as the specification words it *)

(** The later lines up to and including the first one that trims to the
    delimiter, if there is one. *)
Fixpoint through_closing (later : list jsstring) : option (list jsstring) :=
  match later with
  | [] => None
  | l :: later' =>
      if is_delimiter l then Some [l]
      else match through_closing later' with
           | Some ls => Some (l :: ls)
           | None => None
           end
  end.

Definition header_block_spec (text : jsstring) : jsstring :=
  match split_newlines text with
  | first :: later =>
      if is_delimiter first then
        match through_closing later with
        | Some ls => join newline (first :: ls) ++ newline
        | None => []
        end
      else []
  | [] => []
  end.

Definition sample_note : jsstring :=
  lit "---" ++ [LF] ++ lit "key: v" ++ [LF] ++ lit "---" ++ [LF]
  ++ lit "body text".

Definition sample_header : jsstring :=
  lit "---" ++ [LF] ++ lit "key: v" ++ [LF] ++ lit "---" ++ [LF].

End Frontmatter.

Import Frontmatter.

(* ================================================================== *)
(** ** Numbers *)

Module Numbers.

(** [Math.max] and [Math.min] at the two number types of the model. *)
Class JsNumber (A : Type) := {
  Math_max : A -> A -> A;
  Math_min : A -> A -> A
}.

#[export] Instance JsNumber_Z : JsNumber Z :=
  {| Math_max := Z.max; Math_min := Z.min |}.

#[export] Instance JsNumber_Q : JsNumber Q :=
  {| Math_max := Qmax; Math_min := Qmin |}.

(** [function clamp(n, lo, hi) { return Math.max(lo, Math.min(hi, n)); }] *)
Definition clamp {A : Type} `{JsNumber A} (n lo hi : A) : A :=
  Math_max lo (Math_min hi n).

(** [Math.round]: the nearest integer, a half rounded up. *)
Definition Math_round (x : Q) : Z := Qfloor (x + (1 # 2)).

End Numbers.

Import Numbers.

(* ================================================================== *)
(** ** Numbers in binary64 *)

Module Double.

(** A JavaScript Number is an IEEE 754 binary64 value; its operations are
    those of the Standard Library's [SpecFloat] at precision 53, rounding to
    nearest, ties to even. *)
Definition double : Type := SpecFloat.spec_float.

Definition prec : Z := 53.
Definition emax : Z := 1024.

(** The Number of an integer: of an integer literal, or of [Date.now()]
    (exact below 2^53). *)
Definition of_Z (z : Z) : double :=
  SpecFloat.binary_normalize prec emax z 0 false.

(** [x * y], [x + y] and [x / y] *)
Definition mul : double -> double -> double := SpecFloat.SFmul prec emax.
Definition add : double -> double -> double := SpecFloat.SFadd prec emax.
Definition div : double -> double -> double := SpecFloat.SFdiv prec emax.

(** [x >= y]; false when either side is NaN. *)
Definition ge (x y : double) : bool := SpecFloat.SFleb y x.

(** The Number of a decimal literal [digits / 10^places] whose digits and
    power of ten are exact in binary64: the quotient correctly rounded. *)
Definition decimal (digits : Z) (places : nat) : double :=
  div (of_Z digits) (of_Z (10 ^ Z.of_nat places)).

(** [Math.round]: a Number that is not finite, or is a zero, is returned as
    it is; otherwise the integer nearest to the exact value, a half rounded
    toward +infinity, and a zero of the sign of [x] when that integer is 0.
    The integer is [floor (x + 1/2)], computed exactly. *)
Definition Math_round (x : double) : double :=
  match x with
  | SpecFloat.S754_finite s m e =>
      let v := SpecFloat.cond_Zopp s (Zpos m) in
      let n := match e with
               | Zneg k => ((2 * v + 2 ^ Zpos k) / (2 * 2 ^ Zpos k))%Z
               | _ => (v * 2 ^ e)%Z
               end in
      match n with
      | Z0 => SpecFloat.S754_zero s
      | _ => of_Z n
      end
  | _ => x
  end.

End Double.

(* ================================================================== *)
(** ** The plug-in *)

Module Plugin.

Definition DEFAULT_IDLE_CUTOFF_MS : Z := 5000.
Definition OVERLAY_DELAY_MS : Z := 2000.

(** [interface SessionState] *)
Record SessionState := {
  targetPath : string;
  startedAt : Z;
  durationMs : Double.double;
  idleCutoffMs : Z;
  endsAt : Double.double;
  docLength : Z
}.

Definition set_docLength (n : Z) (s : SessionState) : SessionState :=
  {| targetPath := targetPath s; startedAt := startedAt s;
     durationMs := durationMs s; idleCutoffMs := idleCutoffMs s;
     endsAt := endsAt s; docLength := n |}.

(** *** The host as the plug-in sees it *)

(** The messages shown with [new Notice(...)]. *)
Inductive Notice :=
| NoticeAlreadyRunning              (* "Dangerous mode already running." *)
| NoticeOpenANote                   (* "Open a note to start dangerous mode." *)
| NoticeArmed (minutes : Double.double)
                                    (* "Dangerous mode armed for ... min. ..." *)
| NoticeSessionComplete             (* "Dangerous mode: session complete." *)
| NoticeWiped                       (* "Dangerous mode: idle cutoff ... note wiped." *)
| NoticeWipeFailed.                 (* "Dangerous mode: failed to wipe note (see console)." *)

(** What [vault.getAbstractFileByPath] can return. *)
Inductive AbstractFile := TFile | TFolder.

(** The class tokens of the overlay element. *)
Inductive ClassName :=
| DangerousOverlay                  (* "dangerous-overlay" *)
| IsVisible                         (* "is-visible" *)
| Progress (level : Z).             (* `progress-${level}` *)

Definition class_eqb (a b : ClassName) : bool :=
  match a, b with
  | DangerousOverlay, DangerousOverlay => true
  | IsVisible, IsVisible => true
  | Progress m, Progress n => (m =? n)%Z
  | _, _ => false
  end.

(** [DOMTokenList]: [add], [remove] and [toggle(token, force)]. *)
Definition classList_add (c : ClassName) (l : list ClassName) :=
  if existsb (class_eqb c) l then l else l ++ [c].

Definition classList_remove (c : ClassName) (l : list ClassName) :=
  filter (fun d => negb (class_eqb c d)) l.

Definition classList_toggle (c : ClassName) (force : bool)
           (l : list ClassName) :=
  if force then classList_add c l else classList_remove c l.

Definition classList_contains (c : ClassName) (l : list ClassName) :=
  existsb (class_eqb c) l.

Record OverlayEl := { classList : list ClassName }.

(** The status bar item; its text is "Dangerous mode idle: X.Xs" for the
    number of milliseconds kept here. *)
Record StatusEl := { idleShownMs : Z }.

Record MarkdownView := { viewFile : option string }.

(** [view.setViewData] may be missing, work, or throw. *)
Inductive ViewDataSetter := NoSetter | Setter | ThrowingSetter.

Record Leaf := {
  leafFile : option string;
  viewData : jsstring;
  historyCleared : bool;
  setViewData : ViewDataSetter
}.

(** One changed range handed to the callback of [iterChanges]. *)
Record ChangedRange := {
  fromA : Z; toA : Z; fromB : Z; toB : Z;
  insertedText : jsstring
}.

(** CodeMirror's [EditorView], as far as the host knows it: the file of the
    note that the editor shows. *)
Record EditorView := { editorFile : option string }.

(** CodeMirror's [ViewUpdate]. [update.view] is the editor the transaction
    belongs to, [iterChanges] visits the changed ranges and [docChanged] is
    [!changes.empty]. *)
Record ViewUpdate := {
  update_view : EditorView;
  changes : list ChangedRange
}.

Definition docChanged (u : ViewUpdate) : bool :=
  match changes u with [] => false | _ :: _ => true end.

(** The outcome of an awaited host call: a value, or a thrown error. *)
Inductive Outcome (A : Type) := Resolved (a : A) | Rejected.
Arguments Resolved {A} a.
Arguments Rejected {A}.

(** Where [handleIdleTimeout] is suspended. *)
Inductive Pending :=
| AwaitWipe                         (* [await this.wipeTargetNote()], already settled *)
| AwaitRead (file : string)         (* [await this.app.vault.read(file)] *)
| AwaitModify (file : string) (preserved : jsstring).
                                    (* [await this.app.vault.modify(file, ...)] *)

(** What the plug-in does to its host, in the order it does it. *)
Inductive Effect :=
| ShowNotice (n : Notice)
| VaultRead (file : string)
| VaultModify (file : string) (data : jsstring)
| OverlayProgress (level : Z)       (* [classList.add(`progress-${level}`)] *)
| ConsoleError
| ConsoleDebug.

Record State := {
  (* fields of the plug-in object *)
  active : bool;
  targetFile : option string;
  session : option SessionState;
  lastInsertAt : Z;
  idleTicker : option nat;
  statusEl : option StatusEl;
  idleWarnFired : bool;
  overlayEl : option OverlayEl;
  overlayLevel : Z;
  wiping : bool;
  (* the host: body class, live intervals, vault, open views *)
  noSelect : bool;
  timers : list nat;
  vault : string -> option AbstractFile;
  leaves : list Leaf;
  (* the suspended [handleIdleTimeout], and what the run has done *)
  pending : option Pending;
  trace : list Effect
}.

Definition set_active (v : bool) (st : State) : State :=
  {| active := v; targetFile := targetFile st; session := session st;
     lastInsertAt := lastInsertAt st; idleTicker := idleTicker st;
     statusEl := statusEl st; idleWarnFired := idleWarnFired st;
     overlayEl := overlayEl st; overlayLevel := overlayLevel st;
     wiping := wiping st; noSelect := noSelect st; timers := timers st;
     vault := vault st; leaves := leaves st; pending := pending st;
     trace := trace st |}.

Definition set_targetFile (v : option string) (st : State) : State :=
  {| active := active st; targetFile := v; session := session st;
     lastInsertAt := lastInsertAt st; idleTicker := idleTicker st;
     statusEl := statusEl st; idleWarnFired := idleWarnFired st;
     overlayEl := overlayEl st; overlayLevel := overlayLevel st;
     wiping := wiping st; noSelect := noSelect st; timers := timers st;
     vault := vault st; leaves := leaves st; pending := pending st;
     trace := trace st |}.

Definition set_session (v : option SessionState) (st : State) : State :=
  {| active := active st; targetFile := targetFile st; session := v;
     lastInsertAt := lastInsertAt st; idleTicker := idleTicker st;
     statusEl := statusEl st; idleWarnFired := idleWarnFired st;
     overlayEl := overlayEl st; overlayLevel := overlayLevel st;
     wiping := wiping st; noSelect := noSelect st; timers := timers st;
     vault := vault st; leaves := leaves st; pending := pending st;
     trace := trace st |}.

Definition set_lastInsertAt (v : Z) (st : State) : State :=
  {| active := active st; targetFile := targetFile st;
     session := session st; lastInsertAt := v; idleTicker := idleTicker st;
     statusEl := statusEl st; idleWarnFired := idleWarnFired st;
     overlayEl := overlayEl st; overlayLevel := overlayLevel st;
     wiping := wiping st; noSelect := noSelect st; timers := timers st;
     vault := vault st; leaves := leaves st; pending := pending st;
     trace := trace st |}.

Definition set_idleTicker (v : option nat) (st : State) : State :=
  {| active := active st; targetFile := targetFile st;
     session := session st; lastInsertAt := lastInsertAt st;
     idleTicker := v; statusEl := statusEl st;
     idleWarnFired := idleWarnFired st; overlayEl := overlayEl st;
     overlayLevel := overlayLevel st; wiping := wiping st;
     noSelect := noSelect st; timers := timers st; vault := vault st;
     leaves := leaves st; pending := pending st; trace := trace st |}.

Definition set_statusEl (v : option StatusEl) (st : State) : State :=
  {| active := active st; targetFile := targetFile st;
     session := session st; lastInsertAt := lastInsertAt st;
     idleTicker := idleTicker st; statusEl := v;
     idleWarnFired := idleWarnFired st; overlayEl := overlayEl st;
     overlayLevel := overlayLevel st; wiping := wiping st;
     noSelect := noSelect st; timers := timers st; vault := vault st;
     leaves := leaves st; pending := pending st; trace := trace st |}.

Definition set_idleWarnFired (v : bool) (st : State) : State :=
  {| active := active st; targetFile := targetFile st;
     session := session st; lastInsertAt := lastInsertAt st;
     idleTicker := idleTicker st; statusEl := statusEl st;
     idleWarnFired := v; overlayEl := overlayEl st;
     overlayLevel := overlayLevel st; wiping := wiping st;
     noSelect := noSelect st; timers := timers st; vault := vault st;
     leaves := leaves st; pending := pending st; trace := trace st |}.

Definition set_overlayEl (v : option OverlayEl) (st : State) : State :=
  {| active := active st; targetFile := targetFile st;
     session := session st; lastInsertAt := lastInsertAt st;
     idleTicker := idleTicker st; statusEl := statusEl st;
     idleWarnFired := idleWarnFired st; overlayEl := v;
     overlayLevel := overlayLevel st; wiping := wiping st;
     noSelect := noSelect st; timers := timers st; vault := vault st;
     leaves := leaves st; pending := pending st; trace := trace st |}.

Definition set_overlayLevel (v : Z) (st : State) : State :=
  {| active := active st; targetFile := targetFile st;
     session := session st; lastInsertAt := lastInsertAt st;
     idleTicker := idleTicker st; statusEl := statusEl st;
     idleWarnFired := idleWarnFired st; overlayEl := overlayEl st;
     overlayLevel := v; wiping := wiping st; noSelect := noSelect st;
     timers := timers st; vault := vault st; leaves := leaves st;
     pending := pending st; trace := trace st |}.

Definition set_wiping (v : bool) (st : State) : State :=
  {| active := active st; targetFile := targetFile st;
     session := session st; lastInsertAt := lastInsertAt st;
     idleTicker := idleTicker st; statusEl := statusEl st;
     idleWarnFired := idleWarnFired st; overlayEl := overlayEl st;
     overlayLevel := overlayLevel st; wiping := v; noSelect := noSelect st;
     timers := timers st; vault := vault st; leaves := leaves st;
     pending := pending st; trace := trace st |}.

Definition set_noSelect (v : bool) (st : State) : State :=
  {| active := active st; targetFile := targetFile st;
     session := session st; lastInsertAt := lastInsertAt st;
     idleTicker := idleTicker st; statusEl := statusEl st;
     idleWarnFired := idleWarnFired st; overlayEl := overlayEl st;
     overlayLevel := overlayLevel st; wiping := wiping st; noSelect := v;
     timers := timers st; vault := vault st; leaves := leaves st;
     pending := pending st; trace := trace st |}.

Definition set_timers (v : list nat) (st : State) : State :=
  {| active := active st; targetFile := targetFile st;
     session := session st; lastInsertAt := lastInsertAt st;
     idleTicker := idleTicker st; statusEl := statusEl st;
     idleWarnFired := idleWarnFired st; overlayEl := overlayEl st;
     overlayLevel := overlayLevel st; wiping := wiping st;
     noSelect := noSelect st; timers := v; vault := vault st;
     leaves := leaves st; pending := pending st; trace := trace st |}.

Definition set_vault (v : string -> option AbstractFile) (st : State) : State :=
  {| active := active st; targetFile := targetFile st;
     session := session st; lastInsertAt := lastInsertAt st;
     idleTicker := idleTicker st; statusEl := statusEl st;
     idleWarnFired := idleWarnFired st; overlayEl := overlayEl st;
     overlayLevel := overlayLevel st; wiping := wiping st;
     noSelect := noSelect st; timers := timers st; vault := v;
     leaves := leaves st; pending := pending st; trace := trace st |}.

Definition set_leaves (v : list Leaf) (st : State) : State :=
  {| active := active st; targetFile := targetFile st;
     session := session st; lastInsertAt := lastInsertAt st;
     idleTicker := idleTicker st; statusEl := statusEl st;
     idleWarnFired := idleWarnFired st; overlayEl := overlayEl st;
     overlayLevel := overlayLevel st; wiping := wiping st;
     noSelect := noSelect st; timers := timers st; vault := vault st;
     leaves := v; pending := pending st; trace := trace st |}.

Definition set_pending (v : option Pending) (st : State) : State :=
  {| active := active st; targetFile := targetFile st;
     session := session st; lastInsertAt := lastInsertAt st;
     idleTicker := idleTicker st; statusEl := statusEl st;
     idleWarnFired := idleWarnFired st; overlayEl := overlayEl st;
     overlayLevel := overlayLevel st; wiping := wiping st;
     noSelect := noSelect st; timers := timers st; vault := vault st;
     leaves := leaves st; pending := v; trace := trace st |}.

Definition set_trace (v : list Effect) (st : State) : State :=
  {| active := active st; targetFile := targetFile st;
     session := session st; lastInsertAt := lastInsertAt st;
     idleTicker := idleTicker st; statusEl := statusEl st;
     idleWarnFired := idleWarnFired st; overlayEl := overlayEl st;
     overlayLevel := overlayLevel st; wiping := wiping st;
     noSelect := noSelect st; timers := timers st; vault := vault st;
     leaves := leaves st; pending := pending st; trace := v |}.

Definition emit (e : Effect) (st : State) : State :=
  set_trace (trace st ++ [e]) st.

(** The plug-in after [onload]. *)
Definition loaded (v : string -> option AbstractFile) (ls : list Leaf)
  : State :=
  {| active := false; targetFile := None; session := None;
     lastInsertAt := 0; idleTicker := None; statusEl := None;
     idleWarnFired := false; overlayEl := None; overlayLevel := 0;
     wiping := false; noSelect := false; timers := []; vault := v;
     leaves := ls; pending := None; trace := [] |}.

(** *** Session end *)

Definition clearInterval (id : nat) (l : list nat) : list nat :=
  filter (fun j => negb (Nat.eqb id j)) l.

Definition endSession (st : State) : State :=
  let st := set_active false st in
  let st := set_targetFile None st in
  let st := set_session None st in
  let st :=
    match idleTicker st with
    | Some id => set_idleTicker None (set_timers (clearInterval id (timers st)) st)
    | None => st
    end in
  let st := match statusEl st with
            | Some _ => set_statusEl None st
            | None => st
            end in
  let st := match overlayEl st with
            | Some _ => set_overlayEl None st
            | None => st
            end in
  set_noSelect false st.

(** *** The overlay *)

Definition ensureOverlay (st : State) : State :=
  match overlayEl st with
  | Some _ => st
  | None =>
      set_overlayLevel 0
        (set_overlayEl (Some {| classList := [DangerousOverlay] |}) st)
  end.

Definition setOverlayProgress (p : Q) (st : State) : State :=
  match overlayEl st with
  | None => st
  | Some el =>
      let level := clamp (Math_round (p * 10)) 0%Z 10%Z in
      if (level =? overlayLevel st)%Z then st
      else
        let cl := classList_remove (Progress (overlayLevel st)) (classList el) in
        let cl := classList_add (Progress level) cl in
        set_overlayLevel level
          (emit (OverlayProgress level)
             (set_overlayEl (Some {| classList := cl |}) st))
  end.

Definition setOverlayVisible (v : bool) (st : State) : State :=
  match overlayEl st with
  | None => st
  | Some el =>
      set_overlayEl
        (Some {| classList := classList_toggle IsVisible v (classList el) |})
        st
  end.

(** *** The wipe *)

(** [wipeTargetNote] up to its first suspension. When it returns without
    any host call the caller's [await] is already settled. *)
Definition wipeTargetNote (st : State) : State :=
  match session st with
  | None => set_pending (Some AwaitWipe) st
  | Some s =>
      match vault st (targetPath s) with
      | Some TFile =>
          set_pending (Some (AwaitRead (targetPath s)))
            (emit (VaultRead (targetPath s)) st)
      | _ => set_pending (Some AwaitWipe) st
      end
  end.

(** [handleIdleTimeout] up to its suspension at [await]. *)
Definition handleIdleTimeout (st : State) : State :=
  if negb (active st) || wiping st then st
  else wipeTargetNote (set_wiping true st).

(** The [finally] block, then the end of [handleIdleTimeout]. *)
Definition finally_block (st : State) : State :=
  set_pending None (set_wiping false (endSession st)).

(** [handleIdleTimeout] resumed after [wipeTargetNote] fulfilled. *)
Definition wipe_fulfilled (st : State) : State :=
  finally_block (emit (ShowNotice NoticeWiped) st).

(** [handleIdleTimeout] resumed in its [catch] block. *)
Definition wipe_rejected (st : State) : State :=
  finally_block (emit (ShowNotice NoticeWipeFailed) (emit ConsoleError st)).

(** The body of the loop over the leaves, for a leaf of the target. *)
Definition clear_leaf (target : string) (preserved : jsstring) (lf : Leaf)
  : Leaf * list Effect :=
  match leafFile lf with
  | Some path =>
      if String.eqb path target then
        match setViewData lf with
        | NoSetter => (lf, [])
        | Setter =>
            ({| leafFile := leafFile lf; viewData := preserved;
                historyCleared := true; setViewData := Setter |}, [])
        | ThrowingSetter => (lf, [ConsoleDebug])
        end
      else (lf, [])
  | None => (lf, [])
  end.

Fixpoint clear_leaves (target : string) (preserved : jsstring)
         (ls : list Leaf) : list Leaf * list Effect :=
  match ls with
  | [] => ([], [])
  | lf :: ls' =>
      let (lf', e) := clear_leaf target preserved lf in
      let (ls'', es) := clear_leaves target preserved ls' in
      (lf' :: ls'', e ++ es)
  end.

(** The loop [for (const leaf of leaves)] of [wipeTargetNote]. Its test
    reads [this.session.targetPath], which throws when the session has
    been released meanwhile and there is a leaf to test: [None]. *)
Definition clear_views (preserved : jsstring) (st : State) : option State :=
  match leaves st with
  | [] => Some st
  | _ :: _ =>
      match session st with
      | None => None
      | Some s =>
          let (ls, es) := clear_leaves (targetPath s) preserved (leaves st) in
          Some (set_trace (trace st ++ es) (set_leaves ls st))
      end
  end.

(** [vault.read] settled. *)
Definition readDone (r : Outcome jsstring) (st : State) : State :=
  match pending st with
  | Some (AwaitRead file) =>
      match r with
      | Resolved raw =>
          let preserved := preservedFrontmatter raw in
          set_pending (Some (AwaitModify file preserved))
            (emit (VaultModify file preserved) st)
      | Rejected => wipe_rejected st
      end
  | _ => st
  end.

(** [vault.modify] settled. *)
Definition modifyDone (r : Outcome unit) (st : State) : State :=
  match pending st with
  | Some (AwaitModify file preserved) =>
      match r with
      | Resolved _ =>
          match clear_views preserved st with
          | Some st' => set_pending (Some AwaitWipe) st'
          | None => wipe_rejected st
          end
      | Rejected => wipe_rejected st
      end
  | _ => st
  end.

(** The microtask that resumes [handleIdleTimeout] once [wipeTargetNote]
    has fulfilled; it runs before any other event is delivered. *)
Definition microtask (st : State) : State :=
  match pending st with
  | Some AwaitWipe => wipe_fulfilled st
  | _ => st
  end.

(** *** The periodic evaluation *)

(** The end-of-session test of [update]: [now >= this.session.endsAt],
    a comparison of two Numbers. *)
Definition sessionOver (now : Z) (s : SessionState) : bool :=
  Double.ge (Double.of_Z now) (endsAt s).

(** The closure [update] of [startIdleTicker], run at time [now]. *)
Definition update (now : Z) (st : State) : State :=
  if negb (active st) then st else
  match session st with
  | None => st
  | Some s =>
      if sessionOver now s then
        endSession (emit (ShowNotice NoticeSessionComplete) st)
      else
        let idleMs := (now - lastInsertAt st)%Z in
        let remaining := (idleCutoffMs s - idleMs)%Z in
        let overlayDelay := Math_min OVERLAY_DELAY_MS (idleCutoffMs s) in
        let st :=
          if (idleMs >=? overlayDelay)%Z then
            let denom := Math_max 1%Z (idleCutoffMs s - overlayDelay)%Z in
            let p := clamp (inject_Z (idleMs - overlayDelay) / inject_Z denom)
                           0%Q 1%Q in
            setOverlayProgress p (setOverlayVisible true st)
          else
            setOverlayProgress 0 (setOverlayVisible false st) in
        match statusEl st with
        | None => st
        | Some _ =>
            if (remaining >? 0)%Z then
              set_statusEl (Some {| idleShownMs := remaining |}) st
            else
              handleIdleTimeout
                (set_statusEl (Some {| idleShownMs := 0 |}) st)
        end
  end.

Definition setInterval (l : list nat) : nat := S (list_max l).

Definition startIdleTicker (now : Z) (st : State) : State :=
  match session st with
  | None => st
  | Some _ =>
      let id := setInterval (timers st) in
      update now (set_idleTicker (Some id) (set_timers (id :: timers st) st))
  end.

(** *** Starting a session *)

(** [startSessionFlow] up to [await pickDuration(...)]; [true] when the
    duration dialog is opened. *)
Definition startSessionFlow (view : option MarkdownView) (st : State)
  : State * bool :=
  if active st then (emit (ShowNotice NoticeAlreadyRunning) st, false)
  else
    match view with
    | Some {| viewFile := Some _ |} => (st, true)
    | _ => (emit (ShowNotice NoticeOpenANote) st, false)
    end.

(** [startSessionFlow] resumed with the picked minutes, for the view it
    captured: the file path, the editor content if there is an editor, and
    the two clock readings ([startedAt], and the first [update]). *)
Definition startSessionFlow_picked (startedAt now : Z) (path : string)
           (editorValue : option jsstring) (minutes : Double.double)
           (st : State)
  : State :=
  let durationMs :=
    Double.Math_round (Double.mul minutes (Double.of_Z 60000)) in
  let endsAt := Double.add (Double.of_Z startedAt) durationMs in
  let idleCutoffMs := DEFAULT_IDLE_CUTOFF_MS in
  let st := set_active true st in
  let st := set_targetFile (Some path) st in
  let st :=
    set_session
      (Some {| targetPath := path; startedAt := startedAt;
               durationMs := durationMs; idleCutoffMs := idleCutoffMs;
               endsAt := endsAt;
               docLength := match editorValue with
                            | Some v => jslength v
                            | None => 0%Z
                            end |}) st in
  let st := set_lastInsertAt startedAt st in
  let st := set_statusEl (Some {| idleShownMs := idleCutoffMs |}) st in
  let st := set_idleWarnFired false st in
  let st := ensureOverlay st in
  let st := set_noSelect true st in
  let st := startIdleTicker now st in
  emit (ShowNotice (NoticeArmed minutes)) st.

(** *** The two insertion channels *)

(** The listener registered with [EditorView.updateListener.of]. The view
    it tests is the active view of the workspace, [activeView]; it does not
    read [update.view]. *)
Definition updateListener (now : Z) (activeView : option MarkdownView)
           (u : ViewUpdate) (st : State) : State :=
  if negb (active st) then st else
  match session st with
  | None => st
  | Some s =>
      match activeView with
      | Some {| viewFile := Some path |} =>
          if negb (String.eqb path (targetPath s)) then st
          else if negb (docChanged u) then st
          else
            let inserted :=
              fold_left (fun acc ch => (acc + jslength (insertedText ch))%Z)
                        (changes u) 0%Z in
            if (inserted >? 0)%Z then
              set_idleWarnFired false (set_lastInsertAt now st)
            else st
      | _ => st
      end
  end.

(** The handler of the workspace event "editor-change"; [value] is
    [editor.getValue()]. [docLength] is a number, so the fallback of
    [this.session.docLength ?? newLen] is never taken. *)
Definition editorChange (now : Z) (value : jsstring)
           (view : option MarkdownView) (st : State) : State :=
  if negb (active st) then st else
  match session st with
  | None => st
  | Some s =>
      match view with
      | Some {| viewFile := Some path |} =>
          if negb (String.eqb path (targetPath s)) then st
          else
            let newLen := jslength value in
            let prevLen := docLength s in
            let st :=
              if (newLen >? prevLen)%Z then
                set_idleWarnFired false (set_lastInsertAt now st)
              else st in
            set_session (Some (set_docLength newLen s)) st
      | _ => st
      end
  end.

(** *** Events and runs *)

Inductive Event :=
| Tick (now : Z)
| Command (view : option MarkdownView)
| Picked (startedAt now : Z) (path : string)
         (editorValue : option jsstring) (minutes : Double.double)
| CmUpdate (now : Z) (activeView : option MarkdownView) (u : ViewUpdate)
| EditorChange (now : Z) (value : jsstring) (view : option MarkdownView)
| ReadDone (r : Outcome jsstring)
| ModifyDone (r : Outcome unit)
| Unload
| VaultChanged (v : string -> option AbstractFile)
| LeavesChanged (ls : list Leaf).

Definition handle (ev : Event) (st : State) : State :=
  match ev with
  | Tick now => update now st
  | Command view => fst (startSessionFlow view st)
  | Picked startedAt now path editorValue minutes =>
      startSessionFlow_picked startedAt now path editorValue minutes st
  | CmUpdate now activeView u => updateListener now activeView u st
  | EditorChange now value view => editorChange now value view st
  | ReadDone r => readDone r st
  | ModifyDone r => modifyDone r st
  | Unload => endSession st
  | VaultChanged v => set_vault v st
  | LeavesChanged ls => set_leaves ls st
  end.

(** One turn of the event loop: the handler, then the microtasks. *)
Definition step (ev : Event) (st : State) : State :=
  microtask (handle ev st).

Definition run (evs : list Event) (st : State) : State :=
  fold_left (fun st ev => step ev st) evs st.

Inductive reachable : State -> Prop :=
| reach_loaded : forall v ls, reachable (loaded v ls)
| reach_step : forall ev st, reachable st -> reachable (step ev st).

(** An armed plug-in has its session, status item and overlay; a plug-in
    at rest has none of them. A continuation is pending exactly while
    [wiping] is set, and the stored overlay level is one of 0..10. *)
Definition consistent (st : State) : Prop :=
  (active st = true ->
     session st <> None /\ statusEl st <> None /\ overlayEl st <> None)
  /\ (active st = false ->
        session st = None /\ statusEl st = None /\ overlayEl st = None
        /\ idleTicker st = None)
  /\ (wiping st = false <-> pending st = None)
  /\ (0 <= overlayLevel st <= 10)%Z.

(** Between two events no microtask is left to run. *)
Definition settled (st : State) : Prop :=
  consistent st /\ pending st <> Some AwaitWipe.

(** What the two overlay setters leave alone. *)
Definition overlay_frame (a b : State) : Prop :=
  active b = active a /\ session b = session a
  /\ lastInsertAt b = lastInsertAt a /\ idleTicker b = idleTicker a
  /\ statusEl b = statusEl a /\ wiping b = wiping a
  /\ pending b = pending a /\ vault b = vault a
  /\ (overlayEl b = None <-> overlayEl a = None).

End Plugin.

Import Plugin.

(* ================================================================== *)
(** ** What a run shows, and the words of the specification *)

Module Observe.

(** The calls to [vault.read] and [vault.modify] in a trace. *)
Definition is_vault_call (e : Effect) : bool :=
  match e with
  | VaultRead _ | VaultModify _ _ => true
  | _ => false
  end.

Definition vault_calls (tr : list Effect) : list Effect :=
  filter is_vault_call tr.

(** The content replacements in a trace. *)
Definition is_replacement (e : Effect) : bool :=
  match e with
  | VaultModify _ _ => true
  | _ => false
  end.

Definition replacements (tr : list Effect) : list Effect :=
  filter is_replacement tr.

(** The intensity emissions in a trace. *)
Definition is_emission (e : Effect) : bool :=
  match e with
  | OverlayProgress _ => true
  | _ => false
  end.

Definition emissions (tr : list Effect) : nat :=
  length (filter is_emission tr).

(** The events that settle a pending host call. *)
Definition is_completion (ev : Event) : bool :=
  match ev with
  | ReadDone _ | ModifyDone _ => true
  | _ => false
  end.

(** A session that has been ended: nothing of it is left. *)
Definition at_rest (st : State) : Prop :=
  active st = false /\ targetFile st = None /\ session st = None
  /\ idleTicker st = None /\ statusEl st = None /\ overlayEl st = None
  /\ noSelect st = false.

(** The sum of the inserted lengths of an editor transaction. *)
Definition inserted_sum (u : ViewUpdate) : Z :=
  fold_right (fun ch acc => (jslength (insertedText ch) + acc)%Z) 0%Z
             (changes u).

Definition view_of (path : string) : option MarkdownView :=
  Some {| viewFile := Some path |}.

(** A qualifying insertion into the target of session [s] at time [t]:
    a positive inserted sum on the primary channel, or a net growth of the
    document on the fallback channel. *)
Inductive Qualifying (s : SessionState) (t : Z) : Event -> Prop :=
| qualifying_primary : forall u,
    (inserted_sum u > 0)%Z ->
    Qualifying s t (CmUpdate t (view_of (targetPath s)) u)
| qualifying_fallback : forall value,
    (jslength value > docLength s)%Z ->
    Qualifying s t (EditorChange t value (view_of (targetPath s))).

(** The overlay intensity as the specification words it. *)
Definition overlay_level_spec (idleMs idleCutoffMs : Z) : Z :=
  let overlayDelay := Z.min 2000 idleCutoffMs in
  if (idleMs <? overlayDelay)%Z then 0%Z
  else
    clamp
      (Math_round
         (clamp (inject_Z (idleMs - overlayDelay)
                 / inject_Z (Z.max 1 (idleCutoffMs - overlayDelay)))
                0%Q 1%Q * 10))
      0%Z 10%Z.

Definition overlay_visible (st : State) : bool :=
  match overlayEl st with
  | Some el => classList_contains IsVisible (classList el)
  | None => false
  end.

(** What a handler that starts no wipe and settles none leaves alone. *)
Definition flight_frame (a b : State) : Prop :=
  wiping b = wiping a /\ pending b = pending a
  /\ vault_calls (trace b) = vault_calls (trace a).

(** What leaves the overlay intensity and its emissions alone. *)
Definition emission_frame (a b : State) : Prop :=
  overlayLevel b = overlayLevel a
  /\ emissions (trace b) = emissions (trace a).

(** One emission exactly when the stored level has changed. *)
Definition level_change (a b : State) : nat :=
  if (overlayLevel b =? overlayLevel a)%Z then 0%nat else 1%nat.

Definition emits_on_change (a b : State) : Prop :=
  emissions (trace b) = (emissions (trace a) + level_change a b)%nat.

(** The ticks of an idle streak, at the given times. *)
Definition streak (nows : list Z) : list Event := map Tick nows.

(** A plug-in with no session and no wipe under way. *)
Definition released (st : State) : Prop :=
  at_rest st /\ wiping st = false /\ pending st = None.

(** The two halves of [update] for a session [s] that has not expired:
    the overlay, then the status item and the idle cutoff. *)
Definition tick_overlay (now : Z) (s : SessionState) (st : State) : State :=
  let idleMs := (now - lastInsertAt st)%Z in
  let overlayDelay := Math_min OVERLAY_DELAY_MS (idleCutoffMs s) in
  if (idleMs >=? overlayDelay)%Z then
    let denom := Math_max 1%Z (idleCutoffMs s - overlayDelay)%Z in
    let p := clamp (inject_Z (idleMs - overlayDelay) / inject_Z denom)
                   0%Q 1%Q in
    setOverlayProgress p (setOverlayVisible true st)
  else
    setOverlayProgress 0 (setOverlayVisible false st).

Definition tick_status (remaining : Z) (st : State) : State :=
  match statusEl st with
  | None => st
  | Some _ =>
      if (remaining >? 0)%Z then
        set_statusEl (Some {| idleShownMs := remaining |}) st
      else
        handleIdleTimeout (set_statusEl (Some {| idleShownMs := 0 |}) st)
  end.

(** *** Sample states *)

Definition note_path : string := "note.md".

Definition sample_vault (p : string) : option AbstractFile :=
  if String.eqb p note_path then Some TFile else None.

Definition sample_leaves : list Leaf :=
  [ {| leafFile := Some note_path; viewData := sample_note;
       historyCleared := false; setViewData := Setter |} ].

(** A five-minute session armed at time 0 on the sample note. *)
Definition armed : State :=
  step (Picked 0 0 note_path (Some sample_note) (Double.of_Z 5))
       (loaded sample_vault sample_leaves).

(** Its session object. *)
Definition sample_session : SessionState :=
  {| targetPath := note_path; startedAt := 0;
     durationMs := Double.of_Z 300000; idleCutoffMs := 5000;
     endsAt := Double.of_Z 300000; docLength := 24 |}.

(** The same session when the vault holds no such file. *)
Definition armed_unresolved : State :=
  step (Picked 0 0 note_path (Some sample_note) (Double.of_Z 5))
       (step (VaultChanged (fun _ => None))
             (loaded sample_vault sample_leaves)).

(** The armed session with its idle wipe suspended at the read. *)
Definition reading : State := step (Tick 5000) armed.

(** ... and suspended at the write. *)
Definition writing : State := step (ReadDone (Resolved sample_note)) reading.

(** One typed character, in the editor of the sample note. *)
Definition typed : ViewUpdate :=
  {| update_view := {| editorFile := Some note_path |};
     changes := [ {| fromA := 0; toA := 0; fromB := 0; toB := 1;
                     insertedText := lit "a" |} ] |}.

(** The sample session left idle until 4000 ms, then resumed at 4050 ms:
    the stored intensity is 7 when the next idle streak begins. *)
Definition resumed : State :=
  run [Tick 4000; CmUpdate 4050 (view_of note_path) typed] armed.

(** The ticks of that next streak, none of them at the cutoff. *)
Definition second_streak : list Z :=
  [4100; 6300; 6600; 6900; 7200; 7500; 7800; 8100; 8400; 8700; 9000]%Z.

End Observe.

Import Observe.

(* ================================================================== *)
(** ** The input guards *)

Module Guards.

(** The two flags a handler can raise on a DOM event. *)
Record EventFlags := {
  defaultPrevented : bool;
  propagationStopped : bool
}.

Definition untouched : EventFlags :=
  {| defaultPrevented := false; propagationStopped := false |}.

Definition preventDefault (e : EventFlags) : EventFlags :=
  {| defaultPrevented := true; propagationStopped := propagationStopped e |}.

Definition stopPropagation (e : EventFlags) : EventFlags :=
  {| defaultPrevented := defaultPrevented e; propagationStopped := true |}.

Record KeyboardEvent := {
  key : jsstring;
  metaKey : bool;
  ctrlKey : bool;
  shiftKey : bool
}.

(** The document events the plug-in listens to in the capture phase. *)
Inductive DomEvent :=
| Keydown (k : KeyboardEvent)
| Copy | Cut | Paste
| ContextMenu
| SelectStart
| DragOver
| Drop.

(** [function isMod(e) { return e.metaKey || e.ctrlKey; }] *)
Definition isMod (e : KeyboardEvent) : bool := metaKey e || ctrlKey e.

Section WithLowerCase.

(** [String.prototype.toLowerCase], a parameter of the guards. *)
Variable toLowerCase : jsstring -> jsstring.

(** [function keyEq(e, char)] *)
Definition keyEq (e : KeyboardEvent) (char : jsstring) : bool :=
  JsString.eqb (toLowerCase (key e)) (toLowerCase char).

(** The listeners of [attachGlobalGuards], each reading the live [active]
    flag; the result is the event as the later listeners find it. *)
Definition guard (st : State) (ev : DomEvent) (e : EventFlags) : EventFlags :=
  match ev with
  | Keydown k =>
      if negb (active st) then e
      else
        let mod_ := isMod k in
        if (mod_ && (keyEq k (lit "c") || keyEq k (lit "x") || keyEq k (lit "v")
                    || keyEq k (lit "a") || keyEq k (lit "z")
                    || keyEq k (lit "y")))
           || (shiftKey k && mod_ && keyEq k (lit "z"))
        then stopPropagation (preventDefault e)
        else e
  | Copy | Cut | Paste =>
      if negb (active st) then e else stopPropagation (preventDefault e)
  | ContextMenu =>
      if negb (active st) then e else stopPropagation (preventDefault e)
  | SelectStart =>
      if negb (active st) then e else stopPropagation (preventDefault e)
  | DragOver =>
      if negb (active st) then e else preventDefault e
  | Drop =>
      if negb (active st) then e else stopPropagation (preventDefault e)
  end.

End WithLowerCase.

(** The event types [attachGlobalGuards] registers a listener for. *)
Inductive Listener :=
| OnKeydown | OnCopy | OnCut | OnPaste | OnContextMenu | OnSelectStart
| OnDragOver | OnDrop.

(** [handlersAttached] and the listeners registered so far. *)
Record Registry := {
  handlersAttached : bool;
  listeners : list Listener
}.

Definition attachGlobalGuards (r : Registry) : Registry :=
  if handlersAttached r then r
  else
    {| handlersAttached := true;
       listeners := listeners r
                    ++ [OnKeydown] ++ [OnCopy; OnCut; OnPaste]
                    ++ [OnContextMenu] ++ [OnSelectStart] ++ [OnDragOver]
                    ++ [OnDrop] |}.

(** The lower case of one ASCII code unit. *)
Definition ascii_lower (c : N) : N :=
  if ((65 <=? c) && (c <=? 90))%N then (c + 32)%N else c.

(** A [toLowerCase] for the instances: unit by unit, on the ASCII letters. *)
Definition lower_units (s : jsstring) : jsstring := map ascii_lower s.

End Guards.

Import Guards.

(* ================================================================== *)
(** ** The duration dialog *)

Module Picker.

(** A JavaScript number as [Number(input.value)] can give it. *)
Inductive NumberValue := NaN | Infinite (negative : bool) | Finite (q : Q).

(** [Number.isFinite(n)] *)
Definition isFinite (n : NumberValue) : bool :=
  match n with Finite _ => true | _ => false end.

(** [n <= 0] *)
Definition le_zero (n : NumberValue) : bool :=
  match n with
  | NaN => false
  | Infinite negative => negative
  | Finite q => match Qcompare q 0 with Gt => false | _ => true end
  end.

Inductive PickerEffect :=
| OnResult (n : option NumberValue)     (* [this.onResult(n)] *)
| InvalidDuration                    (* [new Notice("Invalid duration")] *)
| FocusInput                         (* [input.focus()] *)
| SelectInput.                       (* [input.select()] *)

(** [DurationPickerModal]: its [resolved] flag, whether the host still shows
    it, and what it has done. *)
Record Modal := {
  resolved : bool;
  shown : bool;
  done : list PickerEffect
}.

Definition quickOpts : list Q := [5; 10; 15].

(** The modal after [open()]: [onOpen] has built the controls and focused
    the input. *)
Definition opened : Modal :=
  {| resolved := false; shown := true; done := [FocusInput] |}.

(** [onClose] *)
Definition onClose (m : Modal) : Modal :=
  if negb (resolved m) then
    {| resolved := resolved m; shown := shown m;
       done := done m ++ [OnResult None] |}
  else m.

(** [this.close()]: the host hides the modal and calls [onClose]. *)
Definition close (m : Modal) : Modal :=
  onClose {| resolved := resolved m; shown := false; done := done m |}.

Definition choose (minutes : Q) (m : Modal) : Modal :=
  close {| resolved := true; shown := shown m;
           done := done m ++ [OnResult (Some (Finite minutes))] |}.

(** [submit(input)], for [n = Number(input.value)]. *)
Definition submit (n : NumberValue) (m : Modal) : Modal :=
  if negb (isFinite n) || le_zero n then
    {| resolved := resolved m; shown := shown m;
       done := done m ++ [InvalidDuration; FocusInput; SelectInput] |}
  else
    close {| resolved := true; shown := shown m;
             done := done m ++ [OnResult (Some n)] |}.

Definition cancel (m : Modal) : Modal :=
  close {| resolved := true; shown := shown m;
           done := done m ++ [OnResult None] |}.

(** What the user can do with the dialog while it is shown. *)
Inductive Action :=
| ClickQuick (i : nat)               (* the i-th quick button *)
| Submit (n : NumberValue)              (* Enter in the input, or Start *)
| ClickCancel
| Dismiss.                           (* Escape, or a click outside *)

Definition act (a : Action) (m : Modal) : Modal :=
  if negb (shown m) then m
  else
    match a with
    | ClickQuick i =>
        match nth_error quickOpts i with
        | Some minutes => choose minutes m
        | None => m
        end
    | Submit n => submit n m
    | ClickCancel => cancel m
    | Dismiss => close m
    end.

Definition acts (l : list Action) (m : Modal) : Modal :=
  fold_left (fun m a => act a m) l m.

(** The values handed to [onResult], in order. *)
Fixpoint results (l : list PickerEffect) : list (option NumberValue) :=
  match l with
  | [] => []
  | OnResult n :: l' => n :: results l'
  | _ :: l' => results l'
  end.

(** A value [pickDuration] may resolve with: [null], or a finite number
    above zero. *)
Definition acceptable (r : option NumberValue) : Prop :=
  match r with
  | None => True
  | Some (Finite q) => 0 < q
  | Some _ => False
  end.

End Picker.

(* ================================================================== *)
(** ** More observations *)

Module Observe2.

(** The intensity classes on the overlay element. *)
Definition is_progress (c : ClassName) : bool :=
  match c with Progress _ => true | _ => false end.

Definition progress_classes (st : State) : list ClassName :=
  match overlayEl st with
  | Some el => filter is_progress (classList el)
  | None => []
  end.

(** The clock after an event, when the times the event carries do not run
    behind the clock [c]. *)
Definition tick_clock (c : Z) (ev : Event) : option Z :=
  match ev with
  | Tick now | CmUpdate now _ _ | EditorChange now _ _ =>
      if (c <=? now)%Z then Some now else None
  | Picked startedAt now _ _ _ =>
      if ((c <=? startedAt) && (startedAt <=? now))%Z then Some now else None
  | _ => Some c
  end.

(** A run whose clock readings never go back, and the clock at its end. *)
Fixpoint clock_after (c : Z) (evs : list Event) : option Z :=
  match evs with
  | [] => Some c
  | ev :: evs' =>
      match tick_clock c ev with
      | Some c' => clock_after c' evs'
      | None => None
      end
  end.

(** Some change of the transaction inserts text. *)
Definition inserts_text (u : ViewUpdate) : Prop :=
  exists ch, In ch (changes u) /\ insertedText ch <> [].

(** What the loop of the wipe does to one leaf, for the target and the
    preserved content. *)
Definition leaf_after_wipe (target : string) (preserved : jsstring)
           (lf : Leaf) : Leaf :=
  if match leafFile lf with
     | Some path => String.eqb path target
     | None => false
     end
  then
    match setViewData lf with
    | Setter =>
        {| leafFile := leafFile lf; viewData := preserved;
           historyCleared := true; setViewData := Setter |}
    | _ => lf
    end
  else lf.

(** The sample session released by [onunload] while its write is pending. *)
Definition unloaded_writing : State := step Unload writing.

(** A positive duration that rounds to no millisecond at all:
    [Number("0.000001")], that is 0x1.0c6f7a0b5ed8dp-20. *)
Definition tiny_minutes : Double.double := Double.decimal 1 6.

(** [Number("0.000075")], that is 0x1.3a92a30553261p-14: the exact product
    of this Number by 60000 is below 4.5, and the binary64 product is 4.5. *)
Definition short_minutes : Double.double := Double.decimal 75 6.

(** [Number("1e305")], that is 0x1.23a516e82d9bap+1013: its product by
    60000 exceeds every finite Number. *)
Definition huge_minutes : Double.double := Double.of_Z (10 ^ 305).

(** The mantissa of the binary64 form of an integer of at most 53 bits:
    the integer shifted to 53 bits. *)
Definition normal_mantissa (p : positive) : positive :=
  match (Zpos (SpecFloat.digits2_pos p) - 53)%Z with
  | Zneg k => Pos.iter xO p k
  | _ => p
  end.

(** The session object that [startSessionFlow] builds. *)
Definition new_session (startedAt : Z) (path : string)
           (editorValue : option jsstring) (minutes : Double.double)
  : SessionState :=
  {| targetPath := path; startedAt := startedAt;
     durationMs :=
       Double.Math_round (Double.mul minutes (Double.of_Z 60000));
     idleCutoffMs := DEFAULT_IDLE_CUTOFF_MS;
     endsAt :=
       Double.add (Double.of_Z startedAt)
         (Double.Math_round (Double.mul minutes (Double.of_Z 60000)));
     docLength := match editorValue with
                  | Some v => jslength v
                  | None => 0%Z
                  end |}.

(** Three characters deleted, in the editor of the sample note. *)
Definition erased : ViewUpdate :=
  {| update_view := {| editorFile := Some note_path |};
     changes := [ {| fromA := 0; toA := 3; fromB := 0; toB := 0;
                     insertedText := [] |} ] |}.

(** Another note, and one character typed in its editor. *)
Definition other_path : string := "other.md".

Definition typed_elsewhere : ViewUpdate :=
  {| update_view := {| editorFile := Some other_path |};
     changes := [ {| fromA := 0; toA := 0; fromB := 0; toB := 1;
                     insertedText := lit "a" |} ] |}.

End Observe2.

Import Observe2.

(* ================================================================== *)
(** * Properties *)

(** ** Strings and lines *)

Section Lines.

Lemma cons_first_no_LF (c : N) (ls : list jsstring) :
  c <> LF ->
  Forall (fun l => ~ In LF l) ls ->
  Forall (fun l => ~ In LF l) (cons_first c ls).
Proof.
  intros Hc Hls. destruct ls as [|l ls']; simpl.
  - constructor; [|constructor]. intros [H|[]]. congruence.
  - inversion Hls; subst. constructor; [|assumption].
    intros [H|H]; [congruence|contradiction].
Qed.

(** No line of the split holds a line feed. *)
Lemma split_newlines_no_LF (s : jsstring) :
  Forall (fun l => ~ In LF l) (split_newlines s).
Proof.
  remember (length s) as n eqn:Hn.
  revert s Hn. induction n as [n IH] using lt_wf_ind. intros s Hn.
  destruct s as [|c rest]; simpl.
  - constructor; [intros []|constructor].
  - destruct (N.eqb_spec c LF) as [Hc|Hc].
    + constructor; [intros []|].
      apply (IH (length rest)); subst; simpl; lia.
    + destruct rest as [|d rest'].
      * constructor; [|constructor]. intros [H|[]]. congruence.
      * destruct ((c =? CR)%N && (d =? LF)%N).
        -- constructor; [intros []|].
           apply (IH (length rest')); subst; simpl; lia.
        -- apply cons_first_no_LF; [assumption|].
           apply (IH (length (d :: rest'))); subst; simpl; lia.
Qed.

Lemma split_newlines_nonempty (s : jsstring) : split_newlines s <> [].
Proof.
  destruct s as [|c rest]; simpl; [discriminate|].
  destruct (c =? LF)%N; [discriminate|].
  destruct rest as [|d rest']; [discriminate|].
  destruct ((c =? CR)%N && (d =? LF)%N); [discriminate|].
  destruct (split_newlines (d :: rest')); discriminate.
Qed.

Lemma is_delimiter_nonempty (l : jsstring) :
  is_delimiter l = true -> l <> [].
Proof. intros H ->. discriminate H. Qed.

Lemma join_snoc (sep : jsstring) (ls : list jsstring) (l : jsstring) :
  join sep (ls ++ [l]) =
  match ls with [] => l | _ :: _ => join sep ls ++ sep ++ l end.
Proof.
  induction ls as [|a ls IH]; [reflexivity|].
  destruct ls as [|b ls'].
  - reflexivity.
  - change (join sep ((a :: b :: ls') ++ [l]))
      with (a ++ sep ++ join sep ((b :: ls') ++ [l])).
    rewrite IH. change (join sep (a :: b :: ls'))
      with (a ++ sep ++ join sep (b :: ls')).
    now rewrite <- !app_assoc.
Qed.

Lemma endsWith_newline_snoc (s : jsstring) (c : N) :
  c <> LF -> endsWith (s ++ [c]) newline = false.
Proof.
  intros Hc. unfold endsWith, newline.
  rewrite length_app. simpl length.
  replace (length s + 1 - 1)%nat with (length s + 0)%nat by lia.
  rewrite skipn_app, Nat.add_0_r, skipn_all.
  replace (length s - length s)%nat with 0%nat by lia. simpl.
  destruct (N.eqb_spec c LF); [contradiction|].
  now rewrite andb_false_r.
Qed.

(** A block that ends with a delimiter line never ends with a line feed,
    so the line feed is always appended. *)
Lemma block_needs_newline (pre : list jsstring) (l : jsstring) :
  is_delimiter l = true -> ~ In LF l ->
  endsWith (join newline (pre ++ [l])) newline = false.
Proof.
  intros Hd Hl.
  destruct (exists_last (is_delimiter_nonempty l Hd)) as (l' & c & ->).
  assert (c <> LF) by (intros ->; apply Hl, in_or_app; right; now left).
  rewrite join_snoc. destruct pre.
  - now apply endsWith_newline_snoc.
  - rewrite !app_assoc. now apply endsWith_newline_snoc.
Qed.

Lemma closing_loop_spec (rest pre : list jsstring) (todo : nat) :
  (length rest <= todo)%nat ->
  Forall (fun l => ~ In LF l) rest ->
  closing_loop (pre ++ rest) (length pre) todo =
  match through_closing rest with
  | Some ls => Some (join newline (pre ++ ls) ++ newline)
  | None => None
  end.
Proof.
  revert pre todo.
  induction rest as [|l rest IH]; intros pre todo Hlen Hlf.
  - destruct todo; simpl; [reflexivity|].
    rewrite app_nil_r, Nat.ltb_irrefl. reflexivity.
  - destruct todo as [|todo]; [simpl in Hlen; lia|].
    inversion Hlf as [|? ? Hl Hrest]; subst.
    cbn [closing_loop through_closing].
    replace (length pre <? length (pre ++ l :: rest))%nat with true
      by (symmetry; apply Nat.ltb_lt; rewrite length_app; simpl; lia).
    rewrite nth_middle.
    destruct (is_delimiter l) eqn:Hd.
    + unfold slice0.
      replace (firstn (length pre + 1) (pre ++ l :: rest)) with (pre ++ [l]).
      * now rewrite (block_needs_newline pre l Hd Hl).
      * rewrite firstn_app, firstn_all2 by lia.
        replace (length pre + 1 - length pre)%nat with 1%nat by lia.
        reflexivity.
    + specialize (IH (pre ++ [l]) todo).
      rewrite <- app_assoc, length_app in IH. simpl in IH.
      rewrite IH by (simpl in Hlen; auto with arith).
      destruct (through_closing rest); [|reflexivity].
      now rewrite <- app_assoc.
Qed.

Lemma extract_spec (text : jsstring) :
  extractFrontmatterBlock text =
  match split_newlines text with
  | first :: later =>
      if is_delimiter first then
        match through_closing later with
        | Some ls => Some (join newline (first :: ls) ++ newline)
        | None => None
        end
      else None
  | [] => None
  end.
Proof.
  unfold extractFrontmatterBlock.
  pose proof (split_newlines_no_LF text) as Hlf.
  destruct (split_newlines text) as [|first later]; [reflexivity|].
  cbn [length Nat.eqb nth]. destruct (is_delimiter first); [|reflexivity].
  cbn [negb]. inversion Hlf; subst.
  apply (closing_loop_spec later [first]); simpl; auto.
Qed.

End Lines.

(** C1. For every document content the preserved output of the wipe is the
    header block as the specification words it: when the first line of the
    split on [\r?\n] trims to "---" and a later line does too, the lines from
    the first through the first such later line, joined with a line feed and
    followed by exactly one line feed; the empty string otherwise. This is
    the content [wipeTargetNote] hands to [vault.modify] once the read has
    resolved. In particular the sample note keeps exactly its header, and a
    content whose first line is not the delimiter keeps nothing. *)
Theorem wipe_preserves_header_block :
  (forall raw, preservedFrontmatter raw = header_block_spec raw)
  /\ (forall st file raw,
         pending st = Some (AwaitRead file) ->
         trace (readDone (Resolved raw) st)
         = trace st ++ [VaultModify file (header_block_spec raw)])
  /\ preservedFrontmatter sample_note = sample_header
  /\ (forall raw,
         is_delimiter (nth 0 (split_newlines raw) []) = false ->
         preservedFrontmatter raw = []).
Proof.
  assert (Hspec : forall raw, preservedFrontmatter raw = header_block_spec raw).
  { intros raw. unfold preservedFrontmatter, header_block_spec.
    rewrite extract_spec.
    destruct (split_newlines raw) as [|first later]; [reflexivity|].
    destruct (is_delimiter first); [|reflexivity].
    destruct (through_closing later); reflexivity. }
  split; [exact Hspec|]. split; [|split].
  - intros st file raw Hp. unfold readDone. rewrite Hp. simpl.
    now rewrite Hspec.
  - vm_compute. reflexivity.
  - intros raw Hd. unfold preservedFrontmatter, extractFrontmatterBlock.
    rewrite Hd. simpl.
    destruct (length (split_newlines raw) =? 0)%nat; reflexivity.
Qed.

(** ** Invariants of the reachable states *)

(** Reduce the field setters and projections, by value. *)
Ltac setters :=
  cbv beta iota zeta delta
    [emit set_active set_targetFile set_session set_lastInsertAt
     set_idleTicker set_statusEl set_idleWarnFired set_overlayEl
     set_overlayLevel set_wiping set_noSelect set_timers set_vault
     set_leaves set_pending set_trace
     active targetFile session lastInsertAt idleTicker statusEl
     idleWarnFired overlayEl overlayLevel wiping noSelect timers vault
     leaves pending trace] in *.

(** Split on the tests of a handler, the state itself excepted. *)
Ltac break :=
  repeat (match goal with
          | |- context [match ?x with _ => _ end] =>
              lazymatch type of x with
              | State => fail
              | _ => destruct x eqn:?
              end
          end; setters).

(** Project a field out of a stack of setters. *)
Ltac fields :=
  cbn [emit set_active set_targetFile set_session set_lastInsertAt
       set_idleTicker set_statusEl set_idleWarnFired set_overlayEl
       set_overlayLevel set_wiping set_noSelect set_timers set_vault
       set_leaves set_pending set_trace
       active targetFile session lastInsertAt idleTicker statusEl
       idleWarnFired overlayEl overlayLevel wiping noSelect timers vault
       leaves pending trace] in *.

Ltac frame := unfold flight_frame; fields; repeat split; reflexivity.

Ltac solve_consistent :=
  unfold consistent in *; setters; cbn in *;
  intuition (try congruence; try discriminate; try lia).

(** [endSession] in one record. *)
Lemma endSession_eq st :
  endSession st
  = {| active := false; targetFile := None; session := None;
       lastInsertAt := lastInsertAt st; idleTicker := None; statusEl := None;
       idleWarnFired := idleWarnFired st; overlayEl := None;
       overlayLevel := overlayLevel st; wiping := wiping st;
       noSelect := false;
       timers := match idleTicker st with
                 | Some id => clearInterval id (timers st)
                 | None => timers st
                 end;
       vault := vault st; leaves := leaves st; pending := pending st;
       trace := trace st |}.
Proof.
  destruct st as [a tf se li [id|] [el|] iw [ov|] ol w ns ti va le pe tr];
    reflexivity.
Qed.

Lemma endSession_consistent st : consistent st -> consistent (endSession st).
Proof.
  intros H. rewrite endSession_eq. unfold consistent in *. cbn.
  intuition (try discriminate).
Qed.

Lemma setOverlayVisible_consistent v st :
  consistent st -> consistent (setOverlayVisible v st).
Proof.
  intros H. destruct st. cbv delta [setOverlayVisible]. setters.
  break; solve_consistent.
Qed.

Lemma clamp_level (z : Z) : (0 <= clamp z 0 10 <= 10)%Z.
Proof. unfold clamp. cbn. lia. Qed.

Lemma setOverlayProgress_consistent p st :
  consistent st -> consistent (setOverlayProgress p st).
Proof.
  intros H. destruct st. cbv delta [setOverlayProgress]. setters.
  pose proof (clamp_level (Math_round (p * 10))).
  break; solve_consistent.
Qed.

Lemma handleIdleTimeout_consistent st :
  consistent st -> consistent (handleIdleTimeout st).
Proof.
  intros H. destruct st. cbv delta [handleIdleTimeout wipeTargetNote]. setters. break; solve_consistent.
Qed.

(** [finally_block] in one record. *)
Lemma finally_block_eq st :
  finally_block st
  = {| active := false; targetFile := None; session := None;
       lastInsertAt := lastInsertAt st; idleTicker := None; statusEl := None;
       idleWarnFired := idleWarnFired st; overlayEl := None;
       overlayLevel := overlayLevel st; wiping := false;
       noSelect := false;
       timers := match idleTicker st with
                 | Some id => clearInterval id (timers st)
                 | None => timers st
                 end;
       vault := vault st; leaves := leaves st; pending := None;
       trace := trace st |}.
Proof. unfold finally_block. rewrite endSession_eq. reflexivity. Qed.

Lemma finally_block_consistent st :
  consistent st -> consistent (finally_block st).
Proof.
  intros H. rewrite finally_block_eq.
  unfold consistent in *. cbn. intuition (try discriminate).
Qed.

Lemma emit_consistent e st : consistent st -> consistent (emit e st).
Proof. intros H. destruct st. solve_consistent. Qed.

Lemma wipe_fulfilled_settled st : consistent st -> settled (wipe_fulfilled st).
Proof.
  intros H. split.
  - now apply finally_block_consistent, emit_consistent.
  - discriminate.
Qed.

Lemma wipe_rejected_settled st : consistent st -> settled (wipe_rejected st).
Proof.
  intros H. split.
  - now apply finally_block_consistent, emit_consistent, emit_consistent.
  - discriminate.
Qed.

Lemma setOverlayVisible_frame v st :
  overlay_frame st (setOverlayVisible v st)
  /\ overlayLevel (setOverlayVisible v st) = overlayLevel st
  /\ trace (setOverlayVisible v st) = trace st.
Proof.
  unfold setOverlayVisible, overlay_frame.
  destruct (overlayEl st) eqn:He; cbn; rewrite ?He; intuition congruence.
Qed.

Lemma setOverlayProgress_frame p st :
  overlay_frame st (setOverlayProgress p st).
Proof.
  unfold setOverlayProgress, overlay_frame.
  destruct (overlayEl st) eqn:He; [|intuition congruence].
  destruct (_ =? _)%Z; cbn; rewrite ?He; intuition congruence.
Qed.

Lemma overlay_frame_trans a b c :
  overlay_frame a b -> overlay_frame b c -> overlay_frame a c.
Proof. unfold overlay_frame. intuition congruence. Qed.

Lemma overlay_frame_consistent a b :
  overlay_frame a b -> (0 <= overlayLevel b <= 10)%Z ->
  consistent a -> consistent b.
Proof.
  unfold overlay_frame, consistent.
  intros (Ha & Hs & _ & Ht & Hst & Hw & Hp & _ & Ho) Hl (H1 & H2 & H3 & _).
  rewrite Ha, Hs, Ht, Hst, Hw, Hp. intuition.
Qed.

(** The part of [update] that drives the overlay. *)
Lemma overlay_branch_frame (c : bool) p st :
  overlay_frame st
    (if c then setOverlayProgress p (setOverlayVisible true st)
     else setOverlayProgress 0 (setOverlayVisible false st)).
Proof.
  destruct c;
    (eapply overlay_frame_trans;
     [apply setOverlayVisible_frame | apply setOverlayProgress_frame]).
Qed.

Lemma overlay_branch_consistent (c : bool) p st :
  consistent st ->
  consistent
    (if c then setOverlayProgress p (setOverlayVisible true st)
     else setOverlayProgress 0 (setOverlayVisible false st)).
Proof.
  intros H. destruct c;
    now apply setOverlayProgress_consistent, setOverlayVisible_consistent.
Qed.

Lemma set_statusEl_consistent e st :
  active st = true -> consistent st -> consistent (set_statusEl (Some e) st).
Proof. intros Ha H. destruct st. solve_consistent. Qed.

Lemma update_consistent now st : consistent st -> consistent (update now st).
Proof.
  intros H. unfold update.
  destruct (active st) eqn:Ha; cbn [negb]; [|assumption].
  destruct (session st) as [s|] eqn:Hs; [|assumption].
  destruct (sessionOver now s).
  { now apply endSession_consistent, emit_consistent. }
  cbv zeta.
  match goal with
  | |- context [statusEl ?x] =>
      assert (Hc : consistent x) by now apply overlay_branch_consistent
  end.
  match goal with
  | |- context [statusEl ?x] =>
      assert (Hx : active x = true)
        by (destruct (overlay_branch_frame
                        (now - lastInsertAt st >=?
                           Math_min OVERLAY_DELAY_MS (idleCutoffMs s))%Z
                        (clamp
                           (inject_Z
                              (now - lastInsertAt st -
                                 Math_min OVERLAY_DELAY_MS (idleCutoffMs s))
                            / inject_Z
                                (Math_max 1%Z
                                   (idleCutoffMs s -
                                      Math_min OVERLAY_DELAY_MS
                                        (idleCutoffMs s))%Z)) 0%Q 1%Q) st)
              as (Hact & _); congruence);
      set (st1 := x) in *
  end.
  destruct (statusEl st1); [|assumption].
  destruct (_ >? 0)%Z.
  - now apply set_statusEl_consistent.
  - now apply handleIdleTimeout_consistent, set_statusEl_consistent.
Qed.

Lemma readDone_consistent r st : consistent st -> consistent (readDone r st).
Proof.
  intros H. unfold readDone.
  destruct (pending st) as [[| file | file preserved]|] eqn:Hp; try assumption.
  destruct r as [raw|]; [|now apply wipe_rejected_settled].
  destruct st. solve_consistent.
Qed.

Lemma clear_views_frame preserved st st' :
  clear_views preserved st = Some st' ->
  active st' = active st /\ session st' = session st
  /\ statusEl st' = statusEl st /\ overlayEl st' = overlayEl st
  /\ idleTicker st' = idleTicker st /\ wiping st' = wiping st
  /\ pending st' = pending st /\ overlayLevel st' = overlayLevel st.
Proof.
  unfold clear_views. destruct (leaves st) eqn:Hl.
  - intros [= <-]. repeat split; reflexivity.
  - destruct (session st) as [s|] eqn:Hs; [|discriminate].
    destruct (clear_leaves _ _ _). intros [= <-]. cbn.
    rewrite ?Hs. repeat split; reflexivity.
Qed.

Lemma modifyDone_consistent r st :
  consistent st -> consistent (modifyDone r st).
Proof.
  intros H. unfold modifyDone.
  destruct (pending st) as [[| file | file preserved]|] eqn:Hp; try assumption.
  destruct r as [[]|]; [|now apply wipe_rejected_settled].
  destruct (clear_views preserved st) as [st'|] eqn:Hc;
    [|now apply wipe_rejected_settled].
  apply clear_views_frame in Hc.
  destruct Hc as (Ha & Hs & Hst & Ho & Ht & Hw & Hp' & Hl).
  unfold consistent in *. cbn.
  rewrite Ha, Hs, Hst, Ho, Ht, Hw, Hl.
  destruct H as (H1 & H2 & H3 & H4).
  repeat split; try tauto; try discriminate.
  intros Hf. apply H3 in Hf. congruence.
Qed.

Lemma microtask_settled st : consistent st -> settled (microtask st).
Proof.
  intros H. unfold microtask.
  destruct (pending st) as [[| file | file preserved]|] eqn:Hp;
    try (split; [assumption | rewrite Hp; discriminate]).
  now apply wipe_fulfilled_settled.
Qed.

Lemma startSessionFlow_consistent view st :
  consistent st -> consistent (fst (startSessionFlow view st)).
Proof.
  intros H. unfold startSessionFlow.
  destruct (active st); [now apply emit_consistent|].
  destruct view as [[[path|]]|]; cbn [fst];
    solve [assumption | now apply emit_consistent].
Qed.

Lemma startSessionFlow_picked_consistent startedAt now path value minutes st :
  consistent st ->
  consistent (startSessionFlow_picked startedAt now path value minutes st).
Proof.
  intros H. unfold startSessionFlow_picked. cbv zeta.
  apply emit_consistent. unfold startIdleTicker.
  match goal with
  | |- context [session ?x] =>
      assert (Hx : consistent x /\ session x <> None)
  end.
  { destruct st. cbv delta [ensureOverlay]. setters.
    break; (split; [solve_consistent | discriminate]). }
  destruct Hx as (Hx & Hs).
  match goal with
  | |- context [session ?x] => destruct (session x) eqn:Hsx
  end; [|assumption].
  apply update_consistent.
  match goal with
  | H : session ?x = Some _ |- _ =>
      clear - Hx H; destruct x; solve_consistent
  end.
Qed.

Lemma updateListener_consistent now view u st :
  consistent st -> consistent (updateListener now view u st).
Proof.
  intros H. unfold updateListener.
  destruct (active st); cbn [negb]; [|assumption].
  destruct (session st) as [s|]; [|assumption].
  destruct view as [[[path|]]|]; try assumption.
  destruct (negb _); [assumption|].
  destruct (negb _); [assumption|].
  destruct (_ >? _)%Z; [|assumption].
  destruct st. solve_consistent.
Qed.

Lemma editorChange_consistent now value view st :
  consistent st -> consistent (editorChange now value view st).
Proof.
  intros H. unfold editorChange.
  destruct (active st) eqn:Ha; cbn [negb]; [|assumption].
  destruct (session st) as [s|]; [|assumption].
  destruct view as [[[path|]]|]; try assumption.
  destruct (negb _); [assumption|].
  cbv zeta. destruct (_ >? _)%Z; destruct st; solve_consistent.
Qed.

Lemma handle_consistent ev st : consistent st -> consistent (handle ev st).
Proof.
  intros H. destruct ev; cbn [handle].
  - now apply update_consistent.
  - now apply startSessionFlow_consistent.
  - now apply startSessionFlow_picked_consistent.
  - now apply updateListener_consistent.
  - now apply editorChange_consistent.
  - now apply readDone_consistent.
  - now apply modifyDone_consistent.
  - now apply endSession_consistent.
  - destruct st. solve_consistent.
  - destruct st. solve_consistent.
Qed.

Lemma step_settled ev st : settled st -> settled (step ev st).
Proof.
  intros [H _]. now apply microtask_settled, handle_consistent.
Qed.

Lemma loaded_settled v ls : settled (loaded v ls).
Proof.
  split; [|discriminate]. unfold consistent. cbn.
  intuition (try discriminate; try lia).
Qed.

(** Every reachable state is consistent and settled. *)
Lemma reachable_settled st : reachable st -> settled st.
Proof.
  induction 1 as [v ls | ev st _ IH].
  - apply loaded_settled.
  - now apply step_settled.
Qed.

Lemma run_reachable evs st : reachable st -> reachable (run evs st).
Proof.
  revert st. induction evs as [|ev evs IH]; intros st H; [assumption|].
  cbn. apply IH. now constructor.
Qed.


(** ** The two insertion channels *)

Lemma fold_left_inserted (l : list ChangedRange) (a : Z) :
  fold_left (fun acc ch => (acc + jslength (insertedText ch))%Z) l a
  = (a + fold_right (fun ch acc => (jslength (insertedText ch) + acc)%Z)
                    0%Z l)%Z.
Proof.
  revert a. induction l as [|ch l IH]; intros a; cbn; [lia|].
  rewrite IH. lia.
Qed.

Lemma inserted_sum_nonneg (u : ViewUpdate) : (0 <= inserted_sum u)%Z.
Proof.
  unfold inserted_sum. induction (changes u) as [|ch l IH]; cbn; [lia|].
  pose proof (Zle_0_nat (length (insertedText ch))). unfold jslength at 1. lia.
Qed.

Lemma inserted_docChanged (u : ViewUpdate) :
  (inserted_sum u > 0)%Z -> docChanged u = true.
Proof.
  unfold inserted_sum, docChanged. destruct (changes u); cbn; [lia|reflexivity].
Qed.

(** The primary channel on a qualifying insertion into the target. *)
Lemma updateListener_qualifying now u st s :
  active st = true -> session st = Some s -> (inserted_sum u > 0)%Z ->
  updateListener now (view_of (targetPath s)) u st
  = set_idleWarnFired false (set_lastInsertAt now st).
Proof.
  intros Ha Hs Hu. unfold updateListener, view_of.
  rewrite Ha, Hs, String.eqb_refl, (inserted_docChanged u Hu). cbn [negb].
  rewrite fold_left_inserted. fold (inserted_sum u).
  destruct (Z.gtb_spec (0 + inserted_sum u) 0); [reflexivity|lia].
Qed.

(** The fallback channel on an event for the target. *)
Lemma editorChange_target now value st s :
  active st = true -> session st = Some s ->
  editorChange now value (view_of (targetPath s)) st
  = set_session (Some (set_docLength (jslength value) s))
      (if (jslength value >? docLength s)%Z
       then set_idleWarnFired false (set_lastInsertAt now st) else st).
Proof.
  intros Ha Hs. unfold editorChange, view_of.
  now rewrite Ha, Hs, String.eqb_refl.
Qed.

(** C7. On the fallback channel a content-changed event sets [lastInsertAt]
    to the current time when the session is active, the event's file is the
    target and the new length is strictly greater than the recorded one; in
    every other case, deletions and length-preserving changes among them,
    [lastInsertAt] keeps its value. *)
Theorem fallback_advances_only_on_growth :
  forall now value view st,
    (forall s,
        active st = true -> session st = Some s ->
        view = view_of (targetPath s) ->
        (jslength value > docLength s)%Z ->
        lastInsertAt (editorChange now value view st) = now)
    /\ ((active st = false
         \/ session st = None
         \/ (forall s, session st = Some s -> view <> view_of (targetPath s))
         \/ (forall s, session st = Some s ->
                       (jslength value <= docLength s)%Z)) ->
        lastInsertAt (editorChange now value view st) = lastInsertAt st).
Proof.
  intros now value view st. split.
  - intros s Ha Hs -> Hgt. rewrite (editorChange_target _ _ _ _ Ha Hs).
    destruct (Z.gtb_spec (jslength value) (docLength s)); [reflexivity|lia].
  - intros H. unfold editorChange.
    destruct (active st) eqn:Ha; cbn [negb]; [|reflexivity].
    destruct (session st) as [s|] eqn:Hs; [|reflexivity].
    destruct view as [[[path|]]|]; try reflexivity.
    destruct (String.eqb_spec path (targetPath s)) as [->|Hne];
      cbn [negb]; [|reflexivity].
    destruct H as [H|[H|[H|H]]]; try discriminate.
    + exfalso. now apply (H s eq_refl).
    + specialize (H s eq_refl). cbn.
      destruct (Z.gtb_spec (jslength value) (docLength s)); [lia|reflexivity].
Qed.

(** X21. An edit event on either channel leaves the whole state as it is
    when the plug-in is not active, when it has no session, or when the view
    that the handler tests does not show the target: on the primary channel
    that view is the active view of the workspace, on the fallback channel
    the view of the event itself. *)
Theorem foreign_events_ignored :
  forall now value u view st,
    (active st = false
     \/ session st = None
     \/ (forall s, session st = Some s -> view <> view_of (targetPath s))) ->
    updateListener now view u st = st
    /\ editorChange now value view st = st.
Proof.
  intros now value u view st H.
  unfold updateListener, editorChange.
  destruct (active st) eqn:Ha; cbn [negb]; [|split; reflexivity].
  destruct (session st) as [s|] eqn:Hs; [|split; reflexivity].
  destruct view as [[[path|]]|]; try (split; reflexivity).
  destruct (String.eqb_spec path (targetPath s)) as [->|Hne];
    cbn [negb]; [|split; reflexivity].
  destruct H as [H|[H|H]]; try discriminate.
  exfalso. now apply (H s eq_refl).
Qed.

(** C10. On the fallback channel every event for the target records the new
    length as [session.docLength], a pure deletion included; so after a
    deletion the next event qualifies as soon as the document is longer than
    it was after the deletion, be it still shorter than before it. *)
Theorem fallback_baseline_follows_deletions :
  forall st s now1 now2 shrunk regrown,
    active st = true -> session st = Some s ->
    (jslength shrunk < docLength s)%Z ->
    (jslength shrunk < jslength regrown)%Z ->
    let view := view_of (targetPath s) in
    let st1 := editorChange now1 shrunk view st in
    let st2 := editorChange now2 regrown view st1 in
    session st1 = Some (set_docLength (jslength shrunk) s)
    /\ lastInsertAt st1 = lastInsertAt st
    /\ session st2 = Some (set_docLength (jslength regrown) s)
    /\ lastInsertAt st2 = now2.
Proof.
  intros st s now1 now2 shrunk regrown Ha Hs Hdel Hgrow view st1 st2.
  assert (E1 : st1 = set_session (Some (set_docLength (jslength shrunk) s)) st).
  { subst st1 view. rewrite (editorChange_target _ _ _ _ Ha Hs).
    destruct (Z.gtb_spec (jslength shrunk) (docLength s)); [lia|reflexivity]. }
  assert (E2 : st2 = set_session (Some (set_docLength (jslength regrown) s))
                       (set_idleWarnFired false (set_lastInsertAt now2 st1))).
  { subst st2 view.
    change (targetPath s)
      with (targetPath (set_docLength (jslength shrunk) s)).
    rewrite (editorChange_target now2 regrown st1
               (set_docLength (jslength shrunk) s));
      [| rewrite E1; exact Ha | rewrite E1; reflexivity ].
    cbn [docLength set_docLength].
    destruct (Z.gtb_spec (jslength regrown) (jslength shrunk)); [|lia].
    reflexivity. }
  rewrite E2, E1. cbn. repeat split; reflexivity.
Qed.

(** ** Session end *)

Lemma endSession_at_rest st : at_rest (endSession st).
Proof. rewrite endSession_eq. repeat split. Qed.

Lemma endSession_frame st :
  trace (endSession st) = trace st /\ wiping (endSession st) = wiping st
  /\ pending (endSession st) = pending st
  /\ lastInsertAt (endSession st) = lastInsertAt st
  /\ overlayLevel (endSession st) = overlayLevel st.
Proof. rewrite endSession_eq. repeat split. Qed.

Lemma clearInterval_not_in id l : ~ In id (clearInterval id l).
Proof.
  unfold clearInterval. intros H. apply filter_In in H.
  destruct H as [_ H]. now rewrite Nat.eqb_refl in H.
Qed.

Lemma endSession_stops_ticker st id :
  idleTicker st = Some id -> ~ In id (timers (endSession st)).
Proof.
  intros H. rewrite endSession_eq. cbn [timers]. rewrite H.
  apply clearInterval_not_in.
Qed.

Lemma finally_block_released st : released (finally_block st).
Proof. rewrite finally_block_eq. repeat split. Qed.

Lemma finally_block_trace st : trace (finally_block st) = trace st.
Proof. now rewrite finally_block_eq. Qed.

Lemma finally_block_stops_ticker st id :
  idleTicker st = Some id -> ~ In id (timers (finally_block st)).
Proof.
  intros H. rewrite finally_block_eq. cbn [timers]. rewrite H.
  apply clearInterval_not_in.
Qed.

Lemma microtask_idle st :
  pending st <> Some AwaitWipe -> microtask st = st.
Proof.
  unfold microtask. destruct (pending st) as [[]|]; congruence.
Qed.

(** ** The tick *)

Lemma running_or_over now s :
  sessionOver now s = false \/ sessionOver now s = true.
Proof. destruct (sessionOver now s); [right|left]; reflexivity. Qed.

Lemma update_running now st s :
  active st = true -> session st = Some s -> sessionOver now s = false ->
  update now st
  = tick_status (idleCutoffMs s - (now - lastInsertAt st))
                (tick_overlay now s st).
Proof.
  intros Ha Hs Hnow. unfold update. rewrite Ha, Hs, Hnow. reflexivity.
Qed.

Lemma update_expired now st s :
  active st = true -> session st = Some s -> sessionOver now s = true ->
  update now st = endSession (emit (ShowNotice NoticeSessionComplete) st).
Proof.
  intros Ha Hs Hnow. unfold update. rewrite Ha, Hs, Hnow. reflexivity.
Qed.

Lemma update_inactive now st :
  active st = false \/ session st = None -> update now st = st.
Proof.
  intros [H|H]; unfold update; rewrite H; [reflexivity|].
  now destruct (negb (active st)).
Qed.

(** C3. A tick at or after [endsAt] ends the session with the completion
    notice and invokes no wipe, whatever the idle time is: the trace gains
    the notice alone, no call to the vault, and [wiping] and the pending
    continuation are as before. *)
Theorem duration_end_has_priority :
  forall st s now,
    reachable st -> active st = true -> session st = Some s ->
    sessionOver now s = true ->
    let st' := step (Tick now) st in
    st' = endSession (emit (ShowNotice NoticeSessionComplete) st)
    /\ trace st' = trace st ++ [ShowNotice NoticeSessionComplete]
    /\ at_rest st'
    /\ vault_calls (trace st') = vault_calls (trace st)
    /\ wiping st' = wiping st /\ pending st' = pending st.
Proof.
  intros st s now Hr Ha Hs Hnow st'.
  destruct (reachable_settled st Hr) as [_ Hp].
  set (e := emit (ShowNotice NoticeSessionComplete) st).
  destruct (endSession_frame e) as (Ht & Hw & Hpe & _).
  assert (E : st' = endSession e).
  { subst st'. unfold step. cbn [handle].
    rewrite (update_expired now st s Ha Hs Hnow).
    apply microtask_idle. fold e. now rewrite Hpe. }
  rewrite E, Ht, Hw, Hpe.
  split; [reflexivity|]. split; [reflexivity|].
  split; [apply endSession_at_rest|].
  split; [|split; reflexivity].
  subst e. cbn [emit set_trace trace]. unfold vault_calls.
  rewrite filter_app. cbn. apply app_nil_r.
Qed.

(** C5. When the read or the write of the wipe throws, the error is logged
    and the failure notice shown, and the session is ended all the same:
    the active flag cleared, the session released, the ticker stopped, the
    status item and the overlay removed, [wiping] cleared and nothing left
    pending. A wipe that succeeds leaves the plug-in released in the same
    way. *)
Theorem failed_wipe_ends_session :
  forall st file preserved ev,
    (pending st = Some (AwaitRead file) /\ ev = ReadDone Rejected)
    \/ (pending st = Some (AwaitModify file preserved)
        /\ ev = ModifyDone Rejected) ->
    let st' := step ev st in
    trace st' = trace st ++ [ConsoleError; ShowNotice NoticeWipeFailed]
    /\ released st'
    /\ (forall id, idleTicker st = Some id -> ~ In id (timers st'))
    /\ replacements (trace st') = replacements (trace st)
    /\ (pending st = Some (AwaitModify file preserved) ->
        released (step (ModifyDone (Resolved tt)) st)).
Proof.
  intros st file preserved ev H st'.
  assert (E : st' = wipe_rejected st).
  { subst st'. unfold step.
    destruct H as [[Hp ->]|[Hp ->]]; cbn [handle];
      unfold readDone, modifyDone; rewrite Hp; reflexivity. }
  assert (Ht : trace st' = trace st ++ [ConsoleError; ShowNotice NoticeWipeFailed]).
  { rewrite E. unfold wipe_rejected. rewrite finally_block_trace.
    cbn [emit set_trace trace]. now rewrite <- app_assoc. }
  split; [exact Ht|]. split; [|split; [|split]].
  - rewrite E. apply finally_block_released.
  - intros id Hid. rewrite E. unfold wipe_rejected.
    now apply finally_block_stops_ticker.
  - rewrite Ht. unfold replacements. rewrite filter_app. cbn. apply app_nil_r.
  - intros Hp. unfold step. cbn [handle]. unfold modifyDone. rewrite Hp.
    destruct (clear_views preserved st) as [st1|].
    + unfold microtask. cbn [set_pending pending].
      apply finally_block_released.
    + rewrite microtask_idle; [apply finally_block_released|].
      unfold wipe_rejected, finally_block. cbn [set_pending pending].
      discriminate.
Qed.

(** ** The overlay *)

Lemma contains_toggle_visible v cl :
  classList_contains IsVisible (classList_toggle IsVisible v cl) = v.
Proof.
  unfold classList_toggle, classList_contains, classList_add, classList_remove.
  destruct v.
  - destruct (existsb (class_eqb IsVisible) cl) eqn:E; [exact E|].
    rewrite existsb_app. cbn. apply orb_true_r.
  - induction cl as [|c cl IH]; [reflexivity|].
    destruct c; cbn; exact IH.
Qed.

Lemma contains_visible_progress a b cl :
  classList_contains IsVisible
    (classList_add (Progress a) (classList_remove (Progress b) cl))
  = classList_contains IsVisible cl.
Proof.
  unfold classList_contains, classList_add.
  assert (R : existsb (class_eqb IsVisible) (classList_remove (Progress b) cl)
              = existsb (class_eqb IsVisible) cl).
  { unfold classList_remove. induction cl as [|c cl IH]; [reflexivity|].
    destruct c as [| |lv]; cbn.
    - exact IH.
    - reflexivity.
    - destruct (b =? lv)%Z; cbn; exact IH. }
  destruct (existsb (class_eqb (Progress a)) _); [exact R|].
  rewrite existsb_app, R. cbn. now rewrite orb_false_r.
Qed.

Lemma setOverlayVisible_visible v st :
  overlayEl st <> None -> overlay_visible (setOverlayVisible v st) = v.
Proof.
  unfold overlay_visible, setOverlayVisible.
  destruct (overlayEl st) as [el|]; [|congruence]. intros _.
  cbn. apply contains_toggle_visible.
Qed.

Lemma setOverlayProgress_visible p st :
  overlay_visible (setOverlayProgress p st) = overlay_visible st.
Proof.
  unfold overlay_visible, setOverlayProgress.
  destruct (overlayEl st) as [el|] eqn:He; [|now rewrite He].
  destruct (_ =? _)%Z; [now rewrite He|].
  cbn. apply contains_visible_progress.
Qed.

Lemma setOverlayProgress_level p st :
  overlayEl st <> None ->
  overlayLevel (setOverlayProgress p st) = clamp (Math_round (p * 10)) 0%Z 10%Z.
Proof.
  unfold setOverlayProgress.
  destruct (overlayEl st) as [el|]; [|congruence]. intros _.
  destruct (Z.eqb_spec (clamp (Math_round (p * 10)) 0%Z 10%Z) (overlayLevel st));
    [congruence | reflexivity].
Qed.

(** What [setOverlayProgress] adds to the trace. *)
Lemma setOverlayProgress_trace p st :
  trace (setOverlayProgress p st)
  = trace st
    ++ (if overlayLevel (setOverlayProgress p st) =? overlayLevel st
        then [] else [OverlayProgress (overlayLevel (setOverlayProgress p st))])%Z.
Proof.
  unfold setOverlayProgress.
  set (lvl := clamp (Math_round (p * 10)) 0%Z 10%Z).
  destruct (overlayEl st) as [el|].
  - destruct (Z.eqb_spec lvl (overlayLevel st)) as [E|E].
    + rewrite Z.eqb_refl. now rewrite app_nil_r.
    + cbn [set_overlayLevel emit set_trace set_overlayEl trace overlayLevel].
      destruct (Z.eqb_spec lvl (overlayLevel st)); [contradiction|reflexivity].
  - rewrite Z.eqb_refl. now rewrite app_nil_r.
Qed.

Lemma tick_overlay_frame now s st : overlay_frame st (tick_overlay now s st).
Proof. unfold tick_overlay. cbv zeta. apply overlay_branch_frame. Qed.

Lemma round_zero : clamp (Math_round (0 * 10)) 0%Z 10%Z = 0%Z.
Proof. reflexivity. Qed.

(** After the overlay half of a tick the stored level is the level of the
    specification, and the overlay shows from the delay on. *)
Lemma tick_overlay_level now s st :
  overlayEl st <> None ->
  overlayLevel (tick_overlay now s st)
  = overlay_level_spec (now - lastInsertAt st) (idleCutoffMs s)
  /\ overlay_visible (tick_overlay now s st)
     = (Z.min 2000 (idleCutoffMs s) <=? now - lastInsertAt st)%Z.
Proof.
  intros He. unfold tick_overlay, overlay_level_spec. cbv zeta.
  change (Math_min OVERLAY_DELAY_MS (idleCutoffMs s))
    with (Z.min 2000 (idleCutoffMs s)).
  set (delay := Z.min 2000 (idleCutoffMs s)).
  assert (Hv : forall v, overlayEl (setOverlayVisible v st) <> None).
  { intros v. destruct (setOverlayVisible_frame v st) as ((_&_&_&_&_&_&_&_&H)&_).
    tauto. }
  destruct (Z.geb_spec (now - lastInsertAt st) delay) as [Hge|Hlt].
  - destruct (Z.ltb_spec (now - lastInsertAt st) delay); [lia|].
    destruct (Z.leb_spec delay (now - lastInsertAt st)); [|lia].
    rewrite setOverlayProgress_level by apply Hv.
    rewrite setOverlayProgress_visible, setOverlayVisible_visible by exact He.
    split; reflexivity.
  - destruct (Z.ltb_spec (now - lastInsertAt st) delay); [|lia].
    destruct (Z.leb_spec delay (now - lastInsertAt st)); [lia|].
    rewrite setOverlayProgress_level by apply Hv.
    rewrite setOverlayProgress_visible, setOverlayVisible_visible by exact He.
    split; [apply round_zero | reflexivity].
Qed.

Lemma handleIdleTimeout_overlay st :
  overlayEl (handleIdleTimeout st) = overlayEl st
  /\ overlayLevel (handleIdleTimeout st) = overlayLevel st.
Proof.
  unfold handleIdleTimeout, wipeTargetNote.
  destruct (negb (active st) || wiping st); [split; reflexivity|].
  cbn [set_wiping session vault].
  destruct (session st) as [s|]; [|split; reflexivity].
  destruct (vault st (targetPath s)) as [[]|]; split; reflexivity.
Qed.

Lemma tick_status_overlay remaining st :
  overlayEl (tick_status remaining st) = overlayEl st
  /\ overlayLevel (tick_status remaining st) = overlayLevel st.
Proof.
  unfold tick_status. destruct (statusEl st); [|split; reflexivity].
  destruct (remaining >? 0)%Z; [split; reflexivity|].
  apply (handleIdleTimeout_overlay
           (set_statusEl (Some {| idleShownMs := 0 |}) st)).
Qed.

Lemma overlay_level_spec_range idleMs cutoff :
  (0 <= overlay_level_spec idleMs cutoff <= 10)%Z.
Proof.
  unfold overlay_level_spec. cbv zeta.
  destruct (_ <? _)%Z; [lia|]. apply clamp_level.
Qed.

(** The level of the specification does not decrease with the idle time. *)
Lemma overlay_level_spec_mono cutoff idle1 idle2 :
  (idle1 <= idle2)%Z ->
  (overlay_level_spec idle1 cutoff <= overlay_level_spec idle2 cutoff)%Z.
Proof.
  intros Hle. unfold overlay_level_spec. cbv zeta.
  set (delay := Z.min 2000 cutoff).
  destruct (Z.ltb_spec idle1 delay) as [H1|H1].
  - destruct (idle2 <? delay)%Z; [lia|]. apply clamp_level.
  - destruct (Z.ltb_spec idle2 delay) as [H2|H2]; [lia|].
    set (denom := Z.max 1 (cutoff - delay)).
    assert (Hd : 0 <= / inject_Z denom).
    { apply Qinv_le_0_compat. change 0 with (inject_Z 0).
      rewrite <- Zle_Qle. subst denom. lia. }
    unfold clamp. cbn [Math_max Math_min JsNumber_Z JsNumber_Q].
    apply Z.max_le_compat_l, Z.min_le_compat_l.
    unfold Math_round. apply Qfloor_resp_le.
    apply Qplus_le_compat; [|apply Qle_refl].
    apply Qmult_le_compat_r; [|discriminate].
    apply Q.max_le_compat_l, Q.min_le_compat_l.
    unfold Qdiv. apply Qmult_le_compat_r; [|exact Hd].
    rewrite <- Zle_Qle. lia.
Qed.

Lemma reachable_armed st :
  reachable st -> active st = true ->
  session st <> None /\ statusEl st <> None /\ overlayEl st <> None.
Proof.
  intros Hr Ha. destruct (reachable_settled st Hr) as [(H & _) _]. auto.
Qed.

(** The stored level after a tick of a running session. *)
Lemma update_level now st s :
  reachable st -> active st = true -> session st = Some s ->
  sessionOver now s = false ->
  overlayLevel (update now st)
  = overlay_level_spec (now - lastInsertAt st) (idleCutoffMs s)
  /\ overlay_visible (update now st)
     = (Z.min 2000 (idleCutoffMs s) <=? now - lastInsertAt st)%Z.
Proof.
  intros Hr Ha Hs Hnow.
  destruct (reachable_armed st Hr Ha) as (_ & _ & He).
  rewrite (update_running now st s Ha Hs Hnow).
  destruct (tick_status_overlay (idleCutoffMs s - (now - lastInsertAt st))
                                (tick_overlay now s st)) as (E1 & E2).
  destruct (tick_overlay_level now s st He) as (L & V).
  unfold overlay_visible in *. rewrite E1, E2. now split.
Qed.


(** ** Ticks that start no wipe *)

Lemma vault_calls_app a b : vault_calls (a ++ b) = vault_calls a ++ vault_calls b.
Proof. apply filter_app. Qed.

Lemma flight_frame_refl st : flight_frame st st.
Proof. repeat split. Qed.

Lemma flight_frame_trans a b c :
  flight_frame a b -> flight_frame b c -> flight_frame a c.
Proof. unfold flight_frame. intuition congruence. Qed.

Lemma setOverlayVisible_flight v st : flight_frame st (setOverlayVisible v st).
Proof.
  destruct (setOverlayVisible_frame v st) as ((_&_&_&_&_&Hw&Hp&_)&_&Ht).
  unfold flight_frame. now rewrite Hw, Hp, Ht.
Qed.

Lemma setOverlayProgress_flight p st : flight_frame st (setOverlayProgress p st).
Proof.
  destruct (setOverlayProgress_frame p st) as (_&_&_&_&_&Hw&Hp&_).
  unfold flight_frame. rewrite Hw, Hp, setOverlayProgress_trace.
  rewrite vault_calls_app. destruct (_ =? _)%Z; cbn; now rewrite app_nil_r.
Qed.

Lemma tick_overlay_flight now s st : flight_frame st (tick_overlay now s st).
Proof.
  unfold tick_overlay. cbv zeta.
  destruct (_ >=? _)%Z;
    (eapply flight_frame_trans;
     [apply setOverlayVisible_flight | apply setOverlayProgress_flight]).
Qed.

Lemma endSession_flight st : flight_frame st (endSession st).
Proof.
  destruct (endSession_frame st) as (Ht & Hw & Hp & _).
  unfold flight_frame. now rewrite Ht, Hw, Hp.
Qed.

Lemma emit_flight e st :
  is_vault_call e = false -> flight_frame st (emit e st).
Proof.
  intros He. unfold flight_frame. cbn [emit set_trace wiping pending trace].
  rewrite vault_calls_app. cbn. rewrite He. now rewrite app_nil_r.
Qed.

(** The status half of a tick below the cutoff, or while a wipe is in
    flight, starts nothing. *)
Lemma tick_status_flight remaining st :
  (remaining > 0)%Z \/ wiping st = true ->
  flight_frame st (tick_status remaining st)
  /\ active (tick_status remaining st) = active st
  /\ session (tick_status remaining st) = session st
  /\ lastInsertAt (tick_status remaining st) = lastInsertAt st.
Proof.
  intros H. unfold tick_status.
  destruct (statusEl st); [|repeat split].
  destruct (Z.gtb_spec remaining 0); [repeat split|].
  destruct H as [H|H]; [lia|].
  unfold handleIdleTimeout. cbn [set_statusEl active wiping].
  rewrite H, orb_true_r. repeat split.
Qed.

Lemma update_flight now st :
  (wiping st = true
   \/ forall s, session st = Some s ->
                (now - lastInsertAt st < idleCutoffMs s)%Z) ->
  flight_frame st (update now st).
Proof.
  intros H.
  destruct (active st) eqn:Ha;
    [|rewrite update_inactive by (left; assumption); apply flight_frame_refl].
  destruct (session st) as [s|] eqn:Hs;
    [|rewrite update_inactive by (right; assumption); apply flight_frame_refl].
  destruct (running_or_over now s) as [Hnow|Hnow].
  - rewrite (update_running now st s Ha Hs Hnow).
    eapply flight_frame_trans; [apply tick_overlay_flight|].
    apply tick_status_flight.
    destruct H as [H|H].
    + right. destruct (tick_overlay_frame now s st) as (_&_&_&_&_&Hw&_).
      congruence.
    + left. specialize (H s eq_refl). lia.
  - rewrite (update_expired now st s Ha Hs Hnow).
    eapply flight_frame_trans; [|apply endSession_flight].
    now apply emit_flight.
Qed.

(** A tick of a running session below the idle cutoff. *)
Lemma tick_quiet now st s :
  reachable st -> active st = true -> session st = Some s ->
  sessionOver now s = false -> (now - lastInsertAt st < idleCutoffMs s)%Z ->
  let st' := step (Tick now) st in
  flight_frame st st' /\ active st' = true /\ session st' = Some s
  /\ lastInsertAt st' = lastInsertAt st.
Proof.
  intros Hr Ha Hs Hnow Hidle st'.
  destruct (reachable_settled st Hr) as [_ Hp].
  assert (Hf : flight_frame st (update now st)).
  { apply update_flight. right. intros s' E. congruence. }
  assert (E : st' = update now st).
  { subst st'. unfold step. cbn [handle]. apply microtask_idle.
    destruct Hf as (_ & -> & _). exact Hp. }
  rewrite E. split; [exact Hf|].
  rewrite (update_running now st s Ha Hs Hnow).
  destruct (tick_status_flight (idleCutoffMs s - (now - lastInsertAt st))
              (tick_overlay now s st)) as (_ & A & S & L); [left; lia|].
  destruct (tick_overlay_frame now s st) as (A' & S' & L' & _).
  rewrite A, S, L, A', S', L'. auto.
Qed.

Lemma run_cons ev evs st : run (ev :: evs) st = run evs (step ev st).
Proof. reflexivity. Qed.

Lemma run_app evs1 evs2 st : run (evs1 ++ evs2) st = run evs2 (run evs1 st).
Proof. unfold run. apply fold_left_app. Qed.

(** A stretch of ticks of a running session, all below the idle cutoff. *)
Lemma ticks_quiet nows : forall st s,
  reachable st -> active st = true -> session st = Some s ->
  Forall (fun now => sessionOver now s = false
                     /\ (now - lastInsertAt st < idleCutoffMs s)%Z) nows ->
  let st' := run (map Tick nows) st in
  reachable st' /\ flight_frame st st' /\ active st' = true
  /\ session st' = Some s /\ lastInsertAt st' = lastInsertAt st.
Proof.
  induction nows as [|now nows IH]; intros st s Hr Ha Hs Hall.
  - cbn. repeat split; assumption.
  - inversion Hall as [|? ? [Hnow Hidle] Hrest]; subst.
    cbn [map]. rewrite run_cons. cbv zeta.
    destruct (tick_quiet now st s Hr Ha Hs Hnow Hidle) as (F & A & S & L).
    destruct (IH (step (Tick now) st) s) as (R' & F' & A' & S' & L');
      [now constructor | exact A | exact S | now rewrite L |].
    split; [exact R'|]. split; [eapply flight_frame_trans; eassumption|].
    split; [exact A'|]. split; [exact S'|]. congruence.
Qed.

Lemma set_lastInsertAt_reset now st :
  flight_frame st (set_idleWarnFired false (set_lastInsertAt now st)).
Proof. frame. Qed.

(** C4. An idle stretch shorter than the cutoff that is followed by a
    qualifying insertion (a positive inserted sum on the primary channel, a
    net growth on the fallback channel) brings no wipe: the ticks of the
    stretch call the vault not once, the insertion sets [lastInsertAt] to
    its own time, and from then on the cutoff is counted from that time, so
    the ticks that follow start no wipe as long as they stay below the
    cutoff after the insertion. *)
Theorem insertion_before_cutoff_prevents_wipe :
  forall st s nows t ins nows',
    reachable st -> active st = true -> session st = Some s ->
    Forall (fun now => sessionOver now s = false
                       /\ (now - lastInsertAt st < idleCutoffMs s)%Z) nows ->
    Qualifying s t ins ->
    Forall (fun now => sessionOver now s = false
                       /\ (now - t < idleCutoffMs s)%Z) nows' ->
    let st1 := run (map Tick nows) st in
    let st2 := step ins st1 in
    let st3 := run (map Tick nows') st2 in
    lastInsertAt st1 = lastInsertAt st
    /\ lastInsertAt st2 = t
    /\ lastInsertAt st3 = t
    /\ active st3 = true
    /\ vault_calls (trace st3) = vault_calls (trace st)
    /\ wiping st3 = wiping st /\ pending st3 = pending st.
Proof.
  intros st s nows t ins nows' Hr Ha Hs Hall Hq Hall' st1 st2 st3.
  destruct (ticks_quiet nows st s Hr Ha Hs Hall)
    as (R1 & F1 & A1 & S1 & L1).
  fold st1 in R1, F1, A1, S1, L1.
  destruct (reachable_settled st1 R1) as [_ Hp1].
  assert (H2 : exists s2,
             flight_frame st1 st2 /\ active st2 = true
             /\ session st2 = Some s2 /\ lastInsertAt st2 = t
             /\ endsAt s2 = endsAt s /\ idleCutoffMs s2 = idleCutoffMs s).
  { subst st2. unfold step.
    destruct Hq as [u Hu|value Hv]; cbn [handle].
    - rewrite (updateListener_qualifying t u st1 s A1 S1 Hu).
      rewrite microtask_idle by exact Hp1.
      exists s. repeat split; assumption.
    - rewrite (editorChange_target t value st1 s A1 S1).
      destruct (Z.gtb_spec (jslength value) (docLength s)); [|lia].
      rewrite microtask_idle by exact Hp1.
      exists (set_docLength (jslength value) s).
      repeat split; assumption. }
  destruct H2 as (s2 & F2 & A2 & S2 & L2 & He & Hc).
  assert (R2 : reachable st2) by (subst st2; now constructor).
  destruct (ticks_quiet nows' st2 s2 R2 A2 S2) as (_ & F3 & A3 & _ & L3).
  { unfold sessionOver. rewrite He, Hc, L2. exact Hall'. }
  fold st3 in F3, A3, L3.
  split; [exact L1|]. split; [exact L2|]. split; [congruence|].
  split; [exact A3|].
  pose proof (flight_frame_trans _ _ _ F1 (flight_frame_trans _ _ _ F2 F3))
    as (W & P & V).
  auto.
Qed.

(** ** The single flight of the wipe *)

Lemma replacements_vault_calls tr : replacements (vault_calls tr) = replacements tr.
Proof.
  unfold replacements, vault_calls.
  induction tr as [|e tr IH]; [reflexivity|].
  destruct e; cbn; rewrite ?IH; reflexivity.
Qed.

Lemma ensureOverlay_flight st : flight_frame st (ensureOverlay st).
Proof. unfold ensureOverlay. destruct (overlayEl st); frame. Qed.

Lemma startSessionFlow_picked_flight startedAt now path value minutes st :
  wiping st = true ->
  flight_frame st (startSessionFlow_picked startedAt now path value minutes st).
Proof.
  intros Hw. unfold startSessionFlow_picked. cbv zeta.
  eapply flight_frame_trans; [|now apply emit_flight].
  unfold startIdleTicker.
  match goal with
  | |- context [set_noSelect true (ensureOverlay ?y)] => set (y0 := y)
  end.
  assert (Hy : flight_frame st y0) by (subst y0; frame).
  clearbody y0.
  set (x0 := set_noSelect true (ensureOverlay y0)).
  assert (Hx : flight_frame st x0).
  { eapply flight_frame_trans; [exact Hy|].
    eapply flight_frame_trans; [apply ensureOverlay_flight|].
    subst x0. frame. }
  clearbody x0.
  destruct (session x0); [|exact Hx].
  eapply flight_frame_trans; [exact Hx|].
  set (x1 := set_idleTicker _ _).
  assert (H1 : flight_frame x0 x1) by (subst x1; frame).
  clearbody x1.
  eapply flight_frame_trans; [exact H1|].
  apply update_flight. left.
  destruct H1 as (-> & _). destruct Hx as (-> & _). exact Hw.
Qed.

Lemma updateListener_flight now view u st :
  flight_frame st (updateListener now view u st).
Proof.
  unfold updateListener.
  destruct (negb (active st)); [apply flight_frame_refl|].
  destruct (session st) as [s|]; [|apply flight_frame_refl].
  destruct view as [[[path|]]|]; try apply flight_frame_refl.
  destruct (negb _); [apply flight_frame_refl|].
  destruct (negb _); [apply flight_frame_refl|].
  destruct (_ >? _)%Z; frame.
Qed.

Lemma editorChange_flight now value view st :
  flight_frame st (editorChange now value view st).
Proof.
  unfold editorChange.
  destruct (negb (active st)); [apply flight_frame_refl|].
  destruct (session st) as [s|]; [|apply flight_frame_refl].
  destruct view as [[[path|]]|]; try apply flight_frame_refl.
  destruct (negb _); [apply flight_frame_refl|].
  cbv zeta. destruct (_ >? _)%Z; frame.
Qed.

(** While a wipe is in flight no event but the completion of its host call
    reads or writes the vault, clears the flag or touches the continuation. *)
Lemma handle_flight ev st :
  wiping st = true -> is_completion ev = false ->
  flight_frame st (handle ev st).
Proof.
  intros Hw Hc. destruct ev; try discriminate; cbn [handle].
  - apply update_flight. now left.
  - unfold startSessionFlow. destruct (active st); [now apply emit_flight|].
    destruct view as [[[path|]]|]; cbn [fst];
      solve [apply flight_frame_refl | now apply emit_flight].
  - now apply startSessionFlow_picked_flight.
  - apply updateListener_flight.
  - apply editorChange_flight.
  - apply endSession_flight.
  - frame.
  - frame.
Qed.

Lemma flight_run evs : forall st k,
  reachable st -> wiping st = true -> pending st = Some k ->
  forallb (fun ev => negb (is_completion ev)) evs = true ->
  let st' := run evs st in
  reachable st' /\ flight_frame st st'.
Proof.
  induction evs as [|ev evs IH]; intros st k Hr Hw Hp Hall.
  - split; [exact Hr | apply flight_frame_refl].
  - cbn [forallb] in Hall. apply andb_true_iff in Hall.
    destruct Hall as [Hev Hall]. apply negb_true_iff in Hev.
    rewrite run_cons. cbv zeta.
    destruct (reachable_settled st Hr) as [_ Hn].
    pose proof (handle_flight ev st Hw Hev) as F.
    assert (E : step ev st = handle ev st).
    { unfold step. apply microtask_idle. destruct F as (_ & -> & _). exact Hn. }
    destruct (IH (step ev st) k) as (R' & F').
    + now constructor.
    + rewrite E. destruct F as (-> & _). exact Hw.
    + rewrite E. destruct F as (_ & -> & _). exact Hp.
    + exact Hall.
    + split; [exact R'|]. eapply flight_frame_trans; [|exact F'].
      now rewrite E.
Qed.

Lemma handleIdleTimeout_duplicate st :
  active st = false \/ wiping st = true -> handleIdleTimeout st = st.
Proof.
  intros [H|H]; unfold handleIdleTimeout; rewrite H;
    [reflexivity | now rewrite orb_true_r].
Qed.

Lemma tick_status_cutoff remaining st :
  statusEl st <> None -> (remaining <= 0)%Z ->
  tick_status remaining st
  = handleIdleTimeout (set_statusEl (Some {| idleShownMs := 0 |}) st).
Proof.
  intros He Hr. unfold tick_status.
  destruct (statusEl st); [|congruence].
  destruct (Z.gtb_spec remaining 0); [lia|reflexivity].
Qed.

(** The tick that reaches the idle cutoff, as far as the suspension. *)
Lemma update_cutoff now st s :
  reachable st -> active st = true -> session st = Some s ->
  wiping st = false -> sessionOver now s = false ->
  (idleCutoffMs s <= now - lastInsertAt st)%Z ->
  exists st1,
    flight_frame st st1 /\ wiping st1 = false
    /\ update now st
       = match vault st (targetPath s) with
         | Some TFile =>
             set_pending (Some (AwaitRead (targetPath s)))
               (emit (VaultRead (targetPath s)) (set_wiping true st1))
         | _ => set_pending (Some AwaitWipe) (set_wiping true st1)
         end.
Proof.
  intros Hr Ha Hs Hw Hnow Hidle.
  destruct (reachable_armed st Hr Ha) as (_ & Hst & _).
  destruct (tick_overlay_frame now s st) as (A & S & _ & _ & St & W & _ & V & _).
  exists (set_statusEl (Some {| idleShownMs := 0 |}) (tick_overlay now s st)).
  split; [|split].
  - eapply flight_frame_trans; [apply tick_overlay_flight|]. frame.
  - cbn [set_statusEl wiping]. congruence.
  - rewrite (update_running now st s Ha Hs Hnow).
    rewrite tick_status_cutoff by (rewrite ?St; auto; lia).
    unfold handleIdleTimeout, wipeTargetNote.
    cbn [set_statusEl set_wiping active wiping session vault].
    rewrite A, Ha, W, Hw, S, Hs, V. cbn [negb orb].
    destruct (vault st (targetPath s)) as [[]|]; reflexivity.
Qed.

Lemma clear_leaves_quiet target preserved ls :
  vault_calls (snd (clear_leaves target preserved ls)) = [].
Proof.
  induction ls as [|lf ls IH]; [reflexivity|].
  cbn [clear_leaves].
  destruct (clear_leaf target preserved lf) as [lf' e] eqn:El.
  destruct (clear_leaves target preserved ls) as [ls' es].
  cbn [snd] in *. rewrite vault_calls_app, IH, app_nil_r.
  unfold clear_leaf in El.
  destruct (leafFile lf) as [path|]; [|now inversion El].
  destruct (String.eqb path target); [|now inversion El].
  destruct (setViewData lf); now inversion El.
Qed.

(** The turn in which [vault.modify] resolves completes the wipe. *)
Lemma modify_resolved_completes st file preserved :
  pending st = Some (AwaitModify file preserved) ->
  let st' := step (ModifyDone (Resolved tt)) st in
  released st' /\ vault_calls (trace st') = vault_calls (trace st).
Proof.
  intros Hp st'. subst st'. unfold step. cbn [handle].
  unfold modifyDone. rewrite Hp.
  destruct (clear_views preserved st) as [st1|] eqn:Hc.
  - unfold microtask. cbn [set_pending pending]. unfold wipe_fulfilled.
    split; [apply finally_block_released|].
    rewrite finally_block_trace.
    cbn [emit set_trace set_pending trace]. rewrite vault_calls_app. cbn.
    rewrite app_nil_r.
    unfold clear_views in Hc. destruct (leaves st) eqn:Hl.
    + now inversion Hc.
    + destruct (session st) as [s|]; [|discriminate].
      pose proof (clear_leaves_quiet (targetPath s) preserved (leaves st)) as Q.
      rewrite Hl in Q.
      destruct (clear_leaves (targetPath s) preserved (l :: l0)) as [ls es].
      inversion Hc; subst. cbn [set_trace set_leaves trace].
      rewrite vault_calls_app. cbn [snd] in Q. rewrite Q. apply app_nil_r.
  - rewrite microtask_idle
      by (unfold wipe_rejected, finally_block; cbn [set_pending pending];
          discriminate).
    unfold wipe_rejected. split; [apply finally_block_released|].
    rewrite finally_block_trace. cbn [emit set_trace trace].
    rewrite !vault_calls_app. cbn. now rewrite !app_nil_r.
Qed.

Lemma read_rejected_completes st file :
  pending st = Some (AwaitRead file) ->
  let st' := step (ReadDone Rejected) st in
  released st' /\ vault_calls (trace st') = vault_calls (trace st).
Proof.
  intros Hp st'. subst st'. unfold step. cbn [handle].
  unfold readDone. rewrite Hp.
  rewrite microtask_idle
    by (unfold wipe_rejected, finally_block; cbn [set_pending pending];
        discriminate).
  unfold wipe_rejected. split; [apply finally_block_released|].
  rewrite finally_block_trace. cbn [emit set_trace trace].
  rewrite !vault_calls_app. cbn. now rewrite !app_nil_r.
Qed.

Lemma read_resolved_step st file raw :
  pending st = Some (AwaitRead file) ->
  step (ReadDone (Resolved raw)) st
  = set_pending (Some (AwaitModify file (preservedFrontmatter raw)))
      (emit (VaultModify file (preservedFrontmatter raw)) st).
Proof.
  intros Hp. unfold step. cbn [handle]. unfold readDone. rewrite Hp.
  cbv zeta. apply microtask_idle. cbn [set_pending pending]. discriminate.
Qed.

(** The turn of the tick that reaches the cutoff when the target resolves
    to a file: the flag is set and the read is under way. *)
Lemma tick_starts_wipe now st s :
  reachable st -> active st = true -> session st = Some s ->
  wiping st = false -> sessionOver now s = false ->
  (idleCutoffMs s <= now - lastInsertAt st)%Z ->
  vault st (targetPath s) = Some TFile ->
  let st' := step (Tick now) st in
  wiping st' = true /\ pending st' = Some (AwaitRead (targetPath s))
  /\ vault_calls (trace st')
     = vault_calls (trace st) ++ [VaultRead (targetPath s)].
Proof.
  intros Hr Ha Hs Hw Hnow Hidle Hv st'.
  destruct (update_cutoff now st s Hr Ha Hs Hw Hnow Hidle)
    as (st1 & (_ & _ & F) & _ & E).
  rewrite Hv in E.
  assert (E' : st' = update now st).
  { subst st'. unfold step. cbn [handle]. apply microtask_idle.
    rewrite E. cbn [set_pending pending]. discriminate. }
  rewrite E', E. fields. rewrite vault_calls_app, F. auto.
Qed.

(** The same turn when the target does not resolve to a file: the session
    ends at once and the vault is not touched. *)
Lemma tick_skips_wipe now st s :
  reachable st -> active st = true -> session st = Some s ->
  wiping st = false -> sessionOver now s = false ->
  (idleCutoffMs s <= now - lastInsertAt st)%Z ->
  vault st (targetPath s) <> Some TFile ->
  let st' := step (Tick now) st in
  released st' /\ vault_calls (trace st') = vault_calls (trace st).
Proof.
  intros Hr Ha Hs Hw Hnow Hidle Hv st'.
  destruct (update_cutoff now st s Hr Ha Hs Hw Hnow Hidle)
    as (st1 & (_ & _ & F) & _ & E).
  assert (E' : update now st = set_pending (Some AwaitWipe) (set_wiping true st1)).
  { rewrite E. destruct (vault st (targetPath s)) as [[]|]; congruence. }
  subst st'. unfold step. cbn [handle]. rewrite E'.
  unfold microtask. cbn [set_pending pending]. unfold wipe_fulfilled.
  split; [apply finally_block_released|].
  rewrite finally_block_trace. fields.
  rewrite vault_calls_app, F. cbn. apply app_nil_r.
Qed.

(** C2, amended. A trigger of the idle timeout that arrives while a wipe
    is in flight, or when no session is active, changes nothing. When a
    tick reaches the idle cutoff before the session has expired and no wipe
    is in flight, the flag is set before the document is read; whatever
    events arrive meanwhile, exactly one content replacement is performed
    when the target still resolves to a file and the read and the write
    succeed, and none when the target does not resolve or the read fails;
    in each case the session is ended and the flag cleared. *)
Theorem single_flight_wipe :
  (forall st,
      active st = false \/ wiping st = true -> handleIdleTimeout st = st)
  /\ (forall st s now evs1 evs2 raw,
         reachable st -> active st = true -> session st = Some s ->
         wiping st = false -> sessionOver now s = false ->
         (idleCutoffMs s <= now - lastInsertAt st)%Z ->
         forallb (fun ev => negb (is_completion ev)) (evs1 ++ evs2) = true ->
         let st1 := step (Tick now) st in
         (vault st (targetPath s) = Some TFile ->
          let file := targetPath s in
          let wiped := preservedFrontmatter raw in
          let st2 := run (evs1 ++ [ReadDone (Resolved raw)] ++ evs2
                          ++ [ModifyDone (Resolved tt)]) st1 in
          let st2' := run (evs1 ++ [ReadDone Rejected]) st1 in
          wiping st1 = true
          /\ vault_calls (trace st1) = vault_calls (trace st) ++ [VaultRead file]
          /\ vault_calls (trace st2)
             = vault_calls (trace st) ++ [VaultRead file; VaultModify file wiped]
          /\ replacements (trace st2)
             = replacements (trace st) ++ [VaultModify file wiped]
          /\ released st2
          /\ replacements (trace st2') = replacements (trace st)
          /\ released st2')
         /\ (vault st (targetPath s) <> Some TFile ->
             vault_calls (trace st1) = vault_calls (trace st)
             /\ released st1)).
Proof.
  split; [exact handleIdleTimeout_duplicate|].
  intros st s now evs1 evs2 raw Hr Ha Hs Hw Hnow Hidle Hall st1.
  rewrite forallb_app in Hall. apply andb_true_iff in Hall.
  destruct Hall as [Hall1 Hall2].
  split.
  - intros Hv file wiped st2 st2'.
    destruct (tick_starts_wipe now st s Hr Ha Hs Hw Hnow Hidle Hv)
      as (W1 & P1 & V1).
    fold st1 file in W1, P1, V1.
    assert (R1 : reachable st1) by (subst st1; now constructor).
    destruct (flight_run evs1 st1 (AwaitRead file) R1 W1 P1 Hall1)
      as (Ra & Wa & Pa & Va).
    set (sta := run evs1 st1) in *.
    rewrite W1 in Wa. rewrite P1 in Pa.
    (* the read resolves *)
    pose proof (read_resolved_step sta file raw Pa) as Eb.
    set (stb := step (ReadDone (Resolved raw)) sta) in *.
    assert (Rb : reachable stb) by (subst stb; now constructor).
    assert (Wb : wiping stb = true) by (rewrite Eb; exact Wa).
    assert (Pb : pending stb = Some (AwaitModify file wiped))
      by (rewrite Eb; reflexivity).
    assert (Vb : vault_calls (trace stb)
                 = vault_calls (trace st) ++ [VaultRead file; VaultModify file wiped]).
    { rewrite Eb. fields. rewrite vault_calls_app, Va, V1, <- app_assoc.
      reflexivity. }
    destruct (flight_run evs2 stb _ Rb Wb Pb Hall2) as (Rc & Wc & Pc & Vc).
    set (stc := run evs2 stb) in *.
    rewrite Pb in Pc.
    destruct (modify_resolved_completes stc file wiped Pc) as (Rel & Vd).
    assert (E2 : st2 = step (ModifyDone (Resolved tt)) stc).
    { subst st2 stc stb sta. now rewrite !run_app. }
    assert (V2 : vault_calls (trace st2)
                 = vault_calls (trace st) ++ [VaultRead file; VaultModify file wiped]).
    { rewrite E2, Vd, Vc. exact Vb. }
    destruct (read_rejected_completes sta file Pa) as (Rel' & Ve).
    assert (E2' : st2' = step (ReadDone Rejected) sta).
    { subst st2' sta. now rewrite run_app. }
    split; [exact W1|]. split; [exact V1|]. split; [exact V2|].
    split; [|split; [|split]].
    + rewrite <- replacements_vault_calls, V2.
      unfold replacements at 1. rewrite filter_app.
      fold (replacements (vault_calls (trace st))).
      now rewrite replacements_vault_calls.
    + rewrite E2. exact Rel.
    + rewrite <- replacements_vault_calls, E2', Ve, Va, V1.
      unfold replacements at 1. rewrite filter_app.
      fold (replacements (vault_calls (trace st))).
      rewrite replacements_vault_calls. cbn. apply app_nil_r.
    + rewrite E2'. exact Rel'.
  - intros Hv.
    destruct (tick_skips_wipe now st s Hr Ha Hs Hw Hnow Hidle Hv) as (Rel & V).
    split; assumption.
Qed.

(** ** Intensity emissions *)

Lemma emissions_app a b : emissions (a ++ b) = (emissions a + emissions b)%nat.
Proof. unfold emissions. now rewrite filter_app, length_app. Qed.

Lemma emission_frame_refl st : emission_frame st st.
Proof. split; reflexivity. Qed.

Lemma emission_frame_trans a b c :
  emission_frame a b -> emission_frame b c -> emission_frame a c.
Proof. unfold emission_frame. intuition congruence. Qed.

Lemma frame_emits a b : emission_frame a b -> emits_on_change a b.
Proof.
  intros (L & E). unfold emits_on_change, level_change.
  rewrite L, Z.eqb_refl, E. lia.
Qed.

Lemma emits_then_frame a b c :
  emits_on_change a b -> emission_frame b c -> emits_on_change a c.
Proof.
  unfold emits_on_change, level_change. intros H (L & E). now rewrite L, E.
Qed.

Lemma frame_then_emits a b c :
  emission_frame a b -> emits_on_change b c -> emits_on_change a c.
Proof.
  unfold emits_on_change, level_change. intros (L & E) H. now rewrite <- L, <- E.
Qed.

Lemma setOverlayProgress_emits p st :
  emits_on_change st (setOverlayProgress p st).
Proof.
  unfold emits_on_change, level_change.
  rewrite setOverlayProgress_trace, emissions_app.
  destruct (_ =? _)%Z; reflexivity.
Qed.

Lemma tick_overlay_emits now s st : emits_on_change st (tick_overlay now s st).
Proof.
  unfold tick_overlay. cbv zeta.
  destruct (_ >=? _)%Z;
    (eapply frame_then_emits; [|apply setOverlayProgress_emits];
     destruct (setOverlayVisible_frame true st) as (_ & L1 & T1);
     destruct (setOverlayVisible_frame false st) as (_ & L2 & T2);
     split; congruence).
Qed.

Lemma handleIdleTimeout_emission st : emission_frame st (handleIdleTimeout st).
Proof.
  unfold handleIdleTimeout, wipeTargetNote.
  destruct (negb (active st) || wiping st); [apply emission_frame_refl|].
  fields. destruct (session st) as [s|]; [|split; reflexivity].
  destruct (vault st (targetPath s)) as [[]|]; unfold emission_frame; fields;
    rewrite ?emissions_app; cbn; split; (reflexivity || lia).
Qed.

Lemma tick_status_emission remaining st :
  emission_frame st (tick_status remaining st).
Proof.
  unfold tick_status. destruct (statusEl st); [|apply emission_frame_refl].
  destruct (_ >? _)%Z; [split; reflexivity|].
  eapply emission_frame_trans; [|apply handleIdleTimeout_emission].
  split; reflexivity.
Qed.

Lemma endSession_emission st : emission_frame st (endSession st).
Proof.
  destruct (endSession_frame st) as (T & _ & _ & _ & L).
  split; congruence.
Qed.

Lemma emit_emission e st :
  is_emission e = false -> emission_frame st (emit e st).
Proof.
  intros He. unfold emission_frame. fields. rewrite emissions_app.
  unfold emissions at 2. cbn. rewrite He. cbn. split; [reflexivity|lia].
Qed.

Lemma microtask_emission st : emission_frame st (microtask st).
Proof.
  unfold microtask. destruct (pending st) as [[]|];
    try apply emission_frame_refl.
  unfold wipe_fulfilled. rewrite finally_block_eq.
  unfold emission_frame. fields. rewrite emissions_app. cbn.
  split; [reflexivity|lia].
Qed.

Lemma microtask_cases st :
  microtask st = st \/ active (microtask st) = false.
Proof.
  unfold microtask. destruct (pending st) as [[]|]; auto.
  right. unfold wipe_fulfilled.
  destruct (finally_block_released (emit (ShowNotice NoticeWiped) st))
    as ((H & _) & _).
  exact H.
Qed.

(** What one tick does to the intensity, its emissions and the session. *)
Lemma tick_summary now st :
  reachable st ->
  let st1 := step (Tick now) st in
  emits_on_change st st1
  /\ ((overlayLevel st1 = overlayLevel st /\ active st1 = false)
      \/ exists s,
          active st = true /\ session st = Some s
          /\ overlayLevel st1
             = overlay_level_spec (now - lastInsertAt st) (idleCutoffMs s)
          /\ (active st1 = true ->
              session st1 = Some s /\ lastInsertAt st1 = lastInsertAt st)).
Proof.
  intros Hr st1. subst st1. unfold step. cbn [handle].
  pose proof (microtask_emission (update now st)) as Hm.
  destruct (reachable_settled st Hr) as [Hc Hp].
  destruct (active st) eqn:Ha.
  2:{ rewrite update_inactive by (left; assumption).
      rewrite microtask_idle by exact Hp.
      split; [apply frame_emits, emission_frame_refl|]. left. auto. }
  destruct (session st) as [s|] eqn:Hs.
  2:{ destruct Hc as (Hc & _). destruct (Hc Ha) as (Hn & _). congruence. }
  destruct (running_or_over now s) as [Hnow|Hnow].
  - assert (Hu : emits_on_change st (update now st)).
    { rewrite (update_running now st s Ha Hs Hnow).
      eapply emits_then_frame;
        [apply tick_overlay_emits | apply tick_status_emission]. }
    split; [eapply emits_then_frame; eassumption|].
    right. exists s. split; [reflexivity|]. split; [reflexivity|].
    destruct (update_level now st s Hr Ha Hs Hnow) as (L & _).
    split; [destruct Hm as (-> & _); exact L|].
    intros Ha1.
    destruct (microtask_cases (update now st)) as [E|E]; [|congruence].
    rewrite E. rewrite (update_running now st s Ha Hs Hnow).
    destruct (tick_overlay_frame now s st) as (_ & S & Li & _).
    unfold tick_status. destruct (statusEl (tick_overlay now s st));
      [|split; congruence].
    destruct (_ >? _)%Z; [split; fields; congruence|].
    unfold handleIdleTimeout, wipeTargetNote.
    destruct (negb _ || _); [split; fields; congruence|].
    fields. rewrite S, Hs.
    destruct (vault _ _) as [[]|]; split; fields; congruence.
  - rewrite (update_expired now st s Ha Hs Hnow).
    set (e := endSession (emit (ShowNotice NoticeSessionComplete) st)) in *.
    assert (F : emission_frame st e).
    { subst e. eapply emission_frame_trans;
        [now apply (emit_emission (ShowNotice NoticeSessionComplete))
        | apply endSession_emission]. }
    assert (E : microtask e = e).
    { apply microtask_idle. subst e.
      destruct (endSession_frame (emit (ShowNotice NoticeSessionComplete) st))
        as (_ & _ & -> & _). exact Hp. }
    rewrite E. split; [now apply frame_emits|].
    left. split; [apply F|]. subst e.
    destruct (endSession_at_rest (emit (ShowNotice NoticeSessionComplete) st))
      as (H & _).
    exact H.
Qed.

(** After a tick the stored level is a floor for the later ticks of the
    same streak. *)
Lemma tick_sets_floor now rest st :
  reachable st -> Forall (Z.le now) rest ->
  let st1 := step (Tick now) st in
  forall s later,
    active st1 = true -> session st1 = Some s -> In later rest ->
    (overlayLevel st1
     <= overlay_level_spec (later - lastInsertAt st1) (idleCutoffMs s))%Z.
Proof.
  intros Hr Hle st1 s later Ha1 Hs1 Hin.
  pose proof (tick_summary now st Hr) as H. cbv zeta in H. fold st1 in H.
  destruct H as (_ & [(_ & Hf)|(s0 & _ & _ & L & K)]); [congruence|].
  destruct (K Ha1) as (S & Li). rewrite L, Li.
  assert (s = s0) by congruence. subst s0.
  apply overlay_level_spec_mono.
  rewrite Forall_forall in Hle. specialize (Hle later Hin). lia.
Qed.

(** Along a streak that starts at or below the level of its first tick,
    emissions are paid for by rises of the stored level. *)
Lemma streak_rising nows : forall st,
  reachable st -> StronglySorted Z.le nows ->
  (forall s now,
      active st = true -> session st = Some s -> In now nows ->
      (overlayLevel st
       <= overlay_level_spec (now - lastInsertAt st) (idleCutoffMs s))%Z) ->
  let final := run (streak nows) st in
  (Z.of_nat (emissions (trace final)) - Z.of_nat (emissions (trace st))
   <= overlayLevel final - overlayLevel st)%Z.
Proof.
  induction nows as [|now rest IH]; intros st Hr Hsort Hfloor.
  - cbn. lia.
  - inversion Hsort as [|? ? Hsort1 Hle]; subst.
    unfold streak. cbn [map]. rewrite run_cons. fold (streak rest). cbv zeta.
    set (st1 := step (Tick now) st).
    assert (R1 : reachable st1) by (subst st1; now constructor).
    specialize (IH st1 R1 Hsort1 (tick_sets_floor now rest st Hr Hle)).
    cbv zeta in IH.
    pose proof (tick_summary now st Hr) as H. cbv zeta in H. fold st1 in H.
    destruct H as (He & Hcase).
    unfold emits_on_change, level_change in He.
    assert (Hup : (overlayLevel st <= overlayLevel st1)%Z).
    { destruct Hcase as [(L & _)|(s & Ha & Hs & L & _)]; [lia|].
      rewrite L. apply Hfloor; [assumption..|now left]. }
    destruct (Z.eqb_spec (overlayLevel st1) (overlayLevel st)); lia.
Qed.

Lemma level_change_le_1 a b : (level_change a b <= 1)%nat.
Proof. unfold level_change. destruct (_ =? _)%Z; lia. Qed.

Lemma reachable_level st : reachable st -> (0 <= overlayLevel st <= 10)%Z.
Proof. intros Hr. now destruct (reachable_settled st Hr) as [(_&_&_&H) _]. Qed.

Lemma streak_reachable nows st : reachable st -> reachable (run (streak nows) st).
Proof. apply run_reachable. Qed.

(** C9, amended. [setOverlayProgress] emits the intensity only when the
    quantized level differs from the stored one: a ratio that quantizes to
    the stored level updates nothing. Along an uninterrupted idle streak
    (ticks at non-decreasing times, no insertion) there are at most 10
    emissions when the streak begins at stored level 0, and at most 11 in
    general: the first tick after an insertion may emit the reset to 0
    before the ten rising steps. *)
Theorem overlay_emitted_on_level_change :
  (forall p st,
      clamp (Math_round (p * 10)) 0%Z 10%Z = overlayLevel st ->
      setOverlayProgress p st = st)
  /\ (forall p st,
         emissions (trace (setOverlayProgress p st))
         = (emissions (trace st)
            + (if (overlayLevel (setOverlayProgress p st) =? overlayLevel st)%Z
               then 0 else 1))%nat)
  /\ (forall st nows,
         reachable st -> StronglySorted Z.le nows ->
         let final := run (streak nows) st in
         (emissions (trace final) <= emissions (trace st) + 11)%nat
         /\ (overlayLevel st = 0%Z ->
             (emissions (trace final) <= emissions (trace st) + 10)%nat)).
Proof.
  split; [|split].
  - intros p st H. unfold setOverlayProgress.
    destruct (overlayEl st); [|reflexivity].
    rewrite H, Z.eqb_refl. reflexivity.
  - intros p st. apply setOverlayProgress_emits.
  - intros st nows Hr Hsort final. split.
    + destruct nows as [|now rest].
      * cbn. lia.
      * inversion Hsort as [|? ? Hsort1 Hle]; subst.
        subst final. unfold streak. cbn [map]. rewrite run_cons.
        fold (streak rest).
        set (st1 := step (Tick now) st).
        assert (R1 : reachable st1) by (subst st1; now constructor).
        pose proof (streak_rising rest st1 R1 Hsort1
                      (tick_sets_floor now rest st Hr Hle)) as Hrise.
        cbv zeta in Hrise.
        pose proof (tick_summary now st Hr) as H. cbv zeta in H. fold st1 in H.
        destruct H as (He & _). unfold emits_on_change in He.
        pose proof (level_change_le_1 st st1).
        pose proof (reachable_level st1 R1).
        pose proof (reachable_level _ (streak_reachable rest st1 R1)).
        lia.
    + intros H0.
      pose proof (streak_rising nows st Hr Hsort) as Hrise. cbv zeta in Hrise.
      fold final in Hrise.
      assert (Hf : (Z.of_nat (emissions (trace final))
                    - Z.of_nat (emissions (trace st))
                    <= overlayLevel final - overlayLevel st)%Z).
      { apply Hrise. intros s now _ _ _. rewrite H0.
        apply overlay_level_spec_range. }
      pose proof (reachable_level _ (streak_reachable nows st Hr)) as Hl.
      fold final in Hl. lia.
Qed.

(** ** The sample states *)

Lemma armed_reachable : reachable armed.
Proof. unfold armed. apply reach_step, reach_loaded. Qed.

Lemma armed_unresolved_reachable : reachable armed_unresolved.
Proof. unfold armed_unresolved. apply reach_step, reach_step, reach_loaded. Qed.

Lemma reading_reachable : reachable reading.
Proof. unfold reading. apply reach_step, armed_reachable. Qed.

Lemma resumed_reachable : reachable resumed.
Proof. unfold resumed. apply run_reachable, armed_reachable. Qed.

Lemma second_streak_sorted : StronglySorted Z.le second_streak.
Proof.
  unfold second_streak.
  repeat first [ apply SSorted_nil | apply SSorted_cons
               | apply Forall_nil | apply Forall_cons | lia ].
Qed.

(** A closed fact about the sample states, settled by evaluation. *)
Ltac concrete :=
  vm_compute; first [reflexivity | discriminate | congruence].

Lemma armed_session s : session armed = Some s -> s = sample_session.
Proof. intros E. vm_compute in E. now inversion E. Qed.

(** ** Instances and counterexamples *)

Lemma wipe_preserves_header_block_witness :
  pending reading = Some (AwaitRead note_path)
  /\ trace (readDone (Resolved sample_note) reading)
     = trace reading ++ [VaultModify note_path (header_block_spec sample_note)]
  /\ is_delimiter (nth 0 (split_newlines (lit "body text")) []) = false
  /\ preservedFrontmatter (lit "body text") = [].
Proof.
  destruct wipe_preserves_header_block as (_ & H2 & _ & H4).
  split; [reflexivity|]. split; [apply H2; reflexivity|].
  split; [reflexivity|]. apply H4. reflexivity.
Defined.

(** The cutoff is reached, the session has not expired and no wipe is in
    flight, yet the episode ends without any content replacement: the target
    no longer resolves to a file. *)
Lemma idle_cutoff_without_replacement :
  reachable armed_unresolved
  /\ active armed_unresolved = true
  /\ wiping armed_unresolved = false
  /\ session armed_unresolved = Some sample_session
  /\ sessionOver 5000 sample_session = false
  /\ (idleCutoffMs sample_session <= 5000 - lastInsertAt armed_unresolved)%Z
  /\ released (step (Tick 5000) armed_unresolved)
  /\ replacements
       (trace (run [Tick 5000; Tick 5100; Tick 5200] armed_unresolved)) = [].
Proof.
  split; [exact armed_unresolved_reachable|].
  repeat split; vm_compute; congruence.
Qed.

Lemma single_flight_wipe_witness :
  (wiping reading = true /\ handleIdleTimeout reading = reading)
  /\ reachable armed /\ active armed = true
  /\ session armed = Some sample_session /\ wiping armed = false
  /\ sessionOver 5000 sample_session = false
  /\ (idleCutoffMs sample_session <= 5000 - lastInsertAt armed)%Z
  /\ vault armed (targetPath sample_session) = Some TFile
  /\ (let st1 := step (Tick 5000) armed in
      let st2 := run ([Tick 5100; CmUpdate 5150 (view_of note_path) typed]
                      ++ [ReadDone (Resolved sample_note)] ++ [Tick 5200]
                      ++ [ModifyDone (Resolved tt)]) st1 in
      replacements (trace st2)
      = replacements (trace armed) ++ [VaultModify note_path sample_header]
      /\ released st2)
  /\ vault armed_unresolved (targetPath sample_session) <> Some TFile
  /\ released (step (Tick 5000) armed_unresolved).
Proof.
  destruct single_flight_wipe as (H1 & H2).
  split; [split; [reflexivity | apply H1; right; reflexivity]|].
  split; [exact armed_reachable|].
  split; [concrete|]. split; [concrete|]. split; [concrete|].
  split; [concrete|]. split; [concrete|]. split; [concrete|].
  split; [|split; [concrete|]].
  - destruct (H2 armed sample_session 5000%Z
                 [Tick 5100; CmUpdate 5150 (view_of note_path) typed]
                 [Tick 5200] sample_note armed_reachable
                 ltac:(concrete) ltac:(concrete) ltac:(concrete)
                 ltac:(concrete) ltac:(concrete) ltac:(concrete))
      as (Hres & _).
    destruct (Hres eq_refl) as (_ & _ & _ & Hrep & Hrel & _).
    split; [exact Hrep | exact Hrel].
  - destruct (H2 armed_unresolved sample_session 5000%Z [] [] sample_note
                 armed_unresolved_reachable
                 ltac:(concrete) ltac:(concrete) ltac:(concrete)
                 ltac:(concrete) ltac:(concrete) ltac:(concrete))
      as (_ & Hun).
    apply Hun. concrete.
Defined.

Lemma duration_end_has_priority_witness :
  reachable armed /\ active armed = true
  /\ session armed = Some sample_session
  /\ sessionOver 300000 sample_session = true
  /\ (idleCutoffMs sample_session <= 300000 - lastInsertAt armed)%Z
  /\ (let st' := step (Tick 300000) armed in
      trace st' = trace armed ++ [ShowNotice NoticeSessionComplete]
      /\ at_rest st'
      /\ vault_calls (trace st') = vault_calls (trace armed)).
Proof.
  split; [exact armed_reachable|].
  split; [concrete|]. split; [concrete|].
  split; [concrete|]. split; [concrete|].
  destruct (duration_end_has_priority armed sample_session 300000%Z
              armed_reachable ltac:(concrete) ltac:(concrete)
              ltac:(concrete)) as (_ & Ht & Hr & Hv & _).
  split; [exact Ht|]. split; [exact Hr | exact Hv].
Defined.

Lemma insertion_before_cutoff_prevents_wipe_witness :
  reachable armed /\ active armed = true
  /\ session armed = Some sample_session
  /\ Forall (fun now => sessionOver now sample_session = false
                        /\ (now - lastInsertAt armed
                            < idleCutoffMs sample_session)%Z) [1000; 4900]%Z
  /\ Qualifying sample_session 4950
       (CmUpdate 4950 (view_of note_path) typed)
  /\ Forall (fun now => sessionOver now sample_session = false
                        /\ (now - 4950 < idleCutoffMs sample_session)%Z)
            [5000; 9900]%Z
  /\ (let st1 := run (map Tick [1000; 4900]%Z) armed in
      let st2 := step (CmUpdate 4950 (view_of note_path) typed) st1 in
      let st3 := run (map Tick [5000; 9900]%Z) st2 in
      lastInsertAt st2 = 4950%Z
      /\ vault_calls (trace st3) = vault_calls (trace armed)).
Proof.
  assert (F1 : Forall (fun now => sessionOver now sample_session = false
                                  /\ (now - lastInsertAt armed
                                      < idleCutoffMs sample_session)%Z)
                      [1000; 4900]%Z)
    by (repeat constructor).
  assert (Q : Qualifying sample_session 4950
                (CmUpdate 4950 (view_of note_path) typed))
    by (apply (qualifying_primary sample_session 4950 typed); reflexivity).
  assert (F2 : Forall (fun now => sessionOver now sample_session = false
                                  /\ (now - 4950 < idleCutoffMs sample_session)%Z)
                      [5000; 9900]%Z)
    by (repeat constructor).
  split; [exact armed_reachable|].
  split; [reflexivity|]. split; [reflexivity|].
  split; [exact F1|]. split; [exact Q|]. split; [exact F2|].
  destruct (insertion_before_cutoff_prevents_wipe armed sample_session
              [1000; 4900]%Z 4950%Z _ [5000; 9900]%Z
              armed_reachable eq_refl eq_refl F1 Q F2)
    as (_ & L2 & _ & _ & V & _).
  split; [exact L2 | exact V].
Defined.

Lemma failed_wipe_ends_session_witness :
  pending writing = Some (AwaitModify note_path sample_header)
  /\ (let st' := step (ModifyDone Rejected) writing in
      trace st' = trace writing ++ [ConsoleError; ShowNotice NoticeWipeFailed]
      /\ released st'
      /\ released (step (ModifyDone (Resolved tt)) writing)).
Proof.
  split; [reflexivity|].
  destruct (failed_wipe_ends_session writing note_path sample_header
              (ModifyDone Rejected)) as (Ht & Hr & _ & _ & Hs).
  - right. split; reflexivity.
  - split; [exact Ht|]. split; [exact Hr|]. apply Hs. reflexivity.
Defined.


Lemma fallback_advances_only_on_growth_witness :
  active armed = true /\ session armed = Some sample_session
  /\ (jslength (sample_note ++ lit "x") > docLength sample_session)%Z
  /\ lastInsertAt (editorChange 1234 (sample_note ++ lit "x")
                     (view_of note_path) armed) = 1234%Z
  /\ (forall s, session armed = Some s ->
                (jslength sample_header <= docLength s)%Z)
  /\ lastInsertAt (editorChange 1234 sample_header (view_of note_path) armed)
     = lastInsertAt armed.
Proof.
  assert (D : forall s, session armed = Some s ->
                        (jslength sample_header <= docLength s)%Z).
  { intros s E. rewrite (armed_session s E). discriminate. }
  split; [reflexivity|]. split; [reflexivity|]. split; [reflexivity|].
  split; [|split; [exact D|]].
  - destruct (fallback_advances_only_on_growth 1234%Z (sample_note ++ lit "x")
                (view_of note_path) armed) as (H & _).
    apply (H sample_session); reflexivity.
  - destruct (fallback_advances_only_on_growth 1234%Z sample_header
                (view_of note_path) armed) as (_ & H).
    apply H. right. right. right. exact D.
Defined.

(** C8. The primary channel does not ignore a foreign edit. Its listener
    tests the active view of the workspace and never reads [update.view]:
    the view of the update makes no difference to what it does, and with the
    target note in the active view a character typed in the editor of
    another note sets [lastInsertAt] as a keystroke in the target would, so
    that the tick at the cutoff of the real idle time starts no wipe. The
    fallback channel, which tests the view of its own event, ignores the
    same edit. *)
Theorem foreign_edit_resets_idle_clock :
  (forall now activeView v v' chs st,
      updateListener now activeView {| update_view := v; changes := chs |} st
      = updateListener now activeView
          {| update_view := v'; changes := chs |} st)
  /\ (let st := step (Tick 4000) armed in
      let st' :=
        step (CmUpdate 4050 (view_of note_path) typed_elsewhere) st in
      session st = Some sample_session
      /\ editorFile (update_view typed_elsewhere) = Some other_path
      /\ other_path <> targetPath sample_session
      /\ lastInsertAt st = 0%Z
      /\ lastInsertAt st' = 4050%Z
      /\ session st' = session st
      /\ step (EditorChange 4050 (lit "a") (view_of other_path)) st = st
      /\ vault_calls (trace (step (Tick 5000) st)) = [VaultRead note_path]
      /\ vault_calls (trace (step (Tick 5000) st')) = []).
Proof.
  split; [reflexivity|]. cbv zeta.
  split; [concrete|]. split; [concrete|]. split; [concrete|].
  split; [concrete|]. split; [concrete|]. split; [concrete|].
  split; [concrete|]. split; concrete.
Qed.

Lemma foreign_events_ignored_witness :
  (forall s, session armed = Some s ->
             view_of "other.md" <> view_of (targetPath s))
  /\ updateListener 1234 (view_of "other.md") typed armed = armed
  /\ editorChange 1234 (sample_note ++ lit "x") (view_of "other.md") armed
     = armed.
Proof.
  assert (D : forall s, session armed = Some s ->
                        view_of "other.md" <> view_of (targetPath s)).
  { intros s E. rewrite (armed_session s E). discriminate. }
  split; [exact D|].
  apply foreign_events_ignored. right. right. exact D.
Defined.

Lemma fallback_baseline_follows_deletions_witness :
  active armed = true /\ session armed = Some sample_session
  /\ (jslength (lit "---") < docLength sample_session)%Z
  /\ (jslength (lit "---") < jslength (lit "--- more"))%Z
  /\ (jslength (lit "--- more") < docLength sample_session)%Z
  /\ (let view := view_of (targetPath sample_session) in
      let st1 := editorChange 1000 (lit "---") view armed in
      let st2 := editorChange 2000 (lit "--- more") view st1 in
      lastInsertAt st1 = lastInsertAt armed /\ lastInsertAt st2 = 2000%Z).
Proof.
  split; [reflexivity|]. split; [reflexivity|]. split; [reflexivity|].
  split; [reflexivity|]. split; [reflexivity|].
  destruct (fallback_baseline_follows_deletions armed sample_session
              1000%Z 2000%Z (lit "---") (lit "--- more")
              eq_refl eq_refl eq_refl eq_refl) as (_ & L1 & _ & L2).
  split; [exact L1 | exact L2].
Defined.

(** The streak that follows the insertion at 4050 ms is uninterrupted, its
    ticks are in time order and below the cutoff, and it produces eleven
    emissions: the reset from 7 to 0, then the levels 1 to 10. *)
Lemma eleven_emissions_in_one_streak :
  reachable resumed
  /\ StronglySorted Z.le second_streak
  /\ lastInsertAt resumed = 4050%Z
  /\ overlayLevel resumed = 7%Z
  /\ (let final := run (streak second_streak) resumed in
      active final = true
      /\ lastInsertAt final = 4050%Z
      /\ vault_calls (trace final) = []
      /\ emissions (trace final) = (emissions (trace resumed) + 11)%nat).
Proof.
  split; [exact resumed_reachable|].
  split; [exact second_streak_sorted|].
  repeat split; vm_compute; reflexivity.
Qed.

Lemma overlay_emitted_on_level_change_witness :
  clamp (Math_round (0 * 10)) 0%Z 10%Z = overlayLevel armed
  /\ setOverlayProgress 0 armed = armed
  /\ reachable resumed /\ StronglySorted Z.le second_streak
  /\ (emissions (trace (run (streak second_streak) resumed))
      <= emissions (trace resumed) + 11)%nat
  /\ reachable armed /\ overlayLevel armed = 0%Z
  /\ (emissions (trace (run (streak second_streak) armed))
      <= emissions (trace armed) + 10)%nat.
Proof.
  destruct overlay_emitted_on_level_change as (H1 & _ & H3).
  split; [reflexivity|]. split; [apply H1; reflexivity|].
  split; [exact resumed_reachable|]. split; [exact second_streak_sorted|].
  split; [apply (H3 resumed second_streak resumed_reachable second_streak_sorted)|].
  split; [exact armed_reachable|]. split; [reflexivity|].
  apply (H3 armed second_streak armed_reachable second_streak_sorted).
  reflexivity.
Defined.

(* ================================================================== *)
(** * Further properties *)

(** ** The frontmatter block, continued *)

Lemma split_newlines_single (s : jsstring) :
  ~ In LF s -> split_newlines s = [s].
Proof.
  induction s as [|c rest IH]; intros H; [reflexivity|].
  cbn [split_newlines].
  destruct (N.eqb_spec c LF) as [->|Hc]; [exfalso; apply H; now left|].
  destruct rest as [|d rest']; [reflexivity|].
  destruct (N.eqb_spec d LF) as [->|Hd];
    [exfalso; apply H; right; now left|].
  rewrite andb_false_r. rewrite IH by (intros Hin; apply H; now right).
  reflexivity.
Qed.

Lemma join_cons_first sep c ls :
  ls <> [] -> join sep (cons_first c ls) = c :: join sep ls.
Proof.
  destruct ls as [|l [|l' ls']]; [congruence|reflexivity|reflexivity].
Qed.

Lemma join_cons sep l ls :
  ls <> [] -> join sep (l :: ls) = l ++ sep ++ join sep ls.
Proof. destruct ls; [congruence|reflexivity]. Qed.

Lemma join_app sep a b :
  a <> [] -> b <> [] -> join sep (a ++ b) = join sep a ++ sep ++ join sep b.
Proof.
  intros Ha Hb. induction a as [|l a IH]; [congruence|].
  destruct a as [|l' a'].
  - cbn [app]. now rewrite join_cons.
  - change ((l :: l' :: a') ++ b) with (l :: ((l' :: a') ++ b)).
    rewrite join_cons by discriminate.
    rewrite IH by discriminate.
    rewrite (join_cons sep l (l' :: a')) by discriminate.
    now rewrite <- !app_assoc.
Qed.

(** Splitting and joining back never lengthens a content. *)
Lemma join_split_length (s : jsstring) :
  (length (join newline (split_newlines s)) <= length s)%nat.
Proof.
  remember (length s) as n eqn:Hn.
  revert s Hn. induction n as [n IH] using lt_wf_ind. intros s Hn.
  destruct s as [|c rest]; [cbn; lia|].
  cbn [split_newlines].
  destruct (c =? LF)%N.
  - rewrite join_cons by apply split_newlines_nonempty.
    specialize (IH (length rest) ltac:(subst; cbn; lia) rest eq_refl).
    subst n. cbn in *. lia.
  - destruct rest as [|d rest']; [cbn; subst; cbn; lia|].
    destruct ((c =? CR)%N && (d =? LF)%N).
    + rewrite join_cons by apply split_newlines_nonempty.
      specialize (IH (length rest') ltac:(subst; cbn; lia) rest' eq_refl).
      subst n. cbn in *. lia.
    + rewrite join_cons_first by apply split_newlines_nonempty.
      specialize (IH (length (d :: rest')) ltac:(subst; cbn; lia)
                     (d :: rest') eq_refl).
      subst n. cbn [length] in *. lia.
Qed.

(** Without carriage returns, splitting and joining back is the identity. *)
Lemma join_split_identity (s : jsstring) :
  ~ In CR s -> join newline (split_newlines s) = s.
Proof.
  induction s as [|c rest IH]; intros H; [reflexivity|].
  assert (Hrest : ~ In CR rest) by (intros Hin; apply H; now right).
  assert (Hc : (c =? CR)%N = false).
  { apply N.eqb_neq. intros ->. apply H. now left. }
  cbn [split_newlines].
  destruct (N.eqb_spec c LF) as [->|Hlf].
  - rewrite join_cons by apply split_newlines_nonempty.
    now rewrite IH.
  - destruct rest as [|d rest']; [reflexivity|].
    rewrite Hc. cbn [andb].
    rewrite join_cons_first by apply split_newlines_nonempty.
    now rewrite IH.
Qed.

(** Every unit of a line is a unit of the content. *)
Lemma split_newlines_units (s : jsstring) :
  Forall (fun l => forall c, In c l -> In c s) (split_newlines s).
Proof.
  remember (length s) as n eqn:Hn.
  revert s Hn. induction n as [n IH] using lt_wf_ind. intros s Hn.
  destruct s as [|c rest]; [constructor; [intros ? []|constructor]|].
  cbn [split_newlines].
  assert (Hup : forall t, (forall x, In x t -> In x rest) ->
                          forall ls, Forall (fun l => forall x, In x l -> In x t) ls ->
                          Forall (fun l => forall x, In x l -> In x (c :: rest)) ls).
  { intros t Ht ls Hls. eapply Forall_impl; [|exact Hls].
    intros l Hl x Hx. right. auto. }
  destruct (c =? LF)%N.
  - constructor; [intros ? []|].
    apply (Hup rest); [auto|].
    apply (IH (length rest)); subst; cbn; lia.
  - destruct rest as [|d rest'];
      [constructor; [intros x Hx; exact Hx | constructor]|].
    destruct ((c =? CR)%N && (d =? LF)%N).
    + constructor; [intros ? []|].
      apply (Hup rest'); [intros x Hx; now right|].
      apply (IH (length rest')); subst; cbn; lia.
    + pose proof (IH (length (d :: rest')) ltac:(subst; cbn; lia)
                     (d :: rest') eq_refl) as Hr.
      pose proof (split_newlines_nonempty (d :: rest')) as Hne.
      destruct (split_newlines (d :: rest')) as [|l ls]; [congruence|].
      cbn [cons_first]. inversion Hr as [|? ? Hl Hls]; subst.
      constructor.
      * intros x [->|Hx]; [now left|right; auto].
      * apply (Hup (d :: rest')); auto.
Qed.

(** The lines kept by [through_closing] are a prefix of the later lines
    that ends with the first delimiter among them. *)
Lemma through_closing_shape later ls :
  through_closing later = Some ls ->
  exists rest, later = ls ++ rest /\ ls <> []
               /\ forall more, through_closing (ls ++ more) = Some ls.
Proof.
  revert ls. induction later as [|l later IH]; intros ls H; [discriminate|].
  cbn [through_closing] in H. destruct (is_delimiter l) eqn:Hd.
  - inversion H; subst. exists later. split; [reflexivity|].
    split; [discriminate|]. intros more. cbn. now rewrite Hd.
  - destruct (through_closing later) as [ls'|] eqn:Ht; [|discriminate].
    inversion H; subst. destruct (IH ls' eq_refl) as (rest & E & _ & M).
    exists rest. split; [cbn; now rewrite <- E|].
    split; [discriminate|]. intros more. cbn. now rewrite Hd, M.
Qed.

(** The preserved content, when there is one, by its lines. *)
Lemma preserved_lines raw :
  preservedFrontmatter raw = []
  \/ exists first ls rest,
      split_newlines raw = (first :: ls) ++ rest
      /\ is_delimiter first = true
      /\ through_closing (ls ++ rest) = Some ls
      /\ preservedFrontmatter raw = join newline (first :: ls) ++ newline.
Proof.
  unfold preservedFrontmatter. rewrite extract_spec.
  destruct (split_newlines raw) as [|first later] eqn:Hs; [now left|].
  destruct (is_delimiter first) eqn:Hd; [|now left].
  destruct (through_closing later) as [ls|] eqn:Ht; [|now left].
  right. destruct (through_closing_shape later ls Ht) as (rest & E & _ & _).
  exists first, ls, rest. subst later. auto.
Qed.

Lemma join_prefix_length (a b : list jsstring) :
  (length (join newline a) <= length (join newline (a ++ b)))%nat.
Proof.
  destruct a as [|l a]; [cbn; lia|].
  destruct b as [|l' b]; [now rewrite app_nil_r|].
  rewrite join_app by discriminate. rewrite !length_app. lia.
Qed.

(** Splitting a joined list of lines gives the lines back, when no line
    holds a line feed or a carriage return. *)
Lemma split_line_then (l rest : jsstring) :
  ~ In LF l -> ~ In CR l ->
  split_newlines (l ++ LF :: rest) = l :: split_newlines rest.
Proof.
  induction l as [|c l IH]; intros Hlf Hcr.
  - cbn. reflexivity.
  - assert (Hc : (c =? LF)%N = false)
      by (apply N.eqb_neq; intros ->; apply Hlf; now left).
    assert (Hc' : (c =? CR)%N = false)
      by (apply N.eqb_neq; intros ->; apply Hcr; now left).
    change ((c :: l) ++ LF :: rest) with (c :: (l ++ LF :: rest)).
    cbn [split_newlines]. rewrite Hc.
    destruct (l ++ LF :: rest) as [|d t] eqn:E;
      [destruct l; discriminate|].
    rewrite Hc'. cbn [andb].
    rewrite IH
      by (intros Hin; first [apply Hlf; now right | apply Hcr; now right]).
    reflexivity.
Qed.

Lemma split_join (ls : list jsstring) :
  ls <> [] ->
  Forall (fun l => ~ In LF l /\ ~ In CR l) ls ->
  split_newlines (join newline ls) = ls.
Proof.
  induction ls as [|l ls IH]; intros Hne Hall; [congruence|].
  inversion Hall as [|? ? [Hlf Hcr] Hrest]; subst.
  destruct ls as [|l' ls'].
  - cbn. now apply split_newlines_single.
  - rewrite join_cons by discriminate. unfold newline at 1.
    cbn [app]. rewrite split_line_then by assumption.
    now rewrite IH by (discriminate || assumption).
Qed.

Lemma through_closing_last later ls :
  through_closing later = Some ls ->
  exists pre d, ls = pre ++ [d] /\ is_delimiter d = true.
Proof.
  revert ls. induction later as [|l later IH]; intros ls H; [discriminate|].
  cbn [through_closing] in H. destruct (is_delimiter l) eqn:Hd.
  - inversion H; subst. now exists [], l.
  - destruct (through_closing later) as [ls'|]; [|discriminate].
    inversion H; subst. destruct (IH ls' eq_refl) as (pre & d & -> & Hdd).
    now exists (l :: pre), d.
Qed.

(** The lines of a content without carriage returns hold neither a line
    feed nor a carriage return. *)
Lemma split_newlines_clean raw :
  ~ In CR raw ->
  Forall (fun l => ~ In LF l /\ ~ In CR l) (split_newlines raw).
Proof.
  intros H. pose proof (split_newlines_no_LF raw) as Hlf.
  pose proof (split_newlines_units raw) as Hu.
  rewrite Forall_forall in *. intros l Hl. split; [now apply Hlf|].
  intros Hin. apply H. now apply (Hu l Hl).
Qed.

(** X1. A content without any line feed is wiped to the empty string, be
    its only line the delimiter itself. *)
Theorem one_line_content_is_wiped :
  forall raw, ~ In LF raw -> preservedFrontmatter raw = [].
Proof.
  intros raw H. unfold preservedFrontmatter. rewrite extract_spec.
  rewrite (split_newlines_single raw H).
  now destruct (is_delimiter raw).
Qed.

Lemma one_line_content_is_wiped_witness :
  ~ In LF (lit "---") /\ preservedFrontmatter (lit "---") = [].
Proof.
  assert (H : ~ In LF (lit "---"))
    by (cbn; intros [E|[E|[E|[]]]]; discriminate E).
  split; [exact H|]. exact (one_line_content_is_wiped (lit "---") H).
Defined.

(** X2. The preserved content is never longer than the original content
    plus the one line feed the wipe appends. *)
Theorem preserved_length_bound :
  forall raw,
    (length (preservedFrontmatter raw) <= length raw + 1)%nat.
Proof.
  intros raw.
  destruct (preserved_lines raw) as [E|(first & ls & rest & Hs & _ & _ & E)];
    rewrite E; [cbn; lia|].
  rewrite length_app. cbn [newline length].
  pose proof (join_prefix_length (first :: ls) rest) as H1.
  rewrite <- Hs in H1.
  pose proof (join_split_length raw). lia.
Qed.

(** X3. For a content without carriage returns the wipe invents nothing:
    the preserved content is a prefix of the original content followed by
    one line feed. *)
Theorem preserved_is_prefix :
  forall raw,
    ~ In CR raw ->
    exists dropped, raw ++ [LF] = preservedFrontmatter raw ++ dropped.
Proof.
  intros raw H.
  destruct (preserved_lines raw) as [E|(first & ls & rest & Hs & _ & _ & E)];
    rewrite E; [now exists (raw ++ [LF])|].
  pose proof (join_split_identity raw H) as J. rewrite Hs in J.
  destruct rest as [|r rest].
  - exists []. rewrite app_nil_r in *. now rewrite J.
  - exists (join newline (r :: rest) ++ [LF]).
    rewrite join_app in J by discriminate.
    rewrite <- J. unfold newline. now rewrite <- !app_assoc.
Qed.

Lemma preserved_is_prefix_witness :
  ~ In CR sample_note
  /\ exists dropped,
      sample_note ++ [LF] = preservedFrontmatter sample_note ++ dropped.
Proof.
  assert (H : ~ In CR sample_note).
  { intros Hin. vm_compute in Hin.
    repeat (destruct Hin as [Hin|Hin]; [discriminate Hin|]). exact Hin. }
  split; [exact H|]. exact (preserved_is_prefix sample_note H).
Defined.

(** X4. For a content without carriage returns the wipe is idempotent:
    wiping the preserved content gives the preserved content again. With
    carriage returns it need not be: a carriage return left at the end of a
    line is taken for part of the separator the second time. *)
Theorem wipe_is_idempotent :
  (forall raw,
      ~ In CR raw ->
      preservedFrontmatter (preservedFrontmatter raw)
      = preservedFrontmatter raw)
  /\ (let raw := lit "---" ++ [CR; CR; LF] ++ lit "---" in
      preservedFrontmatter (preservedFrontmatter raw)
      <> preservedFrontmatter raw).
Proof.
  split; [|vm_compute; discriminate].
  intros raw H.
  destruct (preserved_lines raw) as [E|(first & ls & rest & Hs & Hd & Ht & E)];
    rewrite E; [reflexivity|].
  pose proof (split_newlines_clean raw H) as Hc. rewrite Hs in Hc.
  apply Forall_app in Hc. destruct Hc as [Hc _].
  assert (Hb : join newline (first :: ls) ++ newline
               = join newline ((first :: ls) ++ [[]])).
  { rewrite join_app by discriminate. cbn [join]. now rewrite app_nil_r. }
  assert (Hsplit : split_newlines (join newline (first :: ls) ++ newline)
                   = first :: (ls ++ [[]])).
  { rewrite Hb. rewrite split_join.
    - reflexivity.
    - discriminate.
    - apply Forall_app. split; [exact Hc|].
      constructor; [|constructor]. split; intros []. }
  destruct (through_closing_shape _ _ Ht) as (_ & _ & _ & Hmore).
  unfold preservedFrontmatter at 1. rewrite extract_spec, Hsplit, Hd, Hmore.
  reflexivity.
Qed.

Lemma wipe_is_idempotent_witness :
  ~ In CR sample_note
  /\ preservedFrontmatter (preservedFrontmatter sample_note)
     = preservedFrontmatter sample_note.
Proof.
  assert (H : ~ In CR sample_note).
  { intros Hin. vm_compute in Hin.
    repeat (destruct Hin as [Hin|Hin]; [discriminate Hin|]). exact Hin. }
  split; [exact H|].
  destruct wipe_is_idempotent as (Hi & _). exact (Hi sample_note H).
Defined.

(** X5. A preserved content that is not empty ends with exactly one line
    feed: its last unit is a line feed and the unit before it is not. *)
Theorem preserved_ends_with_one_line_feed :
  forall raw,
    preservedFrontmatter raw <> [] ->
    exists body c,
      preservedFrontmatter raw = body ++ [c; LF] /\ c <> LF.
Proof.
  intros raw Hne.
  destruct (preserved_lines raw) as [E|(first & ls & rest & Hs & _ & Ht & E)];
    [congruence|].
  destruct (through_closing_last _ _ Ht) as (pre & d & -> & Hd).
  pose proof (split_newlines_no_LF raw) as Hlf. rewrite Hs in Hlf.
  rewrite Forall_forall in Hlf.
  assert (Hdl : ~ In LF d).
  { apply Hlf. apply in_or_app. left. right. apply in_or_app. right. now left. }
  destruct (exists_last (is_delimiter_nonempty d Hd)) as (d' & c & ->).
  assert (Hc : c <> LF)
    by (intros ->; apply Hdl, in_or_app; right; now left).
  rewrite E.
  change (first :: pre ++ [d' ++ [c]]) with ((first :: pre) ++ [d' ++ [c]]).
  rewrite join_snoc. cbn [app].
  exists (join newline (first :: pre) ++ newline ++ d'), c.
  split; [|exact Hc].
  unfold newline. now rewrite <- !app_assoc.
Qed.

Lemma preserved_ends_with_one_line_feed_witness :
  preservedFrontmatter sample_note <> []
  /\ exists body c,
      preservedFrontmatter sample_note = body ++ [c; LF] /\ c <> LF.
Proof.
  assert (H : preservedFrontmatter sample_note <> [])
    by (vm_compute; discriminate).
  split; [exact H|]. exact (preserved_ends_with_one_line_feed sample_note H).
Defined.

(** ** Session end, continued *)

Lemma clearInterval_others id j l :
  j <> id -> In j (clearInterval id l) <-> In j l.
Proof.
  intros Hne. unfold clearInterval. rewrite filter_In.
  destruct (Nat.eqb_spec id j) as [->|_]; [contradiction|].
  cbn. tauto.
Qed.

(** X6. [endSession] is idempotent and releases every part of the session
    from any state: the flag, the file, the session object, the status
    item, the overlay, the no-select class, and the ticker, whose interval
    is cleared at the host while every other interval is left running. It
    leaves the wipe flag and a suspended wipe alone, so [onunload] during a
    wipe does not cancel it. *)
Theorem endSession_idempotent :
  forall st,
    endSession (endSession st) = endSession st
    /\ at_rest (endSession st)
    /\ handle Unload st = endSession st
    /\ (forall id,
          idleTicker st = Some id ->
          ~ In id (timers (endSession st))
          /\ (forall j, j <> id ->
                        In j (timers (endSession st)) <-> In j (timers st)))
    /\ (idleTicker st = None -> timers (endSession st) = timers st)
    /\ wiping (endSession st) = wiping st
    /\ pending (endSession st) = pending st
    /\ trace (endSession st) = trace st.
Proof.
  intros st. split; [|split; [|split; [reflexivity|split; [|split]]]].
  - rewrite (endSession_eq (endSession st)). rewrite (endSession_eq st).
    reflexivity.
  - rewrite endSession_eq. repeat split.
  - intros id Hid. rewrite endSession_eq. cbn [timers]. rewrite Hid.
    split; [apply clearInterval_not_in|].
    intros j Hj. now apply clearInterval_others.
  - intros Hid. rewrite endSession_eq. cbn [timers]. now rewrite Hid.
  - rewrite endSession_eq. repeat split.
Qed.

Lemma endSession_idempotent_witness :
  idleTicker armed = Some 1%nat
  /\ In 1%nat (timers armed)
  /\ ~ In 1%nat (timers (endSession armed))
  /\ at_rest (endSession armed)
  /\ endSession (endSession armed) = endSession armed.
Proof.
  assert (Hid : idleTicker armed = Some 1%nat) by (vm_compute; reflexivity).
  destruct (endSession_idempotent armed) as (H1 & H2 & _ & H4 & _).
  split; [exact Hid|]. split; [vm_compute; now left|].
  split; [exact (proj1 (H4 1%nat Hid))|]. split; [exact H2 | exact H1].
Defined.

(** X8. In every reachable state the plug-in is armed in all its parts or
    in none: the active flag, the session object, the status item and the
    overlay element are present together or absent together, no ticker is
    held at rest, and a continuation of the wipe is pending exactly while
    the wipe flag is set. *)
Theorem armed_in_all_parts_or_none :
  forall st,
    reachable st ->
    (active st = true <-> session st <> None)
    /\ (active st = true <-> statusEl st <> None)
    /\ (active st = true <-> overlayEl st <> None)
    /\ (active st = false -> idleTicker st = None)
    /\ (wiping st = true <-> pending st <> None).
Proof.
  intros st Hr.
  destruct (reachable_settled st Hr) as [(H1 & H2 & H3 & _) _].
  destruct (active st) eqn:Ha.
  - destruct (H1 eq_refl) as (A & B & C).
    repeat split; try tauto; try discriminate.
    + intros Hw. destruct H3 as [_ H3]. intros Hp.
      apply H3 in Hp. congruence.
    + intros Hp. destruct (wiping st) eqn:Hw; [reflexivity|].
      exfalso. apply Hp. now apply H3.
  - destruct (H2 eq_refl) as (A & B & C & D).
    repeat split; try tauto; try congruence; try discriminate.
    + intros Hw. destruct H3 as [_ H3]. intros Hp.
      apply H3 in Hp. congruence.
    + intros Hp. destruct (wiping st) eqn:Hw; [reflexivity|].
      exfalso. apply Hp. now apply H3.
Qed.

Lemma armed_in_all_parts_or_none_witness :
  reachable reading
  /\ (active reading = true <-> session reading <> None)
  /\ (wiping reading = true <-> pending reading <> None).
Proof.
  split; [exact reading_reachable|].
  destruct (armed_in_all_parts_or_none reading reading_reachable)
    as (H1 & _ & _ & _ & H5).
  split; [exact H1 | exact H5].
Defined.

(** ** The status item *)

Lemma handleIdleTimeout_session st :
  statusEl (handleIdleTimeout st) = statusEl st
  /\ lastInsertAt (handleIdleTimeout st) = lastInsertAt st
  /\ leaves (handleIdleTimeout st) = leaves st.
Proof.
  unfold handleIdleTimeout, wipeTargetNote.
  destruct (negb (active st) || wiping st); [repeat split|].
  fields. destruct (session st) as [s|]; [|repeat split].
  destruct (vault st (targetPath s)) as [[]|]; repeat split.
Qed.

(** X9. After a tick of a running session the status item shows the time
    left before the cutoff, never less than zero:
    [max(0, idleCutoffMs - idleMs)]. *)
Theorem status_shows_clamped_countdown :
  forall st s now,
    reachable st -> active st = true -> session st = Some s ->
    sessionOver now s = false ->
    statusEl (update now st)
    = Some {| idleShownMs :=
                Z.max 0 (idleCutoffMs s - (now - lastInsertAt st)) |}.
Proof.
  intros st s now Hr Ha Hs Hnow.
  destruct (reachable_armed st Hr Ha) as (_ & Hst & _).
  rewrite (update_running now st s Ha Hs Hnow).
  destruct (tick_overlay_frame now s st) as (_ & _ & _ & _ & St & _).
  unfold tick_status. rewrite St.
  destruct (statusEl st) as [el|]; [|congruence].
  destruct (Z.gtb_spec (idleCutoffMs s - (now - lastInsertAt st)) 0).
  - fields. f_equal. f_equal. lia.
  - destruct (handleIdleTimeout_session
                (set_statusEl (Some {| idleShownMs := 0 |})
                              (tick_overlay now s st))) as (-> & _).
    fields. f_equal. f_equal. lia.
Qed.

Lemma status_shows_clamped_countdown_witness :
  reachable armed /\ active armed = true
  /\ session armed = Some sample_session
  /\ sessionOver 1200 sample_session = false
  /\ statusEl (update 1200 armed) = Some {| idleShownMs := 3800 |}
  /\ statusEl (update 7000 armed) = Some {| idleShownMs := 0 |}.
Proof.
  split; [exact armed_reachable|].
  split; [reflexivity|]. split; [reflexivity|]. split; [reflexivity|].
  split.
  - exact (status_shows_clamped_countdown armed sample_session 1200%Z
             armed_reachable eq_refl eq_refl eq_refl).
  - exact (status_shows_clamped_countdown armed sample_session 7000%Z
             armed_reachable eq_refl eq_refl eq_refl).
Defined.

(** ** The primary channel *)

Lemma inserted_sum_zero (u : ViewUpdate) :
  ~ inserts_text u -> inserted_sum u = 0%Z.
Proof.
  unfold inserts_text, inserted_sum. intros H.
  induction (changes u) as [|ch l IH]; [reflexivity|].
  cbn [fold_right]. rewrite IH.
  - destruct (insertedText ch) eqn:E; [reflexivity|].
    exfalso. apply H. exists ch. split; [now left|]. rewrite E. discriminate.
  - intros (ch' & Hin & Hne). apply H. exists ch'. split; [now right|exact Hne].
Qed.

Lemma inserted_sum_positive (u : ViewUpdate) :
  inserts_text u -> (inserted_sum u > 0)%Z.
Proof.
  unfold inserts_text, inserted_sum. intros (ch & Hin & Hne).
  induction (changes u) as [|ch' l IH]; [destruct Hin|].
  cbn [fold_right].
  assert (Hl : (0 <= fold_right
                       (fun ch acc => jslength (insertedText ch) + acc) 0 l)%Z).
  { clear. induction l as [|c l IH]; cbn; [lia|].
    pose proof (Zle_0_nat (length (insertedText c))).
    unfold jslength at 1. lia. }
  pose proof (Zle_0_nat (length (insertedText ch'))) as H0.
  destruct Hin as [->|Hin].
  - destruct (insertedText ch) eqn:E; [congruence|].
    unfold jslength at 1. cbn [length]. lia.
  - specialize (IH Hin). unfold jslength at 1. lia.
Qed.

(** X12. On the primary channel a transaction on the target counts as an
    insertion exactly when one of its changes inserts text, whatever it
    deletes beside: then [lastInsertAt] becomes the current time; a
    transaction that inserts nothing leaves the whole state as it is. *)
Theorem primary_counts_inserted_text_only :
  forall now u st s,
    active st = true -> session st = Some s ->
    let st' := updateListener now (view_of (targetPath s)) u st in
    (inserts_text u ->
       st' = set_idleWarnFired false (set_lastInsertAt now st))
    /\ (~ inserts_text u -> st' = st).
Proof.
  intros now u st s Ha Hs st'. split.
  - intros Hi. subst st'.
    now apply updateListener_qualifying, inserted_sum_positive.
  - intros Hn. subst st'. unfold updateListener, view_of.
    rewrite Ha, Hs, String.eqb_refl. cbn [negb].
    destruct (docChanged u); [|reflexivity]. cbn [negb].
    rewrite fold_left_inserted. fold (inserted_sum u).
    now rewrite (inserted_sum_zero u Hn).
Qed.

Lemma primary_counts_inserted_text_only_witness :
  active armed = true /\ session armed = Some sample_session
  /\ inserts_text typed
  /\ lastInsertAt (updateListener 777 (view_of note_path) typed armed) = 777%Z
  /\ ~ inserts_text erased
  /\ updateListener 777 (view_of note_path) erased armed = armed.
Proof.
  assert (Hi : inserts_text typed).
  { eexists. split; [left; reflexivity|]. discriminate. }
  assert (Hn : ~ inserts_text erased).
  { intros (ch & [<-|[]] & Hne). now apply Hne. }
  split; [reflexivity|]. split; [reflexivity|]. split; [exact Hi|].
  split; [|split; [exact Hn|]].
  - destruct (primary_counts_inserted_text_only 777%Z typed armed
                sample_session eq_refl eq_refl) as (H & _).
    cbv zeta in H. change (targetPath sample_session) with note_path in H.
    rewrite (H Hi). reflexivity.
  - destruct (primary_counts_inserted_text_only 777%Z erased
                armed sample_session eq_refl eq_refl) as (_ & H).
    exact (H Hn).
Defined.

(** ** The input guards *)

Lemma reachable_active_session st :
  reachable st -> (active st = true <-> session st <> None).
Proof.
  intros Hr. destruct (reachable_settled st Hr) as [(H1 & H2 & _) _].
  destruct (active st).
  - split; [intros _; apply (H1 eq_refl) | reflexivity].
  - destruct (H2 eq_refl) as (-> & _). split; [discriminate|congruence].
Qed.

(** X13. The guards follow the session: in a reachable state without a
    session every listened event passes untouched; with a session, copy,
    cut, paste, the context menu, the start of a selection and a drop are
    default-prevented and stopped, and a drag-over is default-prevented
    without being stopped. *)
Theorem guards_follow_session :
  forall lower st ev e,
    reachable st ->
    (session st = None -> guard lower st ev e = e)
    /\ (session st <> None -> (forall k, ev <> Keydown k) ->
        defaultPrevented (guard lower st ev e) = true
        /\ propagationStopped (guard lower st ev e)
           = match ev with
             | DragOver => propagationStopped e
             | _ => true
             end).
Proof.
  intros lower st ev e Hr.
  pose proof (reachable_active_session st Hr) as Ha. split.
  - intros Hs. assert (A : active st = false).
    { destruct (active st); [|reflexivity].
      exfalso. now apply (proj1 Ha eq_refl). }
    unfold guard. rewrite A. now destruct ev.
  - intros Hs Hk. apply Ha in Hs. unfold guard. rewrite Hs.
    destruct ev; try (split; reflexivity).
    exfalso. now apply (Hk k).
Qed.

Lemma guards_follow_session_witness :
  reachable armed /\ session armed <> None
  /\ (forall k, Paste <> Keydown k)
  /\ guard lower_units armed Paste untouched
     = {| defaultPrevented := true; propagationStopped := true |}
  /\ reachable (step Unload armed) /\ session (step Unload armed) = None
  /\ guard lower_units (step Unload armed) Paste untouched = untouched.
Proof.
  assert (R : reachable (step Unload armed))
    by (apply reach_step, armed_reachable).
  split; [exact armed_reachable|]. split; [concrete|].
  split; [discriminate|]. split; [|split; [exact R|split; [concrete|]]].
  - destruct (guards_follow_session lower_units armed Paste untouched
                armed_reachable) as (_ & H).
    destruct H as (H1 & H2); [concrete | discriminate |].
    destruct (guard lower_units armed Paste untouched) as [d p].
    cbn in H1, H2. now subst.
  - destruct (guards_follow_session lower_units (step Unload armed) Paste
                untouched R) as (H & _).
    apply H. reflexivity.
Defined.

Lemma eqb_unit (a b : N) : JsString.eqb [a] [b] = (a =? b)%N.
Proof. cbn. apply andb_true_r. Qed.

(** X14. While a session is active a key press is suppressed only with the
    meta or the control key held; the shift key makes no difference (the
    redo clause is covered by the undo clause). For a key of one ASCII
    letter, with [toLowerCase] mapping A-Z to a-z on it, the press is
    suppressed exactly for the letters c, x, v, a, z and y in either case. *)
Theorem keydown_guard :
  forall lower st k e,
    active st = true ->
    (isMod k = false -> guard lower st (Keydown k) e = e)
    /\ (forall shift,
           guard lower st
                 (Keydown {| key := key k; metaKey := metaKey k;
                             ctrlKey := ctrlKey k; shiftKey := shift |}) e
           = guard lower st (Keydown k) e)
    /\ (forall c,
           (forall u, (u < 128)%N -> lower [u] = [ascii_lower u]) ->
           (c < 128)%N -> key k = [c] -> isMod k = true ->
           guard lower st (Keydown k) e
           = if existsb (N.eqb (ascii_lower c)) [99; 120; 118; 97; 122; 121]%N
             then stopPropagation (preventDefault e) else e).
Proof.
  intros lower st k e Ha. split; [|split].
  - intros Hm. unfold guard. rewrite Ha, Hm. cbn [negb andb orb].
    now rewrite andb_false_r.
  - intros shift. unfold guard, isMod, keyEq. rewrite Ha. cbn [negb].
    cbn [key metaKey ctrlKey shiftKey].
    destruct (metaKey k || ctrlKey k); cbn [andb orb].
    + destruct (JsString.eqb (lower (key k)) (lower (lit "z"))) eqn:Ez.
      * now rewrite !orb_true_r.
      * now rewrite !andb_false_r, !orb_false_r.
    + now rewrite !andb_false_r.
  - intros c Hl Hc Hk Hm. unfold guard, keyEq. rewrite Ha, Hm, Hk.
    cbn [negb andb].
    change (lit "c") with [99%N]. change (lit "x") with [120%N].
    change (lit "v") with [118%N]. change (lit "a") with [97%N].
    change (lit "z") with [122%N]. change (lit "y") with [121%N].
    rewrite (Hl c Hc).
    rewrite !Hl by reflexivity.
    change (ascii_lower 99) with 99%N. change (ascii_lower 120) with 120%N.
    change (ascii_lower 118) with 118%N. change (ascii_lower 97) with 97%N.
    change (ascii_lower 122) with 122%N. change (ascii_lower 121) with 121%N.
    rewrite !eqb_unit. cbn [existsb].
    set (l := ascii_lower c).
    destruct (shiftKey k); cbn [andb];
      destruct (l =? 99)%N, (l =? 120)%N, (l =? 118)%N, (l =? 97)%N,
               (l =? 122)%N, (l =? 121)%N; reflexivity.
Qed.

Lemma keydown_guard_witness :
  active armed = true
  /\ (forall u, (u < 128)%N -> lower_units [u] = [ascii_lower u])
  /\ guard lower_units armed
       (Keydown {| key := lit "V"; metaKey := false; ctrlKey := true;
                   shiftKey := false |}) untouched
     = stopPropagation (preventDefault untouched)
  /\ guard lower_units armed
       (Keydown {| key := lit "v"; metaKey := false; ctrlKey := false;
                   shiftKey := false |}) untouched
     = untouched.
Proof.
  assert (Hl : forall u, (u < 128)%N -> lower_units [u] = [ascii_lower u])
    by reflexivity.
  split; [reflexivity|]. split; [exact Hl|]. split.
  - destruct (keydown_guard lower_units armed
                {| key := lit "V"; metaKey := false; ctrlKey := true;
                   shiftKey := false |} untouched eq_refl) as (_ & _ & H).
    exact (H 86%N Hl eq_refl eq_refl eq_refl).
  - destruct (keydown_guard lower_units armed
                {| key := lit "v"; metaKey := false; ctrlKey := false;
                   shiftKey := false |} untouched eq_refl) as (H & _).
    exact (H eq_refl).
Defined.

(** X20. The guards are installed once: however often
    [attachGlobalGuards] is called, the registry is as after the first
    call, with one listener for each of the eight event types added. *)
Theorem guards_attached_once :
  forall n r,
    Nat.iter (S n) attachGlobalGuards r = attachGlobalGuards r
    /\ (handlersAttached r = false ->
        listeners (attachGlobalGuards r)
        = listeners r ++ [OnKeydown; OnCopy; OnCut; OnPaste; OnContextMenu;
                          OnSelectStart; OnDragOver; OnDrop]).
Proof.
  intros n r. split.
  - induction n as [|n IH]; [reflexivity|].
    change (Nat.iter (S (S n)) attachGlobalGuards r)
      with (attachGlobalGuards (Nat.iter (S n) attachGlobalGuards r)).
    rewrite IH. unfold attachGlobalGuards.
    destruct (handlersAttached r) eqn:H; [now rewrite H | reflexivity].
  - intros H. unfold attachGlobalGuards. now rewrite H.
Qed.

Lemma guards_attached_once_witness :
  handlersAttached {| handlersAttached := false; listeners := [] |} = false
  /\ listeners (Nat.iter 3 attachGlobalGuards
                  {| handlersAttached := false; listeners := [] |})
     = [OnKeydown; OnCopy; OnCut; OnPaste; OnContextMenu; OnSelectStart;
        OnDragOver; OnDrop].
Proof.
  split; [reflexivity|].
  destruct (guards_attached_once 2
              {| handlersAttached := false; listeners := [] |}) as (H1 & H2).
  rewrite H1. exact (H2 eq_refl).
Defined.

(** ** The duration dialog *)

Lemma results_app a b : Picker.results (a ++ b) = Picker.results a ++ Picker.results b.
Proof.
  induction a as [|x a IH]; [reflexivity|].
  destruct x; cbn; now rewrite IH.
Qed.

Lemma quickOpts_positive i minutes :
  nth_error Picker.quickOpts i = Some minutes -> 0 < minutes.
Proof.
  unfold Picker.quickOpts.
  destruct i as [|[|[|i]]]; cbn; intros E; inversion E; try reflexivity.
  destruct i; discriminate.
Qed.

Lemma valid_number_acceptable n :
  negb (Picker.isFinite n) || Picker.le_zero n = false ->
  Picker.acceptable (Some n).
Proof.
  destruct n as [|neg|q]; cbn [Picker.isFinite Picker.le_zero negb orb];
    try discriminate.
  intros H. cbn [Picker.acceptable].
  destruct (Qcompare q 0) eqn:E; try discriminate.
  now apply Qgt_alt.
Qed.

(** The dialog is either still shown and unresolved with nothing handed
    over, or hidden with exactly one acceptable value handed over. *)
Lemma act_invariant a m :
  (Picker.shown m = true /\ Picker.resolved m = false
   /\ Picker.results (Picker.done m) = [])
  \/ (Picker.shown m = false
      /\ exists r, Picker.results (Picker.done m) = [r] /\ Picker.acceptable r) ->
  (Picker.shown (Picker.act a m) = true /\ Picker.resolved (Picker.act a m) = false
   /\ Picker.results (Picker.done (Picker.act a m)) = [])
  \/ (Picker.shown (Picker.act a m) = false
      /\ exists r, Picker.results (Picker.done (Picker.act a m)) = [r]
                   /\ Picker.acceptable r).
Proof.
  intros [(Hs & Hr & Hd)|(Hs & r & Hd & Hacc)].
  2:{ right. unfold Picker.act. rewrite Hs. cbn [negb]. eauto. }
  unfold Picker.act. rewrite Hs. cbn [negb].
  destruct a as [i|n| |].
  - destruct (nth_error Picker.quickOpts i) as [minutes|] eqn:E; [|now left].
    right. unfold Picker.choose, Picker.close, Picker.onClose. cbn.
    split; [reflexivity|]. rewrite results_app, Hd. cbn.
    eexists. split; [reflexivity|]. cbn. now apply (quickOpts_positive i).
  - unfold Picker.submit.
    destruct (negb (Picker.isFinite n) || Picker.le_zero n) eqn:E.
    + left. cbn. rewrite results_app, Hd. auto.
    + right. unfold Picker.close, Picker.onClose. cbn.
      split; [reflexivity|]. rewrite results_app, Hd. cbn.
      eexists. split; [reflexivity|]. now apply valid_number_acceptable.
  - right. unfold Picker.cancel, Picker.close, Picker.onClose. cbn.
    split; [reflexivity|]. rewrite results_app, Hd. cbn.
    eexists. split; [reflexivity|]. exact I.
  - right. unfold Picker.close, Picker.onClose. cbn. rewrite Hr. cbn.
    split; [reflexivity|]. rewrite results_app, Hd. cbn.
    eexists. split; [reflexivity|]. exact I.
Qed.

(** X15. Whatever the user does with the duration dialog, [onResult] is
    called at most once, it has been called exactly once when the dialog is
    gone, and the value handed over is [null] or a finite number above
    zero; an invalid entry hands nothing over and leaves the dialog open. *)
Theorem picker_resolves_once :
  forall l,
    let m := Picker.acts l Picker.opened in
    (length (Picker.results (Picker.done m)) <= 1)%nat
    /\ (Picker.shown m = false
        <-> length (Picker.results (Picker.done m)) = 1%nat)
    /\ Forall Picker.acceptable (Picker.results (Picker.done m))
    /\ (forall n,
           Picker.shown m = true ->
           negb (Picker.isFinite n) || Picker.le_zero n = true ->
           Picker.shown (Picker.act (Picker.Submit n) m) = true
           /\ Picker.results (Picker.done (Picker.act (Picker.Submit n) m))
              = []).
Proof.
  intros l m.
  assert (H : (Picker.shown m = true /\ Picker.resolved m = false
               /\ Picker.results (Picker.done m) = [])
              \/ (Picker.shown m = false
                  /\ exists r, Picker.results (Picker.done m) = [r]
                               /\ Picker.acceptable r)).
  { subst m. unfold Picker.acts.
    assert (H0 : (Picker.shown Picker.opened = true
                  /\ Picker.resolved Picker.opened = false
                  /\ Picker.results (Picker.done Picker.opened) = [])
                 \/ (Picker.shown Picker.opened = false
                     /\ exists r, Picker.results (Picker.done Picker.opened) = [r]
                                  /\ Picker.acceptable r))
      by (left; repeat split).
    revert H0. generalize Picker.opened.
    induction l as [|a l IH]; intros m0 H0; [exact H0|].
    cbn [fold_left]. apply IH. now apply act_invariant. }
  destruct H as [(Hs & Hr & Hd)|(Hs & r & Hd & Hacc)].
  - rewrite Hd, Hs. cbn. repeat split; try lia; try discriminate.
    + constructor.
    + unfold Picker.act, Picker.submit. rewrite Hs, H0. reflexivity.
    + unfold Picker.act, Picker.submit. rewrite Hs, H0. cbn.
      rewrite results_app, Hd. reflexivity.
  - rewrite Hd, Hs. cbn. repeat split; try lia; try discriminate.
    repeat constructor. exact Hacc.
Qed.

Lemma picker_resolves_once_witness :
  Picker.shown (Picker.acts [] Picker.opened) = true
  /\ negb (Picker.isFinite Picker.NaN) || Picker.le_zero Picker.NaN = true
  /\ Picker.shown (Picker.act (Picker.Submit Picker.NaN)
                              (Picker.acts [] Picker.opened)) = true
  /\ Picker.results
       (Picker.done
          (Picker.acts [Picker.Submit (Picker.Finite 0); Picker.ClickQuick 1;
                        Picker.ClickCancel] Picker.opened))
     = [Some (Picker.Finite 10)].
Proof.
  split; [reflexivity|]. split; [reflexivity|]. split; [|reflexivity].
  destruct (picker_resolves_once []) as (_ & _ & _ & H).
  exact (proj1 (H Picker.NaN eq_refl eq_refl)).
Defined.

(** ** The idle clock *)

Lemma tick_status_lastInsertAt remaining st :
  lastInsertAt (tick_status remaining st) = lastInsertAt st.
Proof.
  unfold tick_status. destruct (statusEl st); [|reflexivity].
  destruct (_ >? _)%Z; [reflexivity|].
  now destruct (handleIdleTimeout_session
                  (set_statusEl (Some {| idleShownMs := 0 |}) st))
    as (_ & -> & _).
Qed.

Lemma update_lastInsertAt now st :
  lastInsertAt (update now st) = lastInsertAt st.
Proof.
  destruct (active st) eqn:Ha;
    [|now rewrite update_inactive by (left; assumption)].
  destruct (session st) as [s|] eqn:Hs;
    [|now rewrite update_inactive by (right; assumption)].
  destruct (running_or_over now s) as [Hnow|Hnow].
  - rewrite (update_running now st s Ha Hs Hnow), tick_status_lastInsertAt.
    apply tick_overlay_frame.
  - rewrite (update_expired now st s Ha Hs Hnow), endSession_eq. reflexivity.
Qed.

Lemma microtask_lastInsertAt st :
  lastInsertAt (microtask st) = lastInsertAt st
  /\ leaves (microtask st) = leaves st.
Proof.
  unfold microtask. destruct (pending st) as [[]|]; try (split; reflexivity).
  unfold wipe_fulfilled. rewrite finally_block_eq. split; reflexivity.
Qed.

Lemma wipe_rejected_lastInsertAt st :
  lastInsertAt (wipe_rejected st) = lastInsertAt st
  /\ leaves (wipe_rejected st) = leaves st.
Proof. unfold wipe_rejected. rewrite finally_block_eq. split; reflexivity. Qed.

Lemma clear_views_lastInsertAt preserved st st1 :
  clear_views preserved st = Some st1 -> lastInsertAt st1 = lastInsertAt st.
Proof.
  unfold clear_views. destruct (leaves st); [now intros [= <-]|].
  destruct (session st) as [s|]; [|discriminate].
  destruct (clear_leaves _ _ _). now intros [= <-].
Qed.

Lemma emit_lastInsertAt e st : lastInsertAt (emit e st) = lastInsertAt st.
Proof. reflexivity. Qed.

Lemma picked_lastInsertAt startedAt now path value minutes st :
  lastInsertAt (startSessionFlow_picked startedAt now path value minutes st)
  = startedAt.
Proof.
  unfold startSessionFlow_picked. cbv zeta. rewrite emit_lastInsertAt.
  unfold startIdleTicker.
  match goal with
  | |- context [set_noSelect true (ensureOverlay ?y)] => set (y0 := y)
  end.
  assert (Hy : lastInsertAt y0 = startedAt) by (subst y0; reflexivity).
  clearbody y0.
  set (x0 := set_noSelect true (ensureOverlay y0)).
  assert (Hx : lastInsertAt x0 = startedAt).
  { subst x0. unfold ensureOverlay. destruct (overlayEl y0); exact Hy. }
  clearbody x0.
  destruct (session x0); [|exact Hx].
  rewrite update_lastInsertAt. exact Hx.
Qed.

(** What one event does to [lastInsertAt]: nothing, or the time it carries. *)
Lemma step_lastInsertAt ev st :
  lastInsertAt (step ev st) = lastInsertAt st
  \/ match ev with
     | Picked startedAt _ _ _ _ => lastInsertAt (step ev st) = startedAt
     | CmUpdate now _ _ | EditorChange now _ _ =>
         lastInsertAt (step ev st) = now
     | _ => False
     end.
Proof.
  unfold step. destruct (microtask_lastInsertAt (handle ev st)) as (-> & _).
  destruct ev; cbn [handle].
  - left. apply update_lastInsertAt.
  - left. unfold startSessionFlow. destruct (active st); [reflexivity|].
    destruct view as [[[path|]]|]; reflexivity.
  - right. apply picked_lastInsertAt.
  - unfold updateListener. destruct (negb (active st)); [now left|].
    destruct (session st) as [s|]; [|now left].
    destruct activeView as [[[path|]]|]; try (now left).
    destruct (negb _); [now left|]. destruct (negb _); [now left|].
    destruct (_ >? _)%Z; [now right | now left].
  - unfold editorChange. destruct (negb (active st)); [now left|].
    destruct (session st) as [s|]; [|now left].
    destruct view as [[[path|]]|]; try (now left).
    destruct (negb _); [now left|]. cbv zeta.
    destruct (_ >? _)%Z; [now right | now left].
  - left. unfold readDone.
    destruct (pending st) as [[| file | file p]|]; try reflexivity.
    destruct r; [reflexivity | apply wipe_rejected_lastInsertAt].
  - left. unfold modifyDone.
    destruct (pending st) as [[| file | file p]|]; try reflexivity.
    destruct r; [|apply wipe_rejected_lastInsertAt].
    destruct (clear_views p st) as [st1|] eqn:E;
      [|apply wipe_rejected_lastInsertAt].
    fields. now apply (clear_views_lastInsertAt p).
  - left. rewrite endSession_eq. reflexivity.
  - now left.
  - now left.
Qed.

(** X16. When the clock readings of a run never go back, [lastInsertAt]
    never moves backward and never runs ahead of the clock; so the idle
    time computed by a later tick is never negative. *)
Theorem lastInsertAt_follows_clock :
  forall evs st c c',
    (lastInsertAt st <= c)%Z -> clock_after c evs = Some c' ->
    (lastInsertAt st <= lastInsertAt (run evs st))%Z
    /\ (lastInsertAt (run evs st) <= c')%Z
    /\ (c <= c')%Z.
Proof.
  induction evs as [|ev evs IH]; intros st c c' Hle Hc.
  - cbn in *. inversion Hc; subst. lia.
  - cbn [clock_after] in Hc. rewrite run_cons.
    destruct (tick_clock c ev) as [c1|] eqn:Ht; [|discriminate].
    assert (H1 : (lastInsertAt st <= lastInsertAt (step ev st) <= c1)%Z
                 /\ (c <= c1)%Z).
    { pose proof (step_lastInsertAt ev st) as E. unfold tick_clock in Ht.
      destruct ev as [now|view|sa now path value minutes|now av u
                     |now value view|r|r| |v|ls];
        try (destruct E as [E|[]]; inversion Ht; subst; lia);
        try (destruct (Z.leb_spec c now); [|discriminate];
             inversion Ht; subst; destruct E as [E|E]; lia).
      destruct (Z.leb_spec c sa); cbn [andb] in Ht; [|discriminate].
      destruct (Z.leb_spec sa now); [|discriminate].
      inversion Ht; subst. destruct E as [E|E]; lia. }
    destruct (IH (step ev st) c1 c') as (A & B & C); [lia | exact Hc |].
    lia.
Qed.

Lemma lastInsertAt_follows_clock_witness :
  (lastInsertAt armed <= 0)%Z
  /\ clock_after 0 [Tick 1000; CmUpdate 1500 (view_of note_path) typed;
                    Tick 1600] = Some 1600%Z
  /\ (lastInsertAt armed
      <= lastInsertAt (run [Tick 1000; CmUpdate 1500 (view_of note_path) typed;
                            Tick 1600] armed) <= 1600)%Z.
Proof.
  split; [concrete|]. split; [reflexivity|].
  destruct (lastInsertAt_follows_clock
              [Tick 1000; CmUpdate 1500 (view_of note_path) typed; Tick 1600]
              armed 0%Z 1600%Z) as (A & B & _);
    [concrete | reflexivity |].
  split; [exact A | exact B].
Defined.

(** ** The views after the wipe *)

Lemma clear_leaves_map target preserved ls :
  fst (clear_leaves target preserved ls)
  = map (leaf_after_wipe target preserved) ls
  /\ Forall (eq ConsoleDebug) (snd (clear_leaves target preserved ls)).
Proof.
  induction ls as [|lf ls (IH1 & IH2)]; [split; [reflexivity|constructor]|].
  cbn [clear_leaves map].
  destruct (clear_leaves target preserved ls) as [ls' es]. cbn [fst snd] in *.
  unfold clear_leaf, leaf_after_wipe.
  destruct (leafFile lf) as [path|].
  - destruct (String.eqb path target).
    + destruct (setViewData lf); cbn [fst snd app]; rewrite IH1;
        (split; [reflexivity|]); try exact IH2.
      now constructor.
    + cbn [fst snd app]. rewrite IH1. now split.
  - cbn [fst snd app]. rewrite IH1. now split.
Qed.

(** X17. When the write has resolved and the session is still held, every
    open leaf of the target whose view has a working [setViewData] shows
    the preserved content with its history cleared, every other leaf is as
    before, a throwing view costs a debug line only, and the wipe ends with
    the success notice and the session released. *)
Theorem views_follow_the_wipe :
  forall st file preserved s,
    pending st = Some (AwaitModify file preserved) ->
    session st = Some s ->
    let st' := step (ModifyDone (Resolved tt)) st in
    leaves st' = map (leaf_after_wipe (targetPath s) preserved) (leaves st)
    /\ (exists es,
           trace st' = trace st ++ es ++ [ShowNotice NoticeWiped]
           /\ Forall (eq ConsoleDebug) es)
    /\ released st'.
Proof.
  intros st file preserved s Hp Hs st'.
  destruct (clear_leaves_map (targetPath s) preserved (leaves st)) as (M & D).
  assert (E : exists ls es,
             clear_views preserved st
             = Some (set_trace (trace st ++ es) (set_leaves ls st))
             /\ ls = map (leaf_after_wipe (targetPath s) preserved) (leaves st)
             /\ Forall (eq ConsoleDebug) es).
  { unfold clear_views. rewrite Hs. destruct (leaves st) as [|lf ls] eqn:Hl.
    - exists [], []. rewrite app_nil_r. split; [|split; [reflexivity|constructor]].
      f_equal. destruct st. cbn in *. now subst.
    - destruct (clear_leaves (targetPath s) preserved (lf :: ls)) as [ls' es].
      exists ls', es. cbn [fst snd] in *. now subst. }
  destruct E as (ls & es & Ec & -> & Hes).
  subst st'. unfold step. cbn [handle]. unfold modifyDone. rewrite Hp, Ec.
  unfold microtask. cbn [set_pending pending]. unfold wipe_fulfilled.
  split; [|split].
  - rewrite finally_block_eq. reflexivity.
  - exists es. split; [|exact Hes]. rewrite finally_block_eq. fields.
    now rewrite <- app_assoc.
  - apply finally_block_released.
Qed.

Lemma views_follow_the_wipe_witness :
  pending writing = Some (AwaitModify note_path sample_header)
  /\ session writing = Some sample_session
  /\ leaves (step (ModifyDone (Resolved tt)) writing)
     = [ {| leafFile := Some note_path; viewData := sample_header;
            historyCleared := true; setViewData := Setter |} ].
Proof.
  split; [reflexivity|]. split; [reflexivity|].
  destruct (views_follow_the_wipe writing note_path sample_header
              sample_session eq_refl eq_refl) as (H & _).
  exact H.
Defined.

(** X18. When the session has been released while the write was pending
    and a markdown leaf is open, the loop over the leaves fails on
    [this.session.targetPath]: the resolved write is followed by the error
    log and the failure notice, although the content has been replaced, and
    no view is refreshed. *)
Theorem released_session_fails_view_refresh :
  forall st file preserved,
    pending st = Some (AwaitModify file preserved) ->
    session st = None -> leaves st <> [] ->
    let st' := step (ModifyDone (Resolved tt)) st in
    trace st' = trace st ++ [ConsoleError; ShowNotice NoticeWipeFailed]
    /\ leaves st' = leaves st
    /\ released st'.
Proof.
  intros st file preserved Hp Hs Hl st'.
  assert (E : st' = wipe_rejected st).
  { subst st'. unfold step. cbn [handle]. unfold modifyDone, clear_views.
    rewrite Hp, Hs. destruct (leaves st); [congruence|].
    apply microtask_idle. unfold wipe_rejected. rewrite finally_block_eq.
    discriminate. }
  rewrite E. unfold wipe_rejected. split; [|split].
  - rewrite finally_block_eq. fields. now rewrite <- app_assoc.
  - rewrite finally_block_eq. reflexivity.
  - apply finally_block_released.
Qed.

Lemma released_session_fails_view_refresh_witness :
  reachable unloaded_writing
  /\ pending unloaded_writing = Some (AwaitModify note_path sample_header)
  /\ session unloaded_writing = None /\ leaves unloaded_writing <> []
  /\ replacements (trace unloaded_writing)
     = [VaultModify note_path sample_header]
  /\ trace (step (ModifyDone (Resolved tt)) unloaded_writing)
     = trace unloaded_writing ++ [ConsoleError; ShowNotice NoticeWipeFailed].
Proof.
  assert (Hp : pending unloaded_writing
               = Some (AwaitModify note_path sample_header))
    by (vm_compute; reflexivity).
  assert (Hs : session unloaded_writing = None) by (vm_compute; reflexivity).
  assert (Hl : leaves unloaded_writing <> []) by (vm_compute; discriminate).
  split.
  { unfold unloaded_writing, writing. apply reach_step, reach_step.
    exact reading_reachable. }
  split; [exact Hp|]. split; [exact Hs|]. split; [exact Hl|].
  split; [vm_compute; reflexivity|].
  destruct (released_session_fails_view_refresh unloaded_writing note_path
              sample_header Hp Hs Hl) as (H & _).
  exact H.
Defined.

(** X19. When the idle cutoff is reached and the target no longer resolves
    to a file, the user is shown the notice of a wiped note all the same:
    the turn adds intensity emissions at most and then that notice, calls
    the vault not once and shows no failure. *)
Theorem unresolved_target_still_reports_wipe :
  forall st s now,
    reachable st -> active st = true -> session st = Some s ->
    wiping st = false -> sessionOver now s = false ->
    (idleCutoffMs s <= now - lastInsertAt st)%Z ->
    vault st (targetPath s) <> Some TFile ->
    exists es,
      trace (step (Tick now) st) = trace st ++ es ++ [ShowNotice NoticeWiped]
      /\ Forall (fun e => is_emission e = true) es.
Proof.
  intros st s now Hr Ha Hs Hw Hnow Hidle Hv.
  destruct (reachable_armed st Hr Ha) as (_ & Hst & _).
  destruct (tick_overlay_frame now s st) as (A & S & _ & _ & St & W & _ & V & _).
  assert (Ht : exists es, trace (tick_overlay now s st) = trace st ++ es
                          /\ Forall (fun e => is_emission e = true) es).
  { unfold tick_overlay. cbv zeta.
    destruct (_ >=? _)%Z; rewrite setOverlayProgress_trace;
      (destruct (setOverlayVisible_frame true st) as (_ & _ & T1);
       destruct (setOverlayVisible_frame false st) as (_ & _ & T2);
       rewrite ?T1, ?T2;
       destruct (_ =? _)%Z; eexists; split;
       [reflexivity | constructor | reflexivity | repeat constructor]). }
  destruct Ht as (es & Ht & Hes). exists es. split; [|exact Hes].
  assert (E : update now st
              = set_pending (Some AwaitWipe)
                  (set_wiping true
                     (set_statusEl (Some {| idleShownMs := 0 |})
                        (tick_overlay now s st)))).
  { rewrite (update_running now st s Ha Hs Hnow).
    rewrite tick_status_cutoff by (rewrite ?St; auto; lia).
    unfold handleIdleTimeout, wipeTargetNote.
    cbn [set_statusEl set_wiping active wiping session vault].
    rewrite A, Ha, W, Hw, S, Hs, V. cbn [negb orb].
    destruct (vault st (targetPath s)) as [[]|]; congruence. }
  unfold step. cbn [handle]. rewrite E.
  unfold microtask. cbn [set_pending pending]. unfold wipe_fulfilled.
  rewrite finally_block_eq. fields. rewrite Ht. now rewrite <- app_assoc.
Qed.

Lemma unresolved_target_still_reports_wipe_witness :
  reachable armed_unresolved /\ active armed_unresolved = true
  /\ session armed_unresolved = Some sample_session
  /\ wiping armed_unresolved = false
  /\ sessionOver 5000 sample_session = false
  /\ (idleCutoffMs sample_session <= 5000 - lastInsertAt armed_unresolved)%Z
  /\ vault armed_unresolved (targetPath sample_session) <> Some TFile
  /\ exists es,
      trace (step (Tick 5000) armed_unresolved)
      = trace armed_unresolved ++ es ++ [ShowNotice NoticeWiped]
      /\ Forall (fun e => is_emission e = true) es.
Proof.
  split; [exact armed_unresolved_reachable|].
  split; [concrete|]. split; [concrete|]. split; [concrete|].
  split; [concrete|]. split; [concrete|]. split; [concrete|].
  apply (unresolved_target_still_reports_wipe armed_unresolved sample_session
           5000%Z armed_unresolved_reachable); concrete.
Defined.

(** ** The classes of the overlay *)

Lemma progress_after_toggle v cl :
  filter is_progress (classList_toggle IsVisible v cl)
  = filter is_progress cl.
Proof.
  unfold classList_toggle, classList_add, classList_remove. destruct v.
  - destruct (existsb (class_eqb IsVisible) cl); [reflexivity|].
    rewrite filter_app. cbn. apply app_nil_r.
  - induction cl as [|c cl IH]; [reflexivity|].
    destruct c; cbn; first [exact IH | f_equal; exact IH].
Qed.

Lemma progress_after_remove old cl :
  filter is_progress cl = [] \/ filter is_progress cl = [Progress old] ->
  filter is_progress (classList_remove (Progress old) cl) = [].
Proof.
  unfold classList_remove. induction cl as [|c cl IH]; intros H; [reflexivity|].
  destruct c as [| |n]; cbn in *; try (now apply IH).
  destruct H as [H|H]; [discriminate|]. injection H as Hn Hf.
  subst n. rewrite Z.eqb_refl. cbn. apply IH. now left.
Qed.

Lemma progress_after_add new cl :
  filter is_progress cl = [] ->
  filter is_progress (classList_add (Progress new) cl) = [Progress new].
Proof.
  intros H. unfold classList_add.
  assert (E : existsb (class_eqb (Progress new)) cl = false).
  { induction cl as [|c cl IH]; [reflexivity|].
    destruct c; cbn in *; try (now apply IH). discriminate. }
  rewrite E, filter_app, H. reflexivity.
Qed.

Lemma setOverlayProgress_classes p st :
  progress_classes st = [] \/ progress_classes st = [Progress (overlayLevel st)] ->
  progress_classes (setOverlayProgress p st) = []
  \/ progress_classes (setOverlayProgress p st)
     = [Progress (overlayLevel (setOverlayProgress p st))].
Proof.
  unfold progress_classes, setOverlayProgress.
  destruct (overlayEl st) as [el|] eqn:He; [|rewrite He; now left].
  destruct (_ =? _)%Z; [now rewrite He|].
  intros H. right. cbn [set_overlayLevel emit set_trace set_overlayEl
                        overlayEl overlayLevel classList].
  now apply progress_after_add, progress_after_remove.
Qed.

Lemma setOverlayVisible_classes v st :
  progress_classes (setOverlayVisible v st) = progress_classes st.
Proof.
  unfold progress_classes, setOverlayVisible.
  destruct (overlayEl st) as [el|] eqn:He; [|now rewrite He].
  cbn [set_overlayEl overlayEl classList]. apply progress_after_toggle.
Qed.

Lemma classes_of_same a b :
  overlayEl b = overlayEl a -> overlayLevel b = overlayLevel a ->
  progress_classes a = [] \/ progress_classes a = [Progress (overlayLevel a)] ->
  progress_classes b = [] \/ progress_classes b = [Progress (overlayLevel b)].
Proof. unfold progress_classes. intros -> ->. auto. Qed.

Lemma classes_of_none b :
  overlayEl b = None ->
  progress_classes b = [] \/ progress_classes b = [Progress (overlayLevel b)].
Proof. unfold progress_classes. intros ->. now left. Qed.

Lemma update_classes now st :
  progress_classes st = [] \/ progress_classes st = [Progress (overlayLevel st)] ->
  progress_classes (update now st) = []
  \/ progress_classes (update now st) = [Progress (overlayLevel (update now st))].
Proof.
  intros H.
  destruct (active st) eqn:Ha;
    [|now rewrite update_inactive by (left; assumption)].
  destruct (session st) as [s|] eqn:Hs;
    [|now rewrite update_inactive by (right; assumption)].
  destruct (running_or_over now s) as [Hnow|Hnow].
  - rewrite (update_running now st s Ha Hs Hnow).
    destruct (tick_status_overlay (idleCutoffMs s - (now - lastInsertAt st))
                                  (tick_overlay now s st)) as (E1 & E2).
    apply (classes_of_same (tick_overlay now s st)); [exact E1 | exact E2 |].
    unfold tick_overlay. cbv zeta.
    destruct (_ >=? _)%Z; apply setOverlayProgress_classes;
      rewrite setOverlayVisible_classes;
      (destruct (setOverlayVisible_frame true st) as (_ & L1 & _);
       destruct (setOverlayVisible_frame false st) as (_ & L2 & _);
       rewrite ?L1, ?L2; exact H).
  - rewrite (update_expired now st s Ha Hs Hnow).
    apply classes_of_none. rewrite endSession_eq. reflexivity.
Qed.

Lemma picked_classes startedAt now path value minutes st :
  progress_classes st = [] \/ progress_classes st = [Progress (overlayLevel st)] ->
  let st' := startSessionFlow_picked startedAt now path value minutes st in
  progress_classes st' = []
  \/ progress_classes st' = [Progress (overlayLevel st')].
Proof.
  intros H st'. subst st'. unfold startSessionFlow_picked. cbv zeta.
  match goal with
  | |- context [emit ?e ?x] => set (x1 := x)
  end.
  apply (classes_of_same x1); [reflexivity | reflexivity |].
  subst x1. unfold startIdleTicker.
  match goal with
  | |- context [set_noSelect true (ensureOverlay ?y)] => set (y0 := y)
  end.
  assert (Hy : progress_classes y0 = []
               \/ progress_classes y0 = [Progress (overlayLevel y0)])
    by (subst y0; apply (classes_of_same st); [reflexivity..|exact H]).
  clearbody y0.
  set (x0 := set_noSelect true (ensureOverlay y0)).
  assert (Hx : progress_classes x0 = []
               \/ progress_classes x0 = [Progress (overlayLevel x0)]).
  { subst x0. unfold ensureOverlay.
    destruct (overlayEl y0) eqn:He.
    - apply (classes_of_same y0); [reflexivity..|exact Hy].
    - left. reflexivity. }
  clearbody x0.
  destruct (session x0); [|exact Hx].
  apply update_classes.
  set (x2 := set_idleTicker _ _).
  assert (E : overlayEl x2 = overlayEl x0 /\ overlayLevel x2 = overlayLevel x0)
    by (subst x2; split; reflexivity).
  clearbody x2. destruct E as (E1 & E2).
  apply (classes_of_same x0); [exact E1 | exact E2 | exact Hx].
Qed.

Lemma wipe_rejected_overlay st : overlayEl (wipe_rejected st) = None.
Proof. unfold wipe_rejected. now rewrite finally_block_eq. Qed.

Lemma handle_classes ev st :
  progress_classes st = [] \/ progress_classes st = [Progress (overlayLevel st)] ->
  progress_classes (handle ev st) = []
  \/ progress_classes (handle ev st) = [Progress (overlayLevel (handle ev st))].
Proof.
  intros H.
  destruct ev as [now|view|sa now path value minutes|now av u
                 |now value view|r|r| |v|ls]; cbn [handle].
  - now apply update_classes.
  - unfold startSessionFlow. destruct (active st);
      [apply (classes_of_same st); [reflexivity..|exact H]|].
    destruct view as [[[path|]]|]; cbn [fst];
      apply (classes_of_same st); (reflexivity || exact H).
  - now apply picked_classes.
  - unfold updateListener. destruct (negb (active st)); [exact H|].
    destruct (session st) as [s|]; [|exact H].
    destruct av as [[[path|]]|]; try exact H.
    destruct (negb _); [exact H|]. destruct (negb _); [exact H|].
    destruct (_ >? _)%Z; [|exact H].
    apply (classes_of_same st); [reflexivity..|exact H].
  - unfold editorChange. destruct (negb (active st)); [exact H|].
    destruct (session st) as [s|]; [|exact H].
    destruct view as [[[path|]]|]; try exact H.
    destruct (negb _); [exact H|]. cbv zeta.
    destruct (_ >? _)%Z; apply (classes_of_same st); (reflexivity || exact H).
  - unfold readDone. destruct (pending st) as [[| file | file p]|]; try exact H.
    destruct r; [|apply classes_of_none, wipe_rejected_overlay].
    apply (classes_of_same st); [reflexivity..|exact H].
  - unfold modifyDone. destruct (pending st) as [[| file | file p]|]; try exact H.
    destruct r; [|apply classes_of_none, wipe_rejected_overlay].
    destruct (clear_views p st) as [st1|] eqn:E;
      [|apply classes_of_none, wipe_rejected_overlay].
    destruct (clear_views_frame p st st1 E) as (_ & _ & _ & O & _ & _ & _ & L).
    apply (classes_of_same st); [exact O | exact L | exact H].
  - apply classes_of_none. rewrite endSession_eq. reflexivity.
  - apply (classes_of_same st); [reflexivity..|exact H].
  - apply (classes_of_same st); [reflexivity..|exact H].
Qed.

Lemma microtask_classes st :
  progress_classes st = [] \/ progress_classes st = [Progress (overlayLevel st)] ->
  progress_classes (microtask st) = []
  \/ progress_classes (microtask st) = [Progress (overlayLevel (microtask st))].
Proof.
  intros H. unfold microtask. destruct (pending st) as [[]|]; try exact H.
  apply classes_of_none. unfold wipe_fulfilled. now rewrite finally_block_eq.
Qed.

(** X7. In every reachable state the overlay element carries at most one
    intensity class, and when it carries one it is the class of the stored
    level: the swap in [setOverlayProgress] never leaves two of them. *)
Theorem overlay_has_one_intensity_class :
  forall st,
    reachable st ->
    progress_classes st = []
    \/ progress_classes st = [Progress (overlayLevel st)].
Proof.
  induction 1 as [v ls | ev st _ IH].
  - now left.
  - unfold step. now apply microtask_classes, handle_classes.
Qed.

Lemma overlay_has_one_intensity_class_witness :
  reachable (run (streak second_streak) resumed)
  /\ progress_classes (run (streak second_streak) resumed) = [Progress 10].
Proof.
  assert (R : reachable (run (streak second_streak) resumed))
    by (apply run_reachable, resumed_reachable).
  split; [exact R|].
  destruct (overlay_has_one_intensity_class _ R) as [H|H].
  - vm_compute in H. discriminate H.
  - rewrite H. vm_compute. reflexivity.
Defined.

(** ** Numbers in binary64: the integers of less than 54 bits *)

Lemma digits2_iter p k :
  SpecFloat.digits2_pos (Pos.iter xO p k)
  = (SpecFloat.digits2_pos p + k)%positive.
Proof.
  induction k as [|k IH] using Pos.peano_ind.
  - cbn. lia.
  - rewrite Pos.iter_succ. cbn [SpecFloat.digits2_pos]. rewrite IH. lia.
Qed.

Lemma digits2_size p : SpecFloat.digits2_pos p = Pos.size p.
Proof. induction p as [p IH|p IH|]; cbn; now rewrite ?IH. Qed.

Lemma digits2_bounds p :
  (2 ^ (Zpos (SpecFloat.digits2_pos p) - 1) <= Zpos p
   < 2 ^ Zpos (SpecFloat.digits2_pos p))%Z.
Proof.
  rewrite digits2_size.
  pose proof (Pos.size_gt p) as Hg. pose proof (Pos.size_le p) as Hl.
  apply Pos2Z.pos_lt_pos in Hg. apply Pos2Z.pos_le_pos in Hl.
  rewrite Pos2Z.inj_pow in Hg, Hl.
  split; [|exact Hg].
  assert (E : (2 ^ Zpos (Pos.size p) = 2 * 2 ^ (Zpos (Pos.size p) - 1))%Z).
  { rewrite <- Z.pow_succ_r by lia. f_equal. lia. }
  lia.
Qed.

Lemma digits2_safe p :
  (Zpos p < 2 ^ 53)%Z -> (Zpos (SpecFloat.digits2_pos p) <= 53)%Z.
Proof.
  intros H. destruct (digits2_bounds p) as [Hl _].
  destruct (Z.le_gt_cases (Zpos (SpecFloat.digits2_pos p)) 53) as [|Hgt];
    [assumption|].
  assert (2 ^ 53 <= 2 ^ (Zpos (SpecFloat.digits2_pos p) - 1))%Z
    by (apply Z.pow_le_mono_r; lia).
  lia.
Qed.

Lemma digits2_mono p q :
  (SpecFloat.digits2_pos p < SpecFloat.digits2_pos q)%positive ->
  (p < q)%positive.
Proof.
  intros H. destruct (digits2_bounds p) as [_ Hp].
  destruct (digits2_bounds q) as [Hq _].
  assert (2 ^ Zpos (SpecFloat.digits2_pos p)
          <= 2 ^ (Zpos (SpecFloat.digits2_pos q) - 1))%Z
    by (apply Z.pow_le_mono_r; lia).
  apply Pos2Z.pos_lt_pos. lia.
Qed.

Lemma Zpos_iter_xO p k : Zpos (Pos.iter xO p k) = (Zpos p * 2 ^ Zpos k)%Z.
Proof.
  induction k as [|k IH] using Pos.peano_ind.
  - cbn. lia.
  - rewrite Pos.iter_succ, Pos2Z.inj_xO, IH, Pos2Z.inj_succ.
    rewrite Z.pow_succ_r by lia. lia.
Qed.

Lemma pos_of_value m p k :
  Zpos m = (Zpos p * 2 ^ Zpos k)%Z -> m = Pos.iter xO p k.
Proof. intros H. apply Pos2Z.inj. now rewrite Zpos_iter_xO. Qed.

Lemma normal_mantissa_value p :
  (Zpos (SpecFloat.digits2_pos p) <= 53)%Z ->
  Zpos (normal_mantissa p)
  = (Zpos p * 2 ^ (53 - Zpos (SpecFloat.digits2_pos p)))%Z.
Proof.
  intros Hd. unfold normal_mantissa.
  destruct (Zpos (SpecFloat.digits2_pos p) - 53)%Z as [|k|k] eqn:E.
  - replace (53 - Zpos (SpecFloat.digits2_pos p))%Z with 0%Z by lia. lia.
  - lia.
  - rewrite Zpos_iter_xO. f_equal. f_equal. lia.
Qed.

Lemma normal_mantissa_digits p :
  (Zpos (SpecFloat.digits2_pos p) <= 53)%Z ->
  Zpos (SpecFloat.digits2_pos (normal_mantissa p)) = 53%Z.
Proof.
  intros Hd. unfold normal_mantissa.
  destruct (Zpos (SpecFloat.digits2_pos p) - 53)%Z as [|k|k] eqn:E.
  - lia.
  - lia.
  - rewrite digits2_iter. lia.
Qed.

Lemma iter_pos_iter {A} (f : A -> A) n : forall x,
  SpecFloat.iter_pos f n x = Pos.iter f x n.
Proof.
  induction n as [n IH|n IH|]; intros x; cbn.
  - rewrite !IH. rewrite <- !Pos.iter_swap. reflexivity.
  - rewrite !IH. reflexivity.
  - reflexivity.
Qed.

(** Shifting out zero bits loses nothing. *)
Lemma shr_exact p n :
  Pos.iter SpecFloat.shr_1
    {| SpecFloat.shr_m := Zpos (Pos.iter xO p n);
       SpecFloat.shr_r := false; SpecFloat.shr_s := false |} n
  = {| SpecFloat.shr_m := Zpos p;
       SpecFloat.shr_r := false; SpecFloat.shr_s := false |}.
Proof.
  induction n as [|n IH] using Pos.peano_ind.
  - reflexivity.
  - rewrite Pos.iter_succ_r, Pos.iter_succ. exact IH.
Qed.

(** A mantissa of 53 bits with an exponent in range is kept as it is. *)
Lemma binary_round_aux_canonical sx m e :
  Zpos (SpecFloat.digits2_pos m) = 53%Z -> (-1074 <= e <= 971)%Z ->
  SpecFloat.binary_round_aux Double.prec Double.emax sx (Zpos m) e
    SpecFloat.loc_Exact
  = SpecFloat.S754_finite sx m e.
Proof.
  intros Hm He.
  unfold SpecFloat.binary_round_aux, SpecFloat.shr_fexp.
  cbn [SpecFloat.Zdigits2 SpecFloat.shr_record_of_loc]. rewrite Hm.
  assert (Hf : (SpecFloat.fexp Double.prec Double.emax (53 + e) - e = 0)%Z).
  { unfold SpecFloat.fexp, SpecFloat.emin, Double.prec, Double.emax. lia. }
  rewrite Hf.
  cbn [SpecFloat.shr SpecFloat.shr_m SpecFloat.loc_of_shr_record
       SpecFloat.round_nearest_even SpecFloat.Zdigits2
       SpecFloat.shr_record_of_loc].
  rewrite Hm, Hf. cbn [SpecFloat.shr SpecFloat.shr_m].
  destruct (Z.leb_spec e (Double.emax - Double.prec)) as [_|H];
    [reflexivity|].
  unfold Double.emax, Double.prec in H. lia.
Qed.

(** An integer of at most 53 bits that comes with [k] more zero bits and the
    exponent [-k] is rounded to the integer, in its normal form. *)
Lemma binary_round_shifted sx p k :
  (Zpos (SpecFloat.digits2_pos p) <= 53)%Z ->
  SpecFloat.binary_round Double.prec Double.emax sx (Pos.iter xO p k) (Zneg k)
  = SpecFloat.S754_finite sx (normal_mantissa p)
      (Zpos (SpecFloat.digits2_pos p) - 53).
Proof.
  intros Hd. unfold SpecFloat.binary_round.
  rewrite digits2_iter.
  set (d := Zpos (SpecFloat.digits2_pos p)) in *.
  assert (Hf : SpecFloat.fexp Double.prec Double.emax
                 (Zpos (SpecFloat.digits2_pos p + k) + Zneg k)
               = (d - 53)%Z).
  { unfold SpecFloat.fexp, SpecFloat.emin, Double.prec, Double.emax.
    subst d. lia. }
  rewrite Hf. unfold SpecFloat.shl_align.
  pose proof (normal_mantissa_value p Hd) as Hv. fold d in Hv.
  pose proof (normal_mantissa_digits p Hd) as Hn.
  destruct (d - 53 - Zneg k)%Z as [|n|n] eqn:E.
  - (* the zero bits are those of the normal form *)
    assert (Em : Pos.iter xO p k = normal_mantissa p).
    { apply Pos2Z.inj. rewrite Hv, Zpos_iter_xO. f_equal. f_equal. lia. }
    rewrite Em. replace (Zneg k) with (d - 53)%Z by lia.
    apply binary_round_aux_canonical; [exact Hn | subst d; lia].
  - (* more zero bits than the normal form has: they are shifted out *)
    unfold SpecFloat.binary_round_aux, SpecFloat.shr_fexp.
    cbn [SpecFloat.Zdigits2 SpecFloat.shr_record_of_loc].
    rewrite digits2_iter.
    assert (Hs : (SpecFloat.fexp Double.prec Double.emax
                    (Zpos (SpecFloat.digits2_pos p + k) + Zneg k) - Zneg k
                  = Zpos n)%Z) by (rewrite Hf; exact E).
    rewrite Hs. cbn [SpecFloat.shr]. rewrite iter_pos_iter.
    assert (Em : Pos.iter xO p k = Pos.iter xO (normal_mantissa p) n).
    { apply Pos2Z.inj. rewrite !Zpos_iter_xO, Hv.
      rewrite <- Z.mul_assoc, <- Z.pow_add_r by (subst d; lia).
      f_equal. f_equal. lia. }
    rewrite Em, shr_exact.
    cbn [SpecFloat.shr_m SpecFloat.loc_of_shr_record
         SpecFloat.round_nearest_even SpecFloat.Zdigits2
         SpecFloat.shr_record_of_loc].
    rewrite Hn.
    assert (Hf2 : (SpecFloat.fexp Double.prec Double.emax
                     (53 + (Zneg k + Zpos n)) - (Zneg k + Zpos n) = 0)%Z).
    { unfold SpecFloat.fexp, SpecFloat.emin, Double.prec, Double.emax.
      subst d. lia. }
    rewrite Hf2. cbn [SpecFloat.shr SpecFloat.shr_m].
    replace (Zneg k + Zpos n)%Z with (d - 53)%Z by lia.
    destruct (Z.leb_spec (d - 53) (Double.emax - Double.prec)) as [_|H];
      [reflexivity|].
    unfold Double.emax, Double.prec in H. subst d. lia.
  - (* fewer: the mantissa is shifted to the normal form *)
    assert (Em : Pos.iter xO (Pos.iter xO p k) n = normal_mantissa p).
    { apply Pos2Z.inj. rewrite !Zpos_iter_xO, Hv.
      rewrite <- Z.mul_assoc, <- Z.pow_add_r by lia.
      f_equal. f_equal. lia. }
    cbn [fst snd]. rewrite Em.
    apply binary_round_aux_canonical; [exact Hn | subst d; lia].
Qed.

Lemma binary_round_safe sx p :
  (Zpos (SpecFloat.digits2_pos p) <= 53)%Z ->
  SpecFloat.binary_round Double.prec Double.emax sx p 0
  = SpecFloat.S754_finite sx (normal_mantissa p)
      (Zpos (SpecFloat.digits2_pos p) - 53).
Proof.
  intros Hd. unfold SpecFloat.binary_round.
  set (d := Zpos (SpecFloat.digits2_pos p)) in *.
  assert (Hf : SpecFloat.fexp Double.prec Double.emax (d + 0) = (d - 53)%Z).
  { unfold SpecFloat.fexp, SpecFloat.emin, Double.prec, Double.emax.
    subst d. lia. }
  rewrite Hf. unfold SpecFloat.shl_align. rewrite Z.sub_0_r.
  pose proof (normal_mantissa_digits p Hd) as Hn.
  unfold normal_mantissa in *. fold d in Hn |- *.
  destruct (d - 53)%Z as [|k|k] eqn:E.
  - apply binary_round_aux_canonical; [exact Hn | lia].
  - lia.
  - apply binary_round_aux_canonical; [exact Hn | subst d; lia].
Qed.

(** The Number of a positive and of a negative integer of less than 54
    bits. *)
Lemma of_Z_pos p :
  (Zpos p < 2 ^ 53)%Z ->
  Double.of_Z (Zpos p)
  = SpecFloat.S754_finite false (normal_mantissa p)
      (Zpos (SpecFloat.digits2_pos p) - 53).
Proof. intros H. apply binary_round_safe. now apply digits2_safe. Qed.

Lemma of_Z_neg p :
  (Zpos p < 2 ^ 53)%Z ->
  Double.of_Z (Zneg p)
  = SpecFloat.S754_finite true (normal_mantissa p)
      (Zpos (SpecFloat.digits2_pos p) - 53).
Proof. intros H. apply binary_round_safe. now apply digits2_safe. Qed.

Lemma compare_iter p q k :
  Pos.compare (Pos.iter xO p k) (Pos.iter xO q k) = Pos.compare p q.
Proof.
  induction k as [|k IH] using Pos.peano_ind.
  - reflexivity.
  - rewrite !Pos.iter_succ. exact IH.
Qed.

Lemma compare_normal sx p q :
  SpecFloat.SFcompare
    (SpecFloat.S754_finite sx (normal_mantissa p)
       (Zpos (SpecFloat.digits2_pos p) - 53))
    (SpecFloat.S754_finite sx (normal_mantissa q)
       (Zpos (SpecFloat.digits2_pos q) - 53))
  = Some (if sx then CompOpp (Pos.compare p q) else Pos.compare p q).
Proof.
  assert (H : match (Zpos (SpecFloat.digits2_pos p) - 53
                     ?= Zpos (SpecFloat.digits2_pos q) - 53)%Z with
              | Lt => Lt
              | Gt => Gt
              | Eq => Pos.compare (normal_mantissa p) (normal_mantissa q)
              end = Pos.compare p q).
  { destruct (Z.compare_spec (Zpos (SpecFloat.digits2_pos p) - 53)
                             (Zpos (SpecFloat.digits2_pos q) - 53))
      as [E|L|G].
    - unfold normal_mantissa. rewrite <- E.
      destruct (Zpos (SpecFloat.digits2_pos p) - 53)%Z; try reflexivity.
      apply compare_iter.
    - symmetry. apply Pos.compare_lt_iff. apply digits2_mono. lia.
    - symmetry. apply Pos.compare_gt_iff. apply digits2_mono. lia. }
  rewrite <- H. cbn [SpecFloat.SFcompare].
  destruct sx;
    destruct (Zpos (SpecFloat.digits2_pos p) - 53
              ?= Zpos (SpecFloat.digits2_pos q) - 53)%Z; reflexivity.
Qed.

(** On integers of less than 54 bits the comparison of the Numbers is the
    comparison of the integers. *)
Lemma ge_of_Z a b :
  (- 2 ^ 53 < a < 2 ^ 53)%Z -> (- 2 ^ 53 < b < 2 ^ 53)%Z ->
  Double.ge (Double.of_Z a) (Double.of_Z b) = (b <=? a)%Z.
Proof.
  intros Ha Hb. unfold Double.ge, SpecFloat.SFleb.
  destruct a as [|p|p], b as [|q|q];
    rewrite ?of_Z_pos, ?of_Z_neg by lia;
    try reflexivity.
  - rewrite compare_normal.
    unfold Z.leb. cbn [Z.compare]. destruct (Pos.compare q p); reflexivity.
  - rewrite compare_normal.
    unfold Z.leb. cbn [Z.compare]. destruct (Pos.compare q p); reflexivity.
Qed.

(** No integer of less than 54 bits reaches [+Infinity], and nothing
    reaches [NaN]. *)
Lemma ge_of_Z_never a d :
  (- 2 ^ 53 < a < 2 ^ 53)%Z ->
  d = SpecFloat.S754_infinity false \/ d = SpecFloat.S754_nan ->
  Double.ge (Double.of_Z a) d = false.
Proof.
  intros Ha [->| ->]; unfold Double.ge, SpecFloat.SFleb;
    destruct a as [|p|p]; rewrite ?of_Z_pos, ?of_Z_neg by lia; reflexivity.
Qed.

Lemma shl_align_value m e e' :
  (e' <= e)%Z ->
  Zpos (fst (SpecFloat.shl_align m e e')) = (Zpos m * 2 ^ (e - e'))%Z.
Proof.
  intros H. unfold SpecFloat.shl_align.
  destruct (e' - e)%Z as [|d|d] eqn:E; cbn [fst].
  - replace (e - e')%Z with 0%Z by lia. lia.
  - lia.
  - rewrite Zpos_iter_xO. f_equal. f_equal. lia.
Qed.

Lemma binary_normalize_shifted z e :
  (- 2 ^ 53 < z < 2 ^ 53)%Z -> (e <= 0)%Z ->
  SpecFloat.binary_normalize Double.prec Double.emax (z * 2 ^ (- e)) e false
  = Double.of_Z z.
Proof.
  intros Hz He.
  assert (P : (0 < 2 ^ (- e))%Z) by (apply Z.pow_pos_nonneg; lia).
  destruct e as [|k|k]; [| lia |].
  - change (2 ^ (- 0))%Z with 1%Z. now rewrite Z.mul_1_r.
  - change (- Zneg k)%Z with (Zpos k) in *.
    destruct z as [|r|r].
    + reflexivity.
    + destruct (Zpos r * 2 ^ Zpos k)%Z as [|m|m] eqn:E; try lia.
      unfold SpecFloat.binary_normalize.
      rewrite (pos_of_value m r k (eq_sym E)).
      rewrite binary_round_shifted by (apply digits2_safe; lia).
      symmetry. apply of_Z_pos. lia.
    + destruct (Zneg r * 2 ^ Zpos k)%Z as [|m|m] eqn:E; try lia.
      unfold SpecFloat.binary_normalize.
      assert (E' : Zpos m = (Zpos r * 2 ^ Zpos k)%Z) by lia.
      rewrite (pos_of_value m r k E').
      rewrite binary_round_shifted by (apply digits2_safe; lia).
      symmetry. apply of_Z_neg. lia.
Qed.

Lemma add_finite sa pa sb pb :
  (Zpos pa < 2 ^ 53)%Z -> (Zpos pb < 2 ^ 53)%Z ->
  (- 2 ^ 53 < SpecFloat.cond_Zopp sa (Zpos pa)
              + SpecFloat.cond_Zopp sb (Zpos pb) < 2 ^ 53)%Z ->
  Double.add
    (SpecFloat.S754_finite sa (normal_mantissa pa)
       (Zpos (SpecFloat.digits2_pos pa) - 53))
    (SpecFloat.S754_finite sb (normal_mantissa pb)
       (Zpos (SpecFloat.digits2_pos pb) - 53))
  = Double.of_Z (SpecFloat.cond_Zopp sa (Zpos pa)
                 + SpecFloat.cond_Zopp sb (Zpos pb)).
Proof.
  intros Ha Hb Hab.
  pose proof (digits2_safe pa Ha) as Da.
  pose proof (digits2_safe pb Hb) as Db.
  unfold Double.add, SpecFloat.SFadd.
  set (ea := (Zpos (SpecFloat.digits2_pos pa) - 53)%Z) in *.
  set (eb := (Zpos (SpecFloat.digits2_pos pb) - 53)%Z) in *.
  set (ez := Z.min ea eb).
  assert (Hez : (ez <= ea /\ ez <= eb /\ ez <= 0)%Z)
    by (subst ez ea eb; lia).
  destruct Hez as (H1 & H2 & H3).
  rewrite <- (binary_normalize_shifted _ ez Hab H3).
  f_equal.
  rewrite Z.mul_add_distr_r.
  assert (V : forall s p e,
             e = (Zpos (SpecFloat.digits2_pos p) - 53)%Z -> (ez <= e)%Z ->
             (Zpos (SpecFloat.digits2_pos p) <= 53)%Z ->
             SpecFloat.cond_Zopp s
               (Zpos (fst (SpecFloat.shl_align (normal_mantissa p) e ez)))
             = (SpecFloat.cond_Zopp s (Zpos p) * 2 ^ (- ez))%Z).
  { intros s p e -> Hle Hd.
    rewrite (shl_align_value _ _ _ Hle), (normal_mantissa_value p Hd).
    rewrite <- Z.mul_assoc, <- Z.pow_add_r by lia.
    replace (53 - Zpos (SpecFloat.digits2_pos p)
             + (Zpos (SpecFloat.digits2_pos p) - 53 - ez))%Z
      with (- ez)%Z by lia.
    destruct s; cbn [SpecFloat.cond_Zopp]; lia. }
  rewrite (V sa pa ea eq_refl H1 Da), (V sb pb eb eq_refl H2 Db).
  reflexivity.
Qed.

(** On integers the sum of the Numbers is the Number of the sum, as long as
    the three of them have less than 54 bits. *)
Lemma add_of_Z a b :
  (- 2 ^ 53 < a < 2 ^ 53)%Z -> (- 2 ^ 53 < b < 2 ^ 53)%Z ->
  (- 2 ^ 53 < a + b < 2 ^ 53)%Z ->
  Double.add (Double.of_Z a) (Double.of_Z b) = Double.of_Z (a + b).
Proof.
  intros Ha Hb Hab.
  destruct a as [|p|p], b as [|q|q]; try reflexivity.
  - change (0 + Zpos q)%Z with (Zpos q). rewrite (of_Z_pos q) by lia.
    reflexivity.
  - change (0 + Zneg q)%Z with (Zneg q). rewrite (of_Z_neg q) by lia.
    reflexivity.
  - rewrite Z.add_0_r, (of_Z_pos p) by lia. reflexivity.
  - rewrite (of_Z_pos p), (of_Z_pos q) by lia.
    apply (add_finite false p false q); cbn [SpecFloat.cond_Zopp]; lia.
  - rewrite (of_Z_pos p), (of_Z_neg q) by lia.
    apply (add_finite false p true q); cbn [SpecFloat.cond_Zopp]; lia.
  - rewrite Z.add_0_r, (of_Z_neg p) by lia. reflexivity.
  - rewrite (of_Z_neg p), (of_Z_pos q) by lia.
    apply (add_finite true p false q); cbn [SpecFloat.cond_Zopp]; lia.
  - rewrite (of_Z_neg p), (of_Z_neg q) by lia.
    apply (add_finite true p true q); cbn [SpecFloat.cond_Zopp]; lia.
Qed.

(** Adding [+Infinity] to an integer of less than 54 bits. *)
Lemma add_of_Z_infinity a :
  (- 2 ^ 53 < a < 2 ^ 53)%Z ->
  Double.add (Double.of_Z a) (SpecFloat.S754_infinity false)
  = SpecFloat.S754_infinity false.
Proof.
  intros Ha. destruct a as [|p|p];
    rewrite ?of_Z_pos, ?of_Z_neg by lia; reflexivity.
Qed.

(** ** Arming a session *)

Lemma setInterval_fresh l : ~ In (setInterval l) l.
Proof.
  unfold setInterval. intros H.
  assert (Hle : forall x, In x l -> (x <= list_max l)%nat).
  { clear. induction l as [|a l IH]; intros x [];
      change (list_max (a :: l)) with (Nat.max a (list_max l)).
    - subst. lia.
    - specialize (IH x H). lia. }
  specialize (Hle _ H). lia.
Qed.

(** The plug-in when [startSessionFlow] is about to call [update] for the
    first time. *)
Lemma picked_before_update startedAt now path value minutes st :
  exists x,
    startSessionFlow_picked startedAt now path value minutes st
    = emit (ShowNotice (NoticeArmed minutes)) (update now x)
    /\ active x = true
    /\ session x = Some (new_session startedAt path value minutes)
    /\ lastInsertAt x = startedAt
    /\ statusEl x = Some {| idleShownMs := DEFAULT_IDLE_CUTOFF_MS |}
    /\ (overlayEl st = None ->
        overlayEl x = Some {| classList := [DangerousOverlay] |}
        /\ overlayLevel x = 0%Z)
    /\ noSelect x = true
    /\ idleTicker x = Some (setInterval (timers st))
    /\ timers x = setInterval (timers st) :: timers st
    /\ trace x = trace st /\ wiping x = wiping st /\ pending x = pending st.
Proof.
  unfold startSessionFlow_picked. cbv zeta. unfold startIdleTicker.
  match goal with
  | |- context [set_noSelect true (ensureOverlay ?y)] => set (y0 := y)
  end.
  assert (Hy : active y0 = true
               /\ session y0
                  = Some (new_session startedAt path value minutes)
               /\ lastInsertAt y0 = startedAt
               /\ statusEl y0 = Some {| idleShownMs := DEFAULT_IDLE_CUTOFF_MS |}
               /\ overlayEl y0 = overlayEl st
               /\ timers y0 = timers st
               /\ trace y0 = trace st /\ wiping y0 = wiping st
               /\ pending y0 = pending st)
    by (subst y0; repeat split).
  clearbody y0.
  destruct Hy as (A & S & L & St & O & Ti & Tr & W & P).
  set (x0 := set_noSelect true (ensureOverlay y0)).
  assert (Hx : active x0 = true /\ session x0 = session y0
               /\ lastInsertAt x0 = startedAt /\ statusEl x0 = statusEl y0
               /\ (overlayEl st = None ->
                   overlayEl x0 = Some {| classList := [DangerousOverlay] |}
                   /\ overlayLevel x0 = 0%Z)
               /\ noSelect x0 = true /\ timers x0 = timers st
               /\ trace x0 = trace st /\ wiping x0 = wiping st
               /\ pending x0 = pending st).
  { subst x0. unfold ensureOverlay. destruct (overlayEl y0) eqn:He.
    - repeat split; try assumption. congruence. congruence.
    - repeat split; assumption. }
  clearbody x0.
  destruct Hx as (A0 & S0 & L0 & St0 & O0 & N0 & Ti0 & Tr0 & W0 & P0).
  rewrite S0, S.
  exists (set_idleTicker (Some (setInterval (timers x0)))
            (set_timers (setInterval (timers x0) :: timers x0) x0)).
  fields. rewrite Ti0. split; [reflexivity|].
  repeat split; try assumption; try congruence; apply O0; assumption.
Qed.

(** The end-of-session test on a session whose end is an integer. *)
Lemma sessionOver_integral now s e :
  endsAt s = Double.of_Z e ->
  (- 2 ^ 53 < now < 2 ^ 53)%Z -> (- 2 ^ 53 < e < 2 ^ 53)%Z ->
  sessionOver now s = (e <=? now)%Z.
Proof.
  intros He Hn Hb. unfold sessionOver. rewrite He. now apply ge_of_Z.
Qed.

(** X11. A session whose end is not after the first clock reading of
    [update] ends inside [startSessionFlow] itself: the plug-in is at rest
    again when the flow returns, having shown the completion notice and then
    the armed notice. The end is the one the code computes, in binary64:
    [startedAt + Math.round(minutes * 60000)]. Such are the minutes whose
    product by 60000 rounds to zero: their session ends at
    [startedAt]. *)
Theorem rounded_out_duration_ends_at_once :
  (forall st startedAt now path value minutes,
      reachable st ->
      sessionOver now (new_session startedAt path value minutes) = true ->
      let st' := step (Picked startedAt now path value minutes) st in
      at_rest st'
      /\ trace st'
         = trace st ++ [ShowNotice NoticeSessionComplete;
                        ShowNotice (NoticeArmed minutes)])
  /\ (forall startedAt now path value minutes,
         Double.Math_round (Double.mul minutes (Double.of_Z 60000))
         = SpecFloat.S754_zero false ->
         (0 <= startedAt <= now)%Z -> (now < 2 ^ 53)%Z ->
         endsAt (new_session startedAt path value minutes)
         = Double.of_Z startedAt
         /\ sessionOver now (new_session startedAt path value minutes)
            = true).
Proof.
  split.
  - intros st startedAt now path value minutes Hr Hnow st'.
    destruct (reachable_settled st Hr) as [_ Hp].
    destruct (picked_before_update startedAt now path value minutes st)
      as (x & E & A & S & _ & _ & _ & _ & _ & _ & Tr & _ & P).
    subst st'. unfold step. cbn [handle]. rewrite E.
    rewrite (update_expired now x _ A S) by exact Hnow.
    rewrite endSession_eq. fields.
    rewrite microtask_idle by (fields; congruence).
    split; [repeat split|]. fields. rewrite Tr. now rewrite <- app_assoc.
  - intros startedAt now path value minutes Hz Hs Hn.
    assert (He : endsAt (new_session startedAt path value minutes)
                 = Double.of_Z startedAt).
    { unfold new_session. cbn [endsAt]. rewrite Hz.
      change (SpecFloat.S754_zero false) with (Double.of_Z 0).
      rewrite add_of_Z by lia. now rewrite Z.add_0_r. }
    split; [exact He|].
    rewrite (sessionOver_integral now _ startedAt He) by lia.
    apply Z.leb_le. lia.
Qed.

(** [Number("0.000001")] minutes, which the dialog accepts, round to no
    millisecond at all. *)
Lemma rounded_out_duration_ends_at_once_witness :
  reachable (loaded sample_vault sample_leaves)
  /\ tiny_minutes = SpecFloat.S754_finite false 4722366482869645 (-72)
  /\ Double.Math_round (Double.mul tiny_minutes (Double.of_Z 60000))
     = SpecFloat.S754_zero false
  /\ (0 <= 1000 <= 1000)%Z /\ (1000 < 2 ^ 53)%Z
  /\ (let st' := step (Picked 1000 1000 note_path (Some sample_note)
                              tiny_minutes)
                      (loaded sample_vault sample_leaves) in
      at_rest st'
      /\ trace st' = [ShowNotice NoticeSessionComplete;
                      ShowNotice (NoticeArmed tiny_minutes)]).
Proof.
  assert (R : reachable (loaded sample_vault sample_leaves))
    by apply reach_loaded.
  assert (Z0 : Double.Math_round (Double.mul tiny_minutes (Double.of_Z 60000))
               = SpecFloat.S754_zero false) by (vm_compute; reflexivity).
  destruct rounded_out_duration_ends_at_once as (H1 & H2).
  split; [exact R|]. split; [vm_compute; reflexivity|].
  split; [exact Z0|]. split; [lia|]. split; [lia|].
  apply (H1 (loaded sample_vault sample_leaves) 1000%Z 1000%Z note_path
            (Some sample_note) tiny_minutes R).
  apply (H2 1000%Z 1000%Z note_path (Some sample_note) tiny_minutes Z0);
    lia.
Defined.

(** Arming from rest, when the first [update] comes less than two seconds
    after [startedAt] and before the end of the session. *)
Lemma picked_armed st startedAt now path value minutes s :
  s = new_session startedAt path value minutes ->
  reachable st -> active st = false ->
  (0 <= now - startedAt < 2000)%Z ->
  sessionOver now s = false ->
  let st' := step (Picked startedAt now path value minutes) st in
  active st' = true
  /\ session st' = Some s
  /\ lastInsertAt st' = startedAt
  /\ statusEl st' = Some {| idleShownMs := 5000 - (now - startedAt) |}
  /\ overlayEl st' = Some {| classList := [DangerousOverlay] |}
  /\ overlayLevel st' = 0%Z
  /\ noSelect st' = true
  /\ (exists id, idleTicker st' = Some id /\ In id (timers st')
                 /\ ~ In id (timers st))
  /\ trace st' = trace st ++ [ShowNotice (NoticeArmed minutes)]
  /\ wiping st' = wiping st /\ pending st' = pending st.
Proof.
  intros Es Hr Ha Hidle Hdur st'.
  destruct (reachable_settled st Hr) as [(_ & H2 & _) Hp].
  destruct (H2 Ha) as (_ & _ & Ho & _).
  destruct (picked_before_update startedAt now path value minutes st)
    as (x & E & A & S & L & St & O & N & Ti & Tm & Tr & W & P).
  destruct (O Ho) as (Oe & Ol).
  rewrite <- Es in S.
  assert (Ec : idleCutoffMs s = 5000%Z) by (rewrite Es; reflexivity).
  clear Es.
  assert (Eo : tick_overlay now s x
               = set_overlayEl (Some {| classList := [DangerousOverlay] |}) x).
  { unfold tick_overlay. cbv zeta. rewrite L, Ec.
    change (Math_min OVERLAY_DELAY_MS 5000%Z) with 2000%Z.
    destruct (Z.geb_spec (now - startedAt) 2000); [lia|].
    unfold setOverlayVisible. rewrite Oe.
    unfold setOverlayProgress. cbn [set_overlayEl overlayEl overlayLevel].
    rewrite Ol. reflexivity. }
  assert (Eu : update now x
               = set_statusEl
                   (Some {| idleShownMs := 5000 - (now - startedAt) |})
                   (set_overlayEl
                      (Some {| classList := [DangerousOverlay] |}) x)).
  { rewrite (update_running now x s A S Hdur).
    rewrite Eo. unfold tick_status. cbn [set_overlayEl statusEl].
    rewrite St, L, Ec.
    destruct (Z.gtb_spec (5000 - (now - startedAt)) 0); [reflexivity|lia]. }
  subst st'. unfold step. cbn [handle]. rewrite E, Eu.
  rewrite microtask_idle by (fields; congruence).
  fields. rewrite Tr, W, P, N, Ol, A, L, Ti, Tm.
  repeat split; try reflexivity.
  - exact S.
  - exists (setInterval (timers st)). split; [reflexivity|].
    split; [now left | apply setInterval_fresh].
Qed.

(** X10. Arming from rest, with the first [update] less than two seconds
    after [startedAt] and before the end of the session: the session is
    active and bound to the picked file, its duration is the binary64
    product of the minutes by 60000 rounded by [Math.round] and its end the
    binary64 sum of [startedAt] and the duration, the idle cutoff is 5000 ms
    counted from [startedAt], the status item shows what is left of it, a
    fresh overlay is hidden at level 0, a new interval is running, and
    nothing but the armed notice has been shown. *)
Theorem arming_starts_a_fresh_session :
  forall st startedAt now path value minutes,
    let s :=
      {| targetPath := path; startedAt := startedAt;
         durationMs :=
           Double.Math_round (Double.mul minutes (Double.of_Z 60000));
         idleCutoffMs := 5000;
         endsAt :=
           Double.add (Double.of_Z startedAt)
             (Double.Math_round (Double.mul minutes (Double.of_Z 60000)));
         docLength := match value with
                      | Some v => jslength v
                      | None => 0%Z
                      end |} in
    reachable st -> active st = false ->
    (0 <= now - startedAt < 2000)%Z ->
    sessionOver now s = false ->
    let st' := step (Picked startedAt now path value minutes) st in
    active st' = true
    /\ session st' = Some s
    /\ lastInsertAt st' = startedAt
    /\ statusEl st' = Some {| idleShownMs := 5000 - (now - startedAt) |}
    /\ overlayEl st' = Some {| classList := [DangerousOverlay] |}
    /\ overlayLevel st' = 0%Z
    /\ noSelect st' = true
    /\ (exists id, idleTicker st' = Some id /\ In id (timers st')
                   /\ ~ In id (timers st))
    /\ trace st' = trace st ++ [ShowNotice (NoticeArmed minutes)]
    /\ wiping st' = wiping st /\ pending st' = pending st.
Proof.
  intros st startedAt now path value minutes s.
  now apply picked_armed.
Qed.

(** [Number("0.000075")] minutes arm a session of 5 ms: the exact product
    is below 4.5, the binary64 product is 4.5. *)
Lemma arming_starts_a_fresh_session_witness :
  reachable (loaded sample_vault sample_leaves)
  /\ active (loaded sample_vault sample_leaves) = false
  /\ (0 <= 1004 - 1000 < 2000)%Z
  /\ short_minutes = SpecFloat.S754_finite false 5534023222112865 (-66)
  /\ Double.mul short_minutes (Double.of_Z 60000) = Double.decimal 45 1
  /\ (let st' := step (Picked 1000 1004 note_path (Some sample_note)
                              short_minutes)
                      (loaded sample_vault sample_leaves) in
      active st' = true
      /\ session st'
         = Some {| targetPath := note_path; startedAt := 1000;
                   durationMs := Double.of_Z 5; idleCutoffMs := 5000;
                   endsAt := Double.of_Z 1005; docLength := 24 |}
      /\ statusEl st' = Some {| idleShownMs := 5000 - (1004 - 1000) |}
      /\ overlayLevel st' = 0%Z).
Proof.
  assert (R : reachable (loaded sample_vault sample_leaves))
    by apply reach_loaded.
  split; [exact R|]. split; [reflexivity|]. split; [lia|].
  split; [vm_compute; reflexivity|]. split; [vm_compute; reflexivity|].
  destruct (arming_starts_a_fresh_session (loaded sample_vault sample_leaves)
              1000%Z 1004%Z note_path (Some sample_note) short_minutes R
              eq_refl)
    as (A & S & _ & St & _ & Ol & _); [lia | vm_compute; reflexivity |].
  split; [exact A|]. split; [rewrite S; vm_compute; reflexivity|].
  split; [exact St | exact Ol].
Defined.

(** X22. A quick option of the dialog (5, 10 or 15 minutes) arms a session
    that lasts exactly that long: the duration is the integer
    [m * 60000], the end is the integer [startedAt + m * 60000] (no
    rounding takes place), and the end-of-session test of a tick at time
    [t] holds exactly when [t] has reached that integer. *)
Theorem quick_option_ends_on_time :
  forall st startedAt now path value m,
    reachable st -> active st = false ->
    In m [5; 10; 15]%Z ->
    (0 <= startedAt < 2 ^ 52)%Z ->
    (0 <= now - startedAt < 2000)%Z ->
    let st' := step (Picked startedAt now path value (Double.of_Z m)) st in
    exists s,
      session st' = Some s
      /\ durationMs s = Double.of_Z (m * 60000)
      /\ endsAt s = Double.of_Z (startedAt + m * 60000)
      /\ forall t, (0 <= t < 2 ^ 53)%Z ->
                   sessionOver t s = (startedAt + m * 60000 <=? t)%Z.
Proof.
  intros st startedAt now path value m Hr Ha Hm Hs Hn st'.
  set (s := new_session startedAt path value (Double.of_Z m)).
  assert (Hd : durationMs s = Double.of_Z (m * 60000)
               /\ (300000 <= m * 60000 <= 900000)%Z).
  { destruct Hm as [<-|[<-|[<-|[]]]]; (split; [vm_compute; reflexivity|lia]). }
  destruct Hd as (Hd & Hb).
  assert (He : endsAt s = Double.of_Z (startedAt + m * 60000)).
  { change (endsAt s)
      with (Double.add (Double.of_Z startedAt) (durationMs s)).
    rewrite Hd. apply add_of_Z; lia. }
  assert (Ho : forall t, (0 <= t < 2 ^ 53)%Z ->
                         sessionOver t s = (startedAt + m * 60000 <=? t)%Z).
  { intros t Ht. apply sessionOver_integral; [exact He | lia | lia]. }
  assert (Es : s = new_session startedAt path value (Double.of_Z m))
    by reflexivity.
  clearbody s.
  exists s. split; [|split; [exact Hd|split; [exact He|exact Ho]]].
  assert (Hrun : sessionOver now s = false).
  { rewrite Ho by lia. apply Z.leb_gt. lia. }
  subst st'.
  destruct (picked_armed st startedAt now path value (Double.of_Z m) s
              Es Hr Ha Hn Hrun) as (_ & S & _).
  exact S.
Qed.

Lemma quick_option_ends_on_time_witness :
  reachable (loaded sample_vault sample_leaves)
  /\ active (loaded sample_vault sample_leaves) = false
  /\ In 5%Z [5; 10; 15]%Z
  /\ (0 <= 1700000000000 < 2 ^ 52)%Z
  /\ (0 <= 1700000000040 - 1700000000000 < 2000)%Z
  /\ (let st' := step (Picked 1700000000000 1700000000040 note_path
                              (Some sample_note) (Double.of_Z 5))
                      (loaded sample_vault sample_leaves) in
      exists s,
        session st' = Some s
        /\ endsAt s = Double.of_Z 1700000300000
        /\ sessionOver 1700000299999 s = false
        /\ sessionOver 1700000300000 s = true).
Proof.
  assert (R : reachable (loaded sample_vault sample_leaves))
    by apply reach_loaded.
  split; [exact R|]. split; [reflexivity|]. split; [now left|].
  split; [lia|]. split; [lia|].
  destruct (quick_option_ends_on_time (loaded sample_vault sample_leaves)
              1700000000000%Z 1700000000040%Z note_path (Some sample_note)
              5%Z R eq_refl)
    as (s & S & _ & E & H); [now left | lia | lia |].
  exists s. split; [exact S|]. split; [exact E|].
  split; rewrite H by lia; reflexivity.
Defined.

(** X23. Minutes whose product by 60000 overflows, as [Number("1e305")]
    does, arm a session whose duration and end are [+Infinity]: the
    end-of-session test fails at every time, so no tick ends the session
    for its duration. *)
Theorem overflowing_duration_never_ends :
  forall st startedAt now path value minutes,
    reachable st -> active st = false ->
    Double.mul minutes (Double.of_Z 60000) = SpecFloat.S754_infinity false ->
    (0 <= startedAt < 2 ^ 52)%Z ->
    (0 <= now - startedAt < 2000)%Z ->
    let st' := step (Picked startedAt now path value minutes) st in
    exists s,
      session st' = Some s
      /\ durationMs s = SpecFloat.S754_infinity false
      /\ endsAt s = SpecFloat.S754_infinity false
      /\ forall t, (- 2 ^ 53 < t < 2 ^ 53)%Z -> sessionOver t s = false.
Proof.
  intros st startedAt now path value minutes Hr Ha Hm Hs Hn st'.
  set (s := new_session startedAt path value minutes).
  assert (Hd : durationMs s = SpecFloat.S754_infinity false).
  { change (durationMs s)
      with (Double.Math_round (Double.mul minutes (Double.of_Z 60000))).
    now rewrite Hm. }
  assert (He : endsAt s = SpecFloat.S754_infinity false).
  { change (endsAt s)
      with (Double.add (Double.of_Z startedAt) (durationMs s)).
    rewrite Hd. apply add_of_Z_infinity. lia. }
  assert (Ho : forall t, (- 2 ^ 53 < t < 2 ^ 53)%Z -> sessionOver t s = false).
  { intros t Ht. unfold sessionOver. apply ge_of_Z_never; [exact Ht|].
    now left. }
  assert (Es : s = new_session startedAt path value minutes)
    by reflexivity.
  clearbody s.
  exists s. split; [|split; [exact Hd|split; [exact He|exact Ho]]].
  subst st'.
  destruct (picked_armed st startedAt now path value minutes s
              Es Hr Ha Hn (Ho now ltac:(lia))) as (_ & S & _).
  exact S.
Qed.

Lemma overflowing_duration_never_ends_witness :
  reachable (loaded sample_vault sample_leaves)
  /\ active (loaded sample_vault sample_leaves) = false
  /\ huge_minutes = SpecFloat.S754_finite false 5130671001622970 961
  /\ Double.mul huge_minutes (Double.of_Z 60000)
     = SpecFloat.S754_infinity false
  /\ (let st' := step (Picked 1700000000000 1700000000040 note_path
                              (Some sample_note) huge_minutes)
                      (loaded sample_vault sample_leaves) in
      exists s,
        session st' = Some s
        /\ endsAt s = SpecFloat.S754_infinity false
        /\ sessionOver 9007199254740991 s = false).
Proof.
  assert (R : reachable (loaded sample_vault sample_leaves))
    by apply reach_loaded.
  assert (M : Double.mul huge_minutes (Double.of_Z 60000)
              = SpecFloat.S754_infinity false) by (vm_compute; reflexivity).
  split; [exact R|]. split; [reflexivity|].
  split; [vm_compute; reflexivity|]. split; [exact M|].
  destruct (overflowing_duration_never_ends
              (loaded sample_vault sample_leaves)
              1700000000000%Z 1700000000040%Z note_path (Some sample_note)
              huge_minutes R eq_refl M)
    as (s & S & _ & E & H); [lia | lia |].
  exists s. split; [exact S|]. split; [exact E|]. apply H. lia.
Defined.
